(** * Rule 190 renderer: the automaton, its validation math and the event
    scheduler of [rule190.py], embedded as Rocq functions.

    Conventions of the embedding.
    - Python [int] is [Z]; a Python list is a [list]; the dict [RULE190] is a
      [gmap Z Z]; the set [active_notes] is a [gset Z].
    - A Python exception is a value of [exn]; fallible code lives in the
      error monad [result].
    - Python [float] values (the gate fraction, seconds per step) are taken
      as exact rationals [Q]; rounding of the binary representation is not
      part of the model.
    - [mido] messages are plain records of their fields; the range checks
      the library performs on those fields are outside the model. *)

From Stdlib Require Import ZArith QArith Qround Qminmax Lia List Sorted Permutation.
From stdpp Require Import base list gmap sorting strings.
Import ListNotations.

Local Open Scope Z_scope.

(** ** Exceptions and the error monad *)

Inductive exn : Type :=
| KeyError
| IndexError
| ZeroDivisionError
| TypeError.

Definition result (A : Type) : Type := (exn + A)%type.

Abbreviation Ok := (@inr exn _).
Abbreviation Raise := (@inl exn _).

Definition bind {A B : Type} (m : result A) (k : A -> result B) : result B :=
  match m with
  | inl e => inl e
  | inr a => k a
  end.

Notation "'do' x <- m ; k" := (bind m (fun x => k))
  (at level 10, x name, m at level 100, k at level 200).

(** A [for] loop over a list with a state and early exit on exception. *)
Fixpoint for_each {S A : Type} (body : S -> A -> result S) (xs : list A) (s : S)
  : result S :=
  match xs with
  | [] => Ok s
  | x :: xs' => do s' <- body s x; for_each body xs' s'
  end.

(** [range(n)] as the list of its indices. *)
Definition range (n : nat) : list nat := seq 0 n.

(** [l[j]] with Python's negative indices and [IndexError]. *)
Definition getitem {A : Type} (l : list A) (j : Z) : result A :=
  let n := Z.of_nat (length l) in
  let k := if j <? 0 then j + n else j in
  if (0 <=? k) && (k <? n) then
    match l !! Z.to_nat k with
    | Some x => Ok x
    | None => Raise IndexError
    end
  else Raise IndexError.

(** [l[j] = v]. *)
Definition setitem {A : Type} (l : list A) (j : Z) (v : A) : result (list A) :=
  let n := Z.of_nat (length l) in
  let k := if j <? 0 then j + n else j in
  if (0 <=? k) && (k <? n) then Ok (<[Z.to_nat k := v]> l)
  else Raise IndexError.

(** ** Cellular automaton (Rule 190) *)

Definition RULE190 : gmap Z Z :=
  <[7 := 1]> (<[6 := 0]> (<[5 := 1]> (<[4 := 1]>
  (<[3 := 1]> (<[2 := 1]> (<[1 := 1]> (<[0 := 0]> ∅))))))).

(** [RULE190[key]]. *)
Definition rule190_lookup (key : Z) : result Z :=
  match RULE190 !! key with
  | Some v => Ok v
  | None => Raise KeyError
  end.

(** [(l << 2) | (c << 1) | r] *)
Definition neighborhood_key (l c r : Z) : Z :=
  Z.lor (Z.lor (Z.shiftl l 2) (Z.shiftl c 1)) r.

(** The right-hand side of [nxt[i] = RULE190[...]] in the toroidal loop. *)
Definition toroidal_cell (row : list Z) (i : nat) : result Z :=
  let W := Z.of_nat (length row) in
  do l <- getitem row ((Z.of_nat i - 1) mod W);
  do c <- getitem row (Z.of_nat i);
  do r <- getitem row ((Z.of_nat i + 1) mod W);
  rule190_lookup (neighborhood_key l c r).

(** One iteration of a loop [for i in range(W): nxt[i] = cell(i)]. *)
Definition assign_cell (cell : nat -> result Z) (nxt : list Z) (i : nat)
  : result (list Z) :=
  do v <- cell i;
  setitem nxt (Z.of_nat i) v.

(** Toroidal boundary (for music rendering). *)
Definition next_rule190_toroidal (row : list Z) : result (list Z) :=
  let W := length row in
  for_each (assign_cell (toroidal_cell row)) (range W) (replicate W 0).

(** The right-hand side of [nxt[i] = RULE190[...]] in the fixed-zero loop. *)
Definition fixed0_cell (row : list Z) (i : nat) : result Z :=
  let W := Z.of_nat (length row) in
  do l <- (if 0 <? Z.of_nat i then getitem row (Z.of_nat i - 1) else Ok 0);
  do c <- getitem row (Z.of_nat i);
  do r <- (if Z.of_nat i <? W - 1 then getitem row (Z.of_nat i + 1) else Ok 0);
  rule190_lookup (neighborhood_key l c r).

(** Fixed-zero boundary (for validation). *)
Definition next_rule190_fixed0 (row : list Z) : result (list Z) :=
  let W := length row in
  for_each (assign_cell (fixed0_cell row)) (range W) (replicate W 0).

(** ** Useful math for validation *)

(** Truth value of a Python [int]. *)
Definition truthy (c : Z) : bool := negb (c =? 0).

(** [range(hi, -1, -1)]: the indices [hi, hi-1, ..., 0]. *)
Definition range_desc (hi : Z) : list nat := rev (seq 0 (Z.to_nat (hi + 1))).

(** The first loop of [row_to_int_anchor_rightmost]: scan the given indices
    and stop at the first set cell; [-1] when there is none. *)
Fixpoint find_rightmost (row : list Z) (idxs : list nat) : result Z :=
  match idxs with
  | [] => Ok (-1)
  | i :: idxs' =>
      do c <- getitem row (Z.of_nat i);
      if truthy c then Ok (Z.of_nat i) else find_rightmost row idxs'
  end.

(** One iteration of the packing loop on the pair [(x, bit)]. *)
Definition pack_bit (row : list Z) (st : Z * Z) (k : nat) : result (Z * Z) :=
  let (x, bit) := st in
  do c <- getitem row (Z.of_nat k);
  let x' := if truthy c then Z.lor x (Z.shiftl 1 bit) else x in
  Ok (x', bit + 1).

(** Interpret the finite 0/1 row by anchoring the rightmost 1 to bit 0 and
    packing bits leftward. *)
Definition row_to_int_anchor_rightmost (row : list Z) : result Z :=
  do idx <- find_rightmost row (range_desc (Z.of_nat (length row) - 1));
  if idx =? -1 then Ok 0
  else
    do st <- for_each (pack_bit row) (range_desc idx) (0, 0);
    Ok (fst st).

(** One [a.append(4*a[-1] + a[-2] - 4*a[-3])]. *)
Definition append_term (a : list Z) (_ : nat) : result (list Z) :=
  do a1 <- getitem a (-1);
  do a2 <- getitem a (-2);
  do a3 <- getitem a (-3);
  Ok (a ++ [4 * a1 + a2 - 4 * a3]).

(** a_t = 4 a_{t-1} + a_{t-2} - 4 a_{t-3}, with a0=1, a1=7, a2=29 *)
Definition rule190_single_one_sequence (n : Z) : result (list Z) :=
  if n <=? 0 then Ok []
  else if n =? 1 then Ok [1]
  else if n =? 2 then Ok [1; 7]
  else
    do a <- for_each append_term (seq 3 (Z.to_nat (n - 3))) [1; 7; 29];
    Ok (take (Z.to_nat n) a).

(** ** MIDI rendering *)

Record RenderConfig : Type := {
  bpm : Z;
  ppq : Z;
  q : Z;
  gate : option Q;      (* None = sustain; else a fraction of the step *)
  filename : string
}.

(** [60.0 / cfg.bpm * (cfg.q / cfg.ppq)] *)
Definition seconds_per_step (cfg : RenderConfig) : result Q :=
  if bpm cfg =? 0 then Raise ZeroDivisionError
  else if ppq cfg =? 0 then Raise ZeroDivisionError
  else Ok ((60 / inject_Z (bpm cfg)) * (inject_Z (q cfg) / inject_Z (ppq cfg)))%Q.

(** [math.floor(8.0 / seconds_per_step(cfg))] *)
Definition steps_for_8_seconds (cfg : RenderConfig) : result Z :=
  do sps <- seconds_per_step cfg;
  if Qeq_bool sps 0 then Raise ZeroDivisionError
  else Ok (Qfloor (8 / sps)%Q).

(** The messages the scheduler creates.  All note messages are on channel 0;
    the [time] attribute is assigned when the track is packed. *)
Inductive message : Type :=
| MetaSetTempo (of_bpm : Z)        (* set_tempo, tempo = mido.bpm2tempo(of_bpm) *)
| NoteOff (note : Z)               (* note_off, velocity 0 *)
| NoteOn (note : Z) (velocity : Z) (* note_on *).

(** An entry [(abs_tick, msg)] of the list [events]. *)
Definition event : Type := (Z * message)%type.

(** The local variables of [schedule_events] that the loop updates. *)
Record sched_state : Type := {
  row : list Z;
  age : list Z;
  events : list event;
  active_notes : gset Z
}.

(** [int(x)] of a float: truncation towards zero. *)
Definition int_of_float (x : Q) : Z := Z.quot (Qnum x) (Z.pos (Qden x)).

(** [cfg.gate > 0.0] *)
Definition gate_positive (g : Q) : bool := negb (Qle_bool g 0).

(** [(cfg.gate is not None) and (cfg.gate > 0.0)] *)
Definition staccato_of (cfg : RenderConfig) : bool :=
  match gate cfg with
  | Some g => gate_positive g
  | None => false
  end.

(** [max(0.0, min(0.9999, g))]: keep inside step. *)
Definition clamp_gate (g : Q) : Q := Qmax 0 (Qmin (9999 # 10000) g).

Definition gate_frac_of (cfg : RenderConfig) : option Q :=
  match gate cfg with
  | Some g => Some (clamp_gate g)
  | None => None
  end.

(** [min(30 + 10 * a, 110)] *)
Definition velocity_of_age (a : Z) : Z := Z.min (30 + 10 * a) 110.

(** The classification loop of sustain mode, on [(age, births, deaths)]. *)
Definition classify (row nxt scale : list Z)
  (st : list Z * list (Z * nat) * list (Z * nat)) (i : nat)
  : result (list Z * list (Z * nat) * list (Z * nat)) :=
  let '(age, births, deaths) := st in
  do ri <- getitem row (Z.of_nat i);
  do ni <- getitem nxt (Z.of_nat i);
  let was := ri =? 1 in
  let now := ni =? 1 in
  do note <- getitem scale (Z.of_nat i);
  if now && negb was then
    do age' <- setitem age (Z.of_nat i) 1;
    Ok (age', births ++ [(note, i)], deaths)
  else if now && was then
    do a <- getitem age (Z.of_nat i);
    do age' <- setitem age (Z.of_nat i) (a + 1);
    Ok (age', births, deaths)
  else if was && negb now then
    do age' <- setitem age (Z.of_nat i) 0;
    Ok (age', births, deaths ++ [(note, i)])
  else Ok st.

(** [for note, _ in deaths: ...] on [(events, active_notes)]. *)
Definition emit_death (base_tick : Z) (st : list event * gset Z) (d : Z * nat)
  : list event * gset Z :=
  let (evs, active) := st in
  let note := fst d in
  if decide (note ∈ active) then
    (evs ++ [(base_tick, NoteOff note)], active ∖ {[note]})
  else st.

(** [for note, idx in births: ...] on [(events, active_notes)]. *)
Definition emit_birth (base_tick : Z) (age : list Z) (st : list event * gset Z)
  (b : Z * nat) : result (list event * gset Z) :=
  let (evs, active) := st in
  let (note, idx) := b in
  do a <- getitem age (Z.of_nat idx);
  let vel := velocity_of_age a in
  Ok (evs ++ [(base_tick, NoteOn note vel)], active ∪ {[note]}).

(** Sustain-until-death mode: the body of one step after [nxt] is known. *)
Definition sustain_step (base_tick : Z) (scale nxt : list Z) (st : sched_state)
  : result sched_state :=
  let W := length (row st) in
  do cl <- for_each (classify (row st) nxt scale) (range W) (age st, [], []);
  let '(age', births, deaths) := cl in
  let st1 := fold_left (emit_death base_tick) deaths (events st, active_notes st) in
  do st2 <- for_each (emit_birth base_tick age') births st1;
  Ok {| row := nxt; age := age'; events := fst st2; active_notes := snd st2 |}.

(** The per-column loop of staccato mode, on [(age, events)]. *)
Definition retrigger (base_tick off_tick : Z) (row nxt scale : list Z)
  (st : list Z * list event) (i : nat) : result (list Z * list event) :=
  let (age, evs) := st in
  do ni <- getitem nxt (Z.of_nat i);
  if ni =? 1 then
    do ri <- getitem row (Z.of_nat i);
    do a' <- (if ri =? 1 then do a <- getitem age (Z.of_nat i); Ok (a + 1)
              else Ok 1);
    do age' <- setitem age (Z.of_nat i) a';
    do note <- getitem scale (Z.of_nat i);
    do a2 <- getitem age' (Z.of_nat i);
    let vel := velocity_of_age a2 in
    Ok (age', evs ++ [(base_tick, NoteOn note vel); (off_tick, NoteOff note)])
  else
    do age' <- setitem age (Z.of_nat i) 0;
    Ok (age', evs).

(** Staccato mode: re-trigger every step for all set cells of [nxt]. *)
Definition staccato_step (q : Z) (gate_frac : option Q) (base_tick : Z)
  (scale nxt : list Z) (st : sched_state) : result sched_state :=
  match gate_frac with
  | None => Raise TypeError
  | Some gf =>
      let W := length (row st) in
      let off_tick := base_tick + int_of_float (inject_Z q * gf)%Q in
      do r <- for_each (retrigger base_tick off_tick (row st) nxt scale)
                (range W) (age st, events st);
      Ok {| row := nxt; age := fst r; events := snd r;
            active_notes := active_notes st |}
  end.

(** The body of [for s in range(steps)]. *)
Definition sched_step (cfg : RenderConfig) (scale : list Z) (st : sched_state)
  (s : nat) : result sched_state :=
  let base_tick := Z.of_nat s * q cfg in
  do nxt <- next_rule190_toroidal (row st);
  if negb (staccato_of cfg) then sustain_step base_tick scale nxt st
  else staccato_step (q cfg) (gate_frac_of cfg) base_tick scale nxt st.

(** The state before the loop: the tempo is put first at tick 0. *)
Definition sched_init (row0 : list Z) (cfg : RenderConfig) : sched_state :=
  {| row := row0;
     age := replicate (length row0) 0;
     events := [(0, MetaSetTempo (bpm cfg))];
     active_notes := ∅ |}.

(** [sorted(active_notes)] *)
Definition sorted_notes (active : gset Z) : list Z :=
  merge_sort Z.le (elements active).

(** Final flush at the exact 8s boundary for sustain mode. *)
Definition final_flush (cfg : RenderConfig) (steps : Z) (st : sched_state)
  : sched_state :=
  if negb (staccato_of cfg) then
    let end_tick := steps * q cfg in
    {| row := row st; age := age st;
       events := events st
                 ++ map (fun note => (end_tick, NoteOff note))
                        (sorted_notes (active_notes st));
       active_notes := ∅ |}
  else st.

(** The state of [schedule_events] after the step loop, before the flush. *)
Definition run_steps (row0 scale : list Z) (cfg : RenderConfig) (steps : Z)
  : result sched_state :=
  for_each (sched_step cfg scale) (range (Z.to_nat steps)) (sched_init row0 cfg).

(** The state of [schedule_events] when scheduling completes (after the
    flush, before the sort). *)
Definition scheduled (row0 scale : list Z) (cfg : RenderConfig)
  : result sched_state :=
  do steps <- steps_for_8_seconds cfg;
  do st <- run_steps row0 scale cfg steps;
  Ok (final_flush cfg steps st).

(** [sort_key]: the pair [(tick, pri)]. *)
Definition priority (m : message) : Z :=
  match m with
  | MetaSetTempo _ => -1
  | NoteOff _ => 0
  | NoteOn _ _ => 1
  end.

Definition sort_key (item : event) : Z * Z := (fst item, priority (snd item)).

(** Python's [<] on pairs of integers. *)
Definition key_lt (a b : Z * Z) : bool :=
  (fst a <? fst b) || ((fst a =? fst b) && (snd a <? snd b)).

(** [events.sort(key=sort_key)].  The sort is stable, so its result is the
    stable insertion sort of the list by key. *)
Fixpoint insert_event (x : event) (l : list event) : list event :=
  match l with
  | [] => [x]
  | y :: l' =>
      if key_lt (sort_key y) (sort_key x) then y :: insert_event x l'
      else x :: y :: l'
  end.

Fixpoint sort_events (l : list event) : list event :=
  match l with
  | [] => []
  | x :: l' => insert_event x (sort_events l')
  end.

(** The final event sequence: [events] after [events.sort]. *)
Definition final_events (row0 scale : list Z) (cfg : RenderConfig)
  : result (list event) :=
  do st <- scheduled row0 scale cfg;
  Ok (sort_events (events st)).

(** The packing loop: each message with its [time] attribute, on
    [(track, last_tick)]. *)
Definition pack_event (st : list (Z * message) * Z) (ev : event)
  : list (Z * message) * Z :=
  let (track, last_tick) := st in
  let (abs_tick, msg) := ev in
  let delta := abs_tick - last_tick in
  (track ++ [(Z.max 0 delta, msg)], abs_tick).

Definition pack_track (evs : list event) : list (Z * message) :=
  fst (fold_left pack_event evs ([], 0)).

(** What [mid.save] writes. *)
Record MidiFile : Type := {
  ticks_per_beat : Z;
  track : list (Z * message)
}.

(** [schedule_events]: the file written and the returned file name. *)
Definition schedule_events (row0 scale : list Z) (cfg : RenderConfig)
  : result (MidiFile * string) :=
  do evs <- final_events row0 scale cfg;
  Ok ({| ticks_per_beat := ppq cfg; track := pack_track evs |}, filename cfg).


(** ** Vocabulary of the specification *)

(** The two boundary policies. *)
Inductive boundary : Type :=
| Toroidal
| FixedZero.

(** The one-step update under a boundary policy. *)
Definition step_with (p : boundary) (r : list Z) : result (list Z) :=
  match p with
  | Toroidal => next_rule190_toroidal r
  | FixedZero => next_rule190_fixed0 r
  end.

(** The Rule-190 table as the specification lists it:
    111->1, 110->0, 101->1, 100->1, 011->1, 010->1, 001->1, 000->0. *)
Definition rule190_table (l c r : Z) : Z :=
  match l, c, r with
  | 1, 1, 1 => 1
  | 1, 1, 0 => 0
  | 1, 0, 1 => 1
  | 1, 0, 0 => 1
  | 0, 1, 1 => 1
  | 0, 1, 0 => 1
  | 0, 0, 1 => 1
  | 0, 0, 0 => 0
  | _, _, _ => 0
  end.

(** A row of binary cell states. *)
Definition is_bit (c : Z) : bool := (c =? 0) || (c =? 1).
Definition is_binary (r : list Z) : bool := forallb is_bit r.

(** Cell [j] of a row, with every out-of-range position read as 0. *)
Definition cell_at (r : list Z) (j : Z) : Z :=
  if (0 <=? j) && (j <? Z.of_nat (length r)) then nth (Z.to_nat j) r 0 else 0.

(** The neighbour at offset [d] of cell [i]: wrapped modulo the width under
    the toroidal policy, 0 outside the row under the fixed-zero policy. *)
Definition neighbor (p : boundary) (r : list Z) (i : nat) (d : Z) : Z :=
  match p with
  | Toroidal => cell_at r ((Z.of_nat i + d) mod Z.of_nat (length r))
  | FixedZero => cell_at r (Z.of_nat i + d)
  end.

(** Rotation of a row by an integer number of positions: cell [i] of the
    result is cell [(i + k) mod W] of the row. *)
Definition rotate_row (k : Z) (r : list Z) : list Z :=
  rotate (Z.to_nat (k mod Z.of_nat (length r))) r.

(** [f] applied to the value of a successful computation. *)
Definition on_ok {A B : Type} (f : A -> B) (m : result A) : result B :=
  do a <- m; Ok (f a).

(** A row of width [W] holding a single 1 at position [c]:
    [row = [0] * W; row[c] = 1]. *)
Definition single_one_row (W c : nat) : list Z := <[c := 1]> (replicate W 0).

(** [t] successive fixed-zero steps. *)
Fixpoint steps_fixed0 (t : nat) (r : list Z) : result (list Z) :=
  match t with
  | O => Ok r
  | S t' => do r' <- next_rule190_fixed0 r; steps_fixed0 t' r'
  end.

(** The closed-form sequence of the specification:
    a(0)=1, a(1)=7, a(2)=29, a(t) = 4 a(t-1) + a(t-2) - 4 a(t-3).
    [a_window t] is the triple (a(t), a(t+1), a(t+2)). *)
Fixpoint a_window (t : nat) : Z * Z * Z :=
  match t with
  | O => (1, 7, 29)
  | S t' => let '(x, y, z) := a_window t' in (y, z, 4 * z + y - 4 * x)
  end.

Definition a_closed (t : nat) : Z := fst (fst (a_window t)).

(** A configuration with its gate field replaced. *)
Definition with_gate (cfg : RenderConfig) (g : option Q) : RenderConfig :=
  {| bpm := bpm cfg; ppq := ppq cfg; q := q cfg; gate := g;
     filename := filename cfg |}.

(** [t] successive toroidal steps. *)
Fixpoint steps_toroidal (t : nat) (r : list Z) : result (list Z) :=
  match t with
  | O => Ok r
  | S t' => do r' <- next_rule190_toroidal r; steps_toroidal t' r'
  end.

(** The order of the final sequence: absolute tick ascending and, within a
    tick, priority ascending (tempo, then note-stop, then note-start). *)
Definition key_le (a b : Z * Z) : Prop :=
  fst a < fst b \/ (fst a = fst b /\ snd a <= snd b).

Definition event_le (e1 e2 : event) : Prop :=
  key_le (sort_key e1) (sort_key e2).

Definition is_stop (m : message) : bool :=
  match m with NoteOff _ => true | _ => false end.

Definition is_start (m : message) : bool :=
  match m with NoteOn _ _ => true | _ => false end.

Definition is_tempo (m : message) : bool :=
  match m with MetaSetTempo _ => true | _ => false end.

(** The configuration of the driver, and small inputs for examples. *)
Definition cfg_default : RenderConfig :=
  {| bpm := 120; ppq := 480; q := 240; gate := None;
     filename := "rule190_8s.mid" |}.

Definition row5 : list Z := [0; 0; 1; 0; 0].
Definition scale5 : list Z := [60; 62; 63; 65; 67].

(** The distance in ticks from a staccato note-start to its note-stop:
    [int(cfg.q * gate_frac)]. *)
Definition stop_offset (cfg : RenderConfig) (g : Q) : Z :=
  int_of_float (inject_Z (q cfg) * clamp_gate g)%Q.



(** A staccato configuration whose gate exceeds the clamp. *)
Definition cfg_wide_gate : RenderConfig :=
  {| bpm := 15; ppq := 20000; q := 20000; gate := Some (99999 # 100000);
     filename := "rule190_8s.mid" |}.

(** A staccato configuration with half-step notes. *)
Definition cfg_staccato : RenderConfig :=
  {| bpm := 120; ppq := 480; q := 240; gate := Some (1 # 2);
     filename := "rule190_8s.mid" |}.

(** A configuration with negative resolution and negative step length. *)
Definition cfg_negative : RenderConfig :=
  {| bpm := 120; ppq := -480; q := -240; gate := None;
     filename := "rule190_8s.mid" |}.


(** The exact delta-ticks of an event list: each absolute tick minus the
    previous one, the first minus [last]. *)
Fixpoint deltas (last : Z) (evs : list event) : list (Z * message) :=
  match evs with
  | [] => []
  | (abs_tick, msg) :: evs' => (abs_tick - last, msg) :: deltas abs_tick evs'
  end.

(** A delta with the negative values replaced by zero. *)
Definition clamp_delta (d : Z * message) : Z * message :=
  (Z.max 0 (fst d), snd d).

(** Note-starts and note-stops of pitch [p] in an event list. *)
Definition starts_of (p : Z) (e : event) : bool :=
  match snd e with
  | NoteOn n _ => n =? p
  | _ => false
  end.

Definition stops_of (p : Z) (e : event) : bool :=
  match snd e with
  | NoteOff n => n =? p
  | _ => false
  end.

Definition count_starts (p : Z) (evs : list event) : nat :=
  length (List.filter (starts_of p) evs).

Definition count_stops (p : Z) (evs : list event) : nat :=
  length (List.filter (stops_of p) evs).

(** Every note-start has exactly one matching note-stop: for each pitch the
    stops are as many as the starts and, read in order, at every point the
    stops so far are the starts so far or one less (a start, then its stop,
    then the next start). *)
Definition each_start_has_one_stop (evs : list event) : Prop :=
  forall p : Z,
    count_stops p evs = count_starts p evs /\
    forall k : nat,
      (count_stops p (take k evs) <= count_starts p (take k evs)
       <= S (count_stops p (take k evs)))%nat.

(** The scale gives different columns of the row different pitches. *)
Definition distinct_pitches (W : nat) (scale : list Z) : Prop :=
  forall i j : nat,
    (i < W)%nat -> (j < W)%nat -> nth i scale 0 = nth j scale 0 -> i = j.

(** A four-column run whose scale repeats a pitch: the scale built from
    root 60 with the offsets 0 and 12 has 72 on columns 1 and 2. *)
Definition row4 : list Z := [0; 0; 1; 0].
Definition scale_octaves : list Z := [60; 72; 72; 84].

(** ** Auxiliary definitions for the proofs *)

(** The values a loop of assignments computes, in order, or its first error. *)
Fixpoint collect (cell : nat -> result Z) (idxs : list nat) : result (list Z) :=
  match idxs with
  | [] => Ok []
  | i :: idxs' => do v <- cell i; do vs <- collect cell idxs'; Ok (v :: vs)
  end.

(** The pattern 1110 1110 ... that a single 1 grows into: the cell at
    offset [o] from the left edge of the light cone. *)
Definition pat (o : Z) : Z := if o mod 4 =? 3 then 0 else 1.

(** Cell [j] of the row at time [t] when the seed is at position [c]. *)
Definition cone_cell (c t j : Z) : Z :=
  if (c - t <=? j) && (j <=? c + t) then pat (j - (c - t)) else 0.

Definition cone_row (W c t : nat) : list Z :=
  map (fun j => cone_cell (Z.of_nat c) (Z.of_nat t) (Z.of_nat j)) (seq 0 W).

(** The bit a cell contributes to the anchored encoding. *)
Definition bit_of (c : Z) : Z := if truthy c then 1 else 0.

(** The first [m] cells of a row read as a binary numeral, cell [m-1] being
    the least significant bit. *)
Fixpoint prefix_value (r : list Z) (m : nat) : Z :=
  match m with
  | O => 0
  | S m' => 2 * prefix_value r m' + bit_of (nth m' r 0)
  end.

(** The first [o] cells of the pattern read as a binary numeral. *)
Fixpoint pat_value (o : nat) : Z :=
  match o with
  | O => 0
  | S o' => 2 * pat_value o' + pat (Z.of_nat o')
  end.

(** What one step does to the age of column [i] in sustain mode. *)
Definition sustain_age (row nxt age : list Z) (i : nat) : Z :=
  let was := nth i row 0 =? 1 in
  let now := nth i nxt 0 =? 1 in
  if now && negb was then 1
  else if now && was then nth i age 0 + 1
  else if was && negb now then 0
  else nth i age 0.

(** The entries the classification loop appends for the given columns. *)
Definition births_of (row nxt scale : list Z) (idxs : list nat)
  : list (Z * nat) :=
  flat_map (fun i => if (nth i nxt 0 =? 1) && negb (nth i row 0 =? 1)
                     then [(nth i scale 0, i)] else []) idxs.

Definition deaths_of (row nxt scale : list Z) (idxs : list nat)
  : list (Z * nat) :=
  flat_map (fun i => if (nth i row 0 =? 1) && negb (nth i nxt 0 =? 1)
                     then [(nth i scale 0, i)] else []) idxs.

(** What one step does to the age of column [i] in staccato mode. *)
Definition staccato_age (row nxt age : list Z) (i : nat) : Z :=
  if nth i nxt 0 =? 1 then
    (if nth i row 0 =? 1 then nth i age 0 + 1 else 1)
  else 0.

(** The events one staccato step appends for the given columns. *)
Definition staccato_events (base_tick off_tick : Z) (row nxt scale age : list Z)
  (idxs : list nat) : list event :=
  flat_map (fun i =>
              if nth i nxt 0 =? 1 then
                [(base_tick,
                  NoteOn (nth i scale 0)
                    (velocity_of_age (staccato_age row nxt age i)));
                 (off_tick, NoteOff (nth i scale 0))]
              else []) idxs.

(** The state of the classification loop after columns [0 .. i-1]. *)
Definition classified (row nxt scale age0 : list Z) (i : nat)
  (st : list Z * list (Z * nat) * list (Z * nat)) : Prop :=
  let '(age, births, deaths) := st in
  length age = length age0 /\
  births = births_of row nxt scale (seq 0 i) /\
  deaths = deaths_of row nxt scale (seq 0 i) /\
  (forall j, (j < i)%nat -> nth j age 0 = sustain_age row nxt age0 j) /\
  (forall j, (i <= j)%nat -> nth j age 0 = nth j age0 0) /\
  (i <= length scale)%nat /\ (i <= length nxt)%nat.

(** The pitches the deaths loop stops: those found in the active set when
    their turn comes. *)
Fixpoint death_stops (active : gset Z) (deaths : list (Z * nat)) : list Z :=
  match deaths with
  | [] => []
  | d :: deaths' =>
      if decide (fst d ∈ active)
      then fst d :: death_stops (active ∖ {[fst d]}) deaths'
      else death_stops active deaths'
  end.

Definition stop_at (tick : Z) (note : Z) : event := (tick, NoteOff note).

Definition start_at (tick : Z) (age : list Z) (b : Z * nat) : event :=
  (tick, NoteOn (fst b) (velocity_of_age (nth (snd b) age 0))).

(** The state of the staccato loop after columns [0 .. i-1]. *)
Definition retriggered (base_tick off_tick : Z) (row nxt scale age0 : list Z)
  (evs0 : list event) (i : nat) (st : list Z * list event) : Prop :=
  let (age, evs) := st in
  length age = length age0 /\
  (forall j, (j < i)%nat -> nth j age 0 = staccato_age row nxt age0 j) /\
  (forall j, (i <= j)%nat -> nth j age 0 = nth j age0 0) /\
  evs = evs0 ++ staccato_events base_tick off_tick row nxt scale age0 (seq 0 i).



(** No event of a list lies before tick 0. *)
Definition ticks_nonneg (evs : list event) : Prop :=
  forall e : event, In e evs -> 0 <= fst e.

(** Starts minus stops of pitch [p]. *)
Definition sounding (p : Z) (evs : list event) : Z :=
  Z.of_nat (count_starts p evs) - Z.of_nat (count_stops p evs).

(** The active set tracks the pitches that are sounding, and no pitch ever
    sounds twice at once. *)
Definition tracked (evs : list event) (active : gset Z) : Prop :=
  forall p : Z,
    (forall k : nat, 0 <= sounding p (take k evs) <= 1) /\
    sounding p evs = if decide (p ∈ active) then 1 else 0.

(** The invariant of the step loop in sustain mode, before step [k]. *)
Definition sustain_inv (row0 scale : list Z) (qv : Z) (k : nat)
  (st : sched_state) : Prop :=
  length (row st) = length row0 /\
  (forall p, p ∈ active_notes st ->
     exists i : nat,
       (i < length row0)%nat /\ p = nth i scale 0 /\ nth i (row st) 0 = 1) /\
  tracked (events st) (active_notes st) /\
  StronglySorted event_le (events st) /\
  (forall e, In e (events st) ->
     key_lt (sort_key e) (Z.of_nat k * qv, 0) = true).

(** ** The validation of the driver *)

(** One iteration of the validation loop of [main], on the pair of the
    current row and the warnings printed so far; a warning is the triple
    [(t, got, expected)]. *)
Definition check_row (seq_expected : list Z)
  (st : list Z * list (Z * Z * Z)) (t : nat)
  : result (list Z * list (Z * Z * Z)) :=
  let (row_val, warns) := st in
  do as_int <- row_to_int_anchor_rightmost row_val;
  do expected <- getitem seq_expected (Z.of_nat t);
  let warns' :=
    if negb (as_int =? expected)
    then warns ++ [(Z.of_nat t, as_int, expected)] else warns in
  do row_val' <- next_rule190_fixed0 row_val;
  Ok (row_val', warns').

(** The validation of [main] for a given [max_check]: a fixed-zero row of
    width [1 + 2 * max_check] with a single 1 at the centre, compared row
    after row with the closed form.  The result is the list of warnings;
    [ok] stays [True] exactly when it is empty. *)
Definition validate_first_rows (max_check : Z) : result (list (Z * Z * Z)) :=
  let W_val := 1 + 2 * max_check in
  let row_val := replicate (Z.to_nat W_val) 0 in
  let center := max_check in
  do row_val <- setitem row_val center 1;
  do seq_expected <- rule190_single_one_sequence max_check;
  do r <- for_each (check_row seq_expected) (range (Z.to_nat max_check))
            (row_val, []);
  Ok (snd r).

(** ** Scale / pitch mapping helpers *)

(** Scale degrees in semitones. *)
Definition NAT_MINOR_STEPS : list Z := [0; 2; 3; 5; 7; 8; 10].

(** The inner loop [for d in steps] of [build_scale_across_width], with its
    [break] when the pool has reached the width. *)
Fixpoint stack_steps (width root octv : Z) (steps : list Z) (pool : list Z)
  : list Z :=
  match steps with
  | [] => pool
  | d :: steps' =>
      let pool' := pool ++ [root + 12 * octv + d] in
      if Z.of_nat (length pool') =? width then pool'
      else stack_steps width root octv steps' pool'
  end.

(** The loop [while len(pool) < width]; [None] when [fuel] iterations do not
    end it. *)
Fixpoint stack_octaves (fuel : nat) (width root : Z) (steps : list Z)
  (octv : Z) (pool : list Z) {struct fuel} : option (list Z) :=
  if Z.of_nat (length pool) <? width then
    match fuel with
    | O => None
    | S fuel' =>
        stack_octaves fuel' width root steps (octv + 1)
          (stack_steps width root octv steps pool)
    end
  else Some pool.

(** [build_scale_across_width]; the argument [span_octaves] is not used by
    the code. *)
Definition build_scale_across_width (fuel : nat) (width root : Z)
  (steps : list Z) (span_octaves : Z) : option (list Z) :=
  stack_octaves fuel width root steps 0 [].

(** The pitch of column [i]: the root, one octave for every full cycle
    through the steps, and the step of the column in its cycle. *)
Definition pitch_at (root : Z) (steps : list Z) (i : nat) : Z :=
  root + 12 * Z.of_nat (i / length steps)
  + nth (i mod length steps) steps 0.

Definition scale_upto (root : Z) (steps : list Z) (n : nat) : list Z :=
  map (pitch_at root steps) (seq 0 n).

(** ** Further vocabulary for the scheduler *)

(** The absolute ticks a reader of the track recovers: the running sum of
    the times, starting from [last]. *)
Fixpoint absolute_ticks (last : Z) (track : list (Z * message)) : list event :=
  match track with
  | [] => []
  | (time, msg) :: track' =>
      (last + time, msg) :: absolute_ticks (last + time) track'
  end.

(** The event list begins with the tempo at tick 0 and holds no other
    tempo message. *)
Definition tempo_first (bpm : Z) (evs : list event) : Prop :=
  exists rest : list event,
    evs = (0, MetaSetTempo bpm) :: rest /\
    forall e, In e rest -> is_tempo (snd e) = false.

(** Ages follow the cells: one age per column, none negative, and the age
    of a cell that is not 1 is 0. *)
Definition ages_follow (st : sched_state) : Prop :=
  length (age st) = length (row st) /\
  forall j : nat,
    0 <= nth j (age st) 0 /\ (nth j (row st) 0 <> 1 -> nth j (age st) 0 = 0).



(** * Properties *)

(** ** The error monad and Python indexing *)

Lemma getitem_lookup {A : Type} (l : list A) (i : nat) (x : A) :
  l !! i = Some x -> getitem l (Z.of_nat i) = Ok x.
Proof.
  intros H. pose proof (lookup_lt_Some _ _ _ H) as Hlt.
  unfold getitem.
  destruct (Z.ltb_spec (Z.of_nat i) 0) as [?|_]; [lia|].
  destruct (Z.leb_spec 0 (Z.of_nat i)) as [_|?]; [|lia].
  destruct (Z.ltb_spec (Z.of_nat i) (Z.of_nat (length l))) as [_|?]; [|lia].
  simpl. rewrite Nat2Z.id, H. reflexivity.
Qed.

Lemma getitem_Z {A : Type} (l : list A) (j : Z) (x : A) :
  0 <= j -> l !! Z.to_nat j = Some x -> getitem l j = Ok x.
Proof.
  intros Hj H. rewrite <- (Z2Nat.id j) by assumption.
  apply getitem_lookup, H.
Qed.

Lemma getitem_Ok_inv {A : Type} (l : list A) (i : nat) (x : A) :
  getitem l (Z.of_nat i) = Ok x -> l !! i = Some x.
Proof.
  unfold getitem.
  destruct (Z.ltb_spec (Z.of_nat i) 0) as [?|_]; [lia|].
  destruct (_ && _); [|discriminate].
  rewrite Nat2Z.id. destruct (l !! i); [|discriminate].
  intros [= ->]. reflexivity.
Qed.

Lemma setitem_insert {A : Type} (l : list A) (i : nat) (v : A) :
  (i < length l)%nat -> setitem l (Z.of_nat i) v = Ok (<[i := v]> l).
Proof.
  intros Hlt. unfold setitem.
  destruct (Z.ltb_spec (Z.of_nat i) 0) as [?|_]; [lia|].
  destruct (Z.leb_spec 0 (Z.of_nat i)) as [_|?]; [|lia].
  destruct (Z.ltb_spec (Z.of_nat i) (Z.of_nat (length l))) as [_|?]; [|lia].
  simpl. rewrite Nat2Z.id. reflexivity.
Qed.

Lemma cell_at_lookup (r : list Z) (j : nat) (x : Z) :
  r !! j = Some x -> cell_at r (Z.of_nat j) = x.
Proof.
  intros H. pose proof (lookup_lt_Some _ _ _ H) as Hlt.
  unfold cell_at.
  destruct (Z.leb_spec 0 (Z.of_nat j)) as [_|?]; [|lia].
  destruct (Z.ltb_spec (Z.of_nat j) (Z.of_nat (length r))) as [_|?]; [|lia].
  simpl. rewrite Nat2Z.id. apply nth_lookup_Some with (d := 0) in H. exact H.
Qed.

Lemma cell_at_outside (r : list Z) (j : Z) :
  j < 0 \/ Z.of_nat (length r) <= j -> cell_at r j = 0.
Proof.
  intros H. unfold cell_at.
  destruct (Z.leb_spec 0 j); destruct (Z.ltb_spec j (Z.of_nat (length r)));
    simpl; try reflexivity; lia.
Qed.

Lemma is_binary_lookup (r : list Z) (i : nat) (x : Z) :
  is_binary r = true -> r !! i = Some x -> x = 0 \/ x = 1.
Proof.
  unfold is_binary. rewrite forallb_forall. intros Hb Hi.
  assert (Hin : In x r).
  { apply list_elem_of_In, list_elem_of_lookup. eauto. }
  specialize (Hb x Hin). unfold is_bit in Hb. lia.
Qed.

Lemma is_binary_cell_at (r : list Z) (j : Z) :
  is_binary r = true -> cell_at r j = 0 \/ cell_at r j = 1.
Proof.
  intros Hb. unfold cell_at.
  destruct (_ && _) eqn:E; [|left; reflexivity].
  apply andb_true_iff in E as [E1 E2].
  apply Z.leb_le in E1. apply Z.ltb_lt in E2.
  destruct (lookup_lt_is_Some_2 r (Z.to_nat j)) as [x Hx]; [lia|].
  rewrite (nth_lookup_Some _ _ 0 _ Hx).
  eapply is_binary_lookup; eassumption.
Qed.

(** ** Loops of the shape [for i in range(W): nxt[i] = cell(i)] *)

Lemma for_each_assign (cell : nat -> result Z) :
  forall (k a : nat) (nxt : list Z),
    (a + k)%nat = length nxt ->
    for_each (assign_cell cell) (seq a k) nxt
    = do vs <- collect cell (seq a k); Ok (take a nxt ++ vs).
Proof.
  induction k as [|k IH]; intros a nxt Hlen; simpl.
  - rewrite app_nil_r, firstn_all2 by lia. reflexivity.
  - unfold assign_cell at 1. destruct (cell a) as [e|v]; simpl; [reflexivity|].
    rewrite setitem_insert by lia. simpl.
    rewrite IH by (rewrite length_insert; lia).
    destruct (collect cell (seq (S a) k)) as [e|vs]; simpl; [reflexivity|].
    f_equal.
    rewrite (take_S_r _ _ v) by (apply list_lookup_insert_eq; lia).
    rewrite take_insert_ge by lia.
    rewrite <- app_assoc. reflexivity.
Qed.

Lemma next_toroidal_collect (r : list Z) :
  next_rule190_toroidal r = collect (toroidal_cell r) (seq 0 (length r)).
Proof.
  unfold next_rule190_toroidal, range.
  rewrite for_each_assign by (rewrite length_replicate; lia).
  destruct (collect _ _); reflexivity.
Qed.

Lemma next_fixed0_collect (r : list Z) :
  next_rule190_fixed0 r = collect (fixed0_cell r) (seq 0 (length r)).
Proof.
  unfold next_rule190_fixed0, range.
  rewrite for_each_assign by (rewrite length_replicate; lia).
  destruct (collect _ _); reflexivity.
Qed.

Lemma collect_all_ok (cell : nat -> result Z) (g : nat -> Z) (idxs : list nat) :
  (forall i, In i idxs -> cell i = Ok (g i)) ->
  collect cell idxs = Ok (map g idxs).
Proof.
  induction idxs as [|i idxs IH]; intros H; simpl; [reflexivity|].
  rewrite (H i) by (left; reflexivity). simpl.
  rewrite IH by (intros; apply H; right; assumption). reflexivity.
Qed.

(** ** The rule table *)

Lemma rule190_lookup_bits (l c r : Z) :
  (l = 0 \/ l = 1) -> (c = 0 \/ c = 1) -> (r = 0 \/ r = 1) ->
  rule190_lookup (neighborhood_key l c r) = Ok (rule190_table l c r).
Proof.
  intros [-> | ->] [-> | ->] [-> | ->]; vm_compute; reflexivity.
Qed.

Lemma rule190_table_bit (l c r : Z) :
  rule190_table l c r = 0 \/ rule190_table l c r = 1.
Proof.
  unfold rule190_table.
  repeat match goal with
         | |- context [match ?x with _ => _ end] => destruct x
         end; auto.
Qed.

Lemma rule190_lookup_error (key : Z) (e : exn) :
  rule190_lookup key = Raise e -> e = KeyError.
Proof.
  unfold rule190_lookup. destruct (RULE190 !! key); [discriminate|].
  intros [= <-]. reflexivity.
Qed.

Lemma rule190_lookup_value (key v : Z) :
  rule190_lookup key = Ok v -> v = 0 \/ v = 1.
Proof.
  unfold rule190_lookup, RULE190. intros H.
  destruct (decide (key = 7)) as [->|]; [vm_compute in H; injection H; lia|].
  destruct (decide (key = 6)) as [->|]; [vm_compute in H; injection H; lia|].
  destruct (decide (key = 5)) as [->|]; [vm_compute in H; injection H; lia|].
  destruct (decide (key = 4)) as [->|]; [vm_compute in H; injection H; lia|].
  destruct (decide (key = 3)) as [->|]; [vm_compute in H; injection H; lia|].
  destruct (decide (key = 2)) as [->|]; [vm_compute in H; injection H; lia|].
  destruct (decide (key = 1)) as [->|]; [vm_compute in H; injection H; lia|].
  destruct (decide (key = 0)) as [->|]; [vm_compute in H; injection H; lia|].
  rewrite !lookup_insert_ne, lookup_empty in H by congruence. discriminate.
Qed.

(** ** The one-step update, cell by cell *)

Lemma getitem_cell_at (r : list Z) (j : Z) :
  0 <= j < Z.of_nat (length r) -> getitem r j = Ok (cell_at r j).
Proof.
  intros Hj.
  destruct (lookup_lt_is_Some_2 r (Z.to_nat j)) as [x Hx]; [lia|].
  rewrite (getitem_Z r j x) by (lia || assumption).
  rewrite <- (Z2Nat.id j) by lia.
  rewrite (cell_at_lookup r _ x Hx). reflexivity.
Qed.

Lemma toroidal_cell_key (r : list Z) (i : nat) :
  (i < length r)%nat ->
  toroidal_cell r i
  = rule190_lookup (neighborhood_key (neighbor Toroidal r i (-1))
                      (cell_at r (Z.of_nat i)) (neighbor Toroidal r i 1)).
Proof.
  intros Hi. unfold toroidal_cell, neighbor.
  assert (HW : 0 < Z.of_nat (length r)) by lia.
  pose proof (Z.mod_pos_bound (Z.of_nat i - 1) _ HW).
  pose proof (Z.mod_pos_bound (Z.of_nat i + 1) _ HW).
  rewrite !getitem_cell_at by lia. reflexivity.
Qed.

Lemma fixed0_cell_key (r : list Z) (i : nat) :
  (i < length r)%nat ->
  fixed0_cell r i
  = rule190_lookup (neighborhood_key (neighbor FixedZero r i (-1))
                      (cell_at r (Z.of_nat i)) (neighbor FixedZero r i 1)).
Proof.
  intros Hi. unfold fixed0_cell, neighbor.
  rewrite (getitem_cell_at r (Z.of_nat i)) by lia.
  destruct (Z.ltb_spec 0 (Z.of_nat i));
    destruct (Z.ltb_spec (Z.of_nat i) (Z.of_nat (length r) - 1));
    rewrite ?getitem_cell_at by lia; simpl;
    rewrite ?(cell_at_outside r (Z.of_nat i + -1)) by lia;
    rewrite ?(cell_at_outside r (Z.of_nat i + 1)) by lia;
    reflexivity.
Qed.

Lemma neighbor_bit (p : boundary) (r : list Z) (i : nat) (d : Z) :
  is_binary r = true -> neighbor p r i d = 0 \/ neighbor p r i d = 1.
Proof. intros Hb. destruct p; apply is_binary_cell_at, Hb. Qed.

(** The next row of a binary row, as a list. *)
Lemma step_with_binary (p : boundary) (r : list Z) :
  is_binary r = true ->
  step_with p r
  = Ok (map (fun i => rule190_table (neighbor p r i (-1))
                        (cell_at r (Z.of_nat i)) (neighbor p r i 1))
          (seq 0 (length r))).
Proof.
  intros Hb.
  destruct p; unfold step_with;
    [rewrite next_toroidal_collect | rewrite next_fixed0_collect];
    apply collect_all_ok; intros i Hi; apply in_seq in Hi;
    [rewrite toroidal_cell_key by lia | rewrite fixed0_cell_key by lia];
    (apply rule190_lookup_bits;
     [apply neighbor_bit | apply is_binary_cell_at | apply neighbor_bit];
     exact Hb).
Qed.

(** C1. For every binary row [r] of any length and each boundary policy, the
    one-step update succeeds and returns a row of the length of [r] whose
    cell [i] is the Rule-190 table value of (left, centre, right), the
    neighbours wrapping modulo the width under the toroidal policy and being
    0 outside the row under the fixed-zero policy; the empty row is mapped
    to the empty row. *)
Theorem step_is_rule190_table (p : boundary) (r : list Z) :
  is_binary r = true ->
  exists nxt : list Z,
    step_with p r = Ok nxt /\
    length nxt = length r /\
    (forall i : nat, (i < length r)%nat ->
       nxt !! i = Some (rule190_table (neighbor p r i (-1))
                          (cell_at r (Z.of_nat i)) (neighbor p r i 1))) /\
    (r = [] -> nxt = []).
Proof.
  intros Hb. eexists. split; [apply step_with_binary, Hb|].
  split; [rewrite length_map, length_seq; reflexivity|].
  split.
  - intros i Hi.
    change (map ?f ?l) with (f <$> l).
    rewrite list_lookup_fmap, lookup_seq_lt by assumption. reflexivity.
  - intros ->. reflexivity.
Qed.

Lemma step_is_rule190_table_witness :
  exists nxt : list Z,
    step_with FixedZero [1; 1; 0; 1] = Ok nxt /\
    length nxt = length [1; 1; 0; 1] /\
    (forall i : nat, (i < length [1; 1; 0; 1])%nat ->
       nxt !! i = Some (rule190_table (neighbor FixedZero [1; 1; 0; 1] i (-1))
                          (cell_at [1; 1; 0; 1] (Z.of_nat i))
                          (neighbor FixedZero [1; 1; 0; 1] i 1))) /\
    ([1; 1; 0; 1] = [] -> nxt = []).
Proof. apply (step_is_rule190_table FixedZero [1; 1; 0; 1]). reflexivity. Defined.

Example toroidal_seed5 :
  next_rule190_toroidal [0; 0; 1; 0; 0] = Ok [0; 1; 1; 1; 0].
Proof. vm_compute. reflexivity. Qed.

Example fixed0_edges :
  next_rule190_fixed0 [1; 1; 0; 1] = Ok [1; 0; 1; 1].
Proof. vm_compute. reflexivity. Qed.

(** ** Rotation of rows under the toroidal step *)

Lemma collect_app (cell : nat -> result Z) (l1 l2 : list nat) :
  collect cell (l1 ++ l2)
  = do a <- collect cell l1; do b <- collect cell l2; Ok (a ++ b).
Proof.
  induction l1 as [|i l1 IH]; simpl.
  - destruct (collect cell l2); reflexivity.
  - destruct (cell i) as [e|v]; simpl; [reflexivity|].
    rewrite IH. destruct (collect cell l1) as [e|a]; simpl; [reflexivity|].
    destruct (collect cell l2); reflexivity.
Qed.

Lemma collect_length (cell : nat -> result Z) (idxs : list nat) (vs : list Z) :
  collect cell idxs = Ok vs -> length vs = length idxs.
Proof.
  revert vs. induction idxs as [|i idxs IH]; simpl; intros vs.
  - intros [= <-]. reflexivity.
  - destruct (cell i) as [e|v]; simpl; [discriminate|].
    destruct (collect cell idxs) as [e|ws]; simpl; [discriminate|].
    intros [= <-]. simpl. f_equal. apply IH. reflexivity.
Qed.

Lemma collect_error (cell : nat -> result Z) (idxs : list nat) (e0 e : exn) :
  (forall i e', In i idxs -> cell i = Raise e' -> e' = e0) ->
  collect cell idxs = Raise e -> e = e0.
Proof.
  induction idxs as [|i idxs IH]; simpl; intros Hu; [discriminate|].
  destruct (cell i) as [e1|v] eqn:Ei; simpl.
  - intros [= <-]. apply (Hu i); [left; reflexivity | exact Ei].
  - destruct (collect cell idxs) as [e2|ws]; simpl; [|discriminate].
    intros [= <-]. apply IH; [|reflexivity].
    intros j e' Hj. apply Hu. right. exact Hj.
Qed.

Lemma collect_ext (cell1 cell2 : nat -> result Z) (sigma : nat -> nat)
  (idxs : list nat) :
  (forall i, In i idxs -> cell1 i = cell2 (sigma i)) ->
  collect cell1 idxs = collect cell2 (map sigma idxs).
Proof.
  induction idxs as [|i idxs IH]; simpl; intros H; [reflexivity|].
  rewrite (H i) by (left; reflexivity).
  rewrite IH by (intros; apply H; right; assumption). reflexivity.
Qed.

Lemma toroidal_cell_error (r : list Z) (i : nat) (e : exn) :
  (i < length r)%nat -> toroidal_cell r i = Raise e -> e = KeyError.
Proof.
  intros Hi. rewrite toroidal_cell_key by assumption.
  apply rule190_lookup_error.
Qed.

Lemma length_rotate_row (k : Z) (r : list Z) :
  length (rotate_row k r) = length r.
Proof. apply length_rotate. Qed.

Lemma rotate_row_nil (k : Z) : rotate_row k [] = [].
Proof. unfold rotate_row, rotate. rewrite drop_nil, take_nil. reflexivity. Qed.

Lemma cell_at_rotate_row (k : Z) (r : list Z) (j : Z) :
  0 <= j < Z.of_nat (length r) ->
  cell_at (rotate_row k r) j = cell_at r ((j + k) mod Z.of_nat (length r)).
Proof.
  intros Hj.
  assert (HW : 0 < Z.of_nat (length r)) by lia.
  pose proof (Z.mod_pos_bound (j + k) _ HW) as Hb.
  pose proof (Z.mod_pos_bound k _ HW) as Hk.
  destruct (lookup_lt_is_Some_2 r (Z.to_nat ((j + k) mod Z.of_nat (length r))))
    as [x Hx]; [lia|].
  rewrite <- (Z2Nat.id ((j + k) mod _)) by lia.
  rewrite (cell_at_lookup r _ x Hx).
  rewrite <- (Z2Nat.id j) by lia.
  apply cell_at_lookup.
  unfold rotate_row. rewrite lookup_rotate_r by lia.
  unfold rotate_nat_add. rewrite <- Hx. f_equal. f_equal.
  rewrite !Z2Nat.id by lia.
  rewrite Zplus_mod_idemp_l. f_equal. lia.
Qed.

Lemma toroidal_cell_rotate_row (k : Z) (r : list Z) (i : nat) :
  (i < length r)%nat ->
  toroidal_cell (rotate_row k r) i
  = toroidal_cell r (rotate_nat_add (Z.to_nat (k mod Z.of_nat (length r))) i
                       (length r)).
Proof.
  intros Hi.
  assert (HW : 0 < Z.of_nat (length r)) by lia.
  set (W := Z.of_nat (length r)) in *.
  pose proof (Z.mod_pos_bound k _ HW) as Hk.
  assert (Hs : Z.of_nat (rotate_nat_add (Z.to_nat (k mod W)) i (length r))
               = (Z.of_nat i + k) mod W).
  { unfold rotate_nat_add. fold W.
    pose proof (Z.mod_pos_bound (Z.of_nat (Z.to_nat (k mod W)) + Z.of_nat i)
                  _ HW).
    rewrite !Z2Nat.id by lia.
    rewrite Zplus_mod_idemp_l. f_equal. lia. }
  pose proof (Z.mod_pos_bound (Z.of_nat i + k) _ HW) as Hb.
  rewrite !toroidal_cell_key
    by (rewrite ?length_rotate_row; fold W; lia).
  unfold neighbor. rewrite length_rotate_row. fold W. rewrite Hs.
  pose proof (Z.mod_pos_bound (Z.of_nat i + -1) _ HW).
  pose proof (Z.mod_pos_bound (Z.of_nat i + 1) _ HW).
  rewrite !cell_at_rotate_row by (fold W; lia). fold W.
  rewrite !Zplus_mod_idemp_l.
  replace (Z.of_nat i + -1 + k) with (Z.of_nat i + k + -1) by lia.
  replace (Z.of_nat i + 1 + k) with (Z.of_nat i + k + 1) by lia.
  reflexivity.
Qed.

Lemma rotate_seq (m W : nat) :
  rotate m (seq 0 W) = map (fun i => rotate_nat_add m i W) (seq 0 W).
Proof.
  apply list_eq. intros i.
  change (map ?f ?l) with (f <$> l). rewrite list_lookup_fmap.
  destruct (decide (i < W)%nat) as [Hi|Hi].
  - rewrite lookup_rotate_r by (rewrite length_seq; exact Hi).
    rewrite length_seq.
    rewrite lookup_seq_lt by (apply rotate_nat_add_lt; lia).
    rewrite lookup_seq_lt by exact Hi. reflexivity.
  - rewrite !lookup_ge_None_2;
      rewrite ?length_rotate, ?length_seq; try lia. reflexivity.
Qed.

Lemma collect_rotate (cell : nat -> result Z) (m : nat) (idxs : list nat) :
  (forall i e, In i idxs -> cell i = Raise e -> e = KeyError) ->
  collect cell (rotate m idxs) = on_ok (rotate m) (collect cell idxs).
Proof.
  intros Hu.
  destruct (decide (idxs = [])) as [->|Hne].
  { unfold on_ok, rotate. rewrite drop_nil, take_nil. simpl.
    rewrite drop_nil, take_nil. reflexivity. }
  unfold rotate at 1.
  set (n := (m mod length idxs)%nat).
  rewrite <- (take_drop n idxs) at 3.
  rewrite !collect_app.
  assert (Hut : forall i e, In i (take n idxs) -> cell i = Raise e -> e = KeyError).
  { intros i e Hi. apply Hu. rewrite <- (take_drop n idxs).
    apply in_or_app. left. exact Hi. }
  assert (Hud : forall i e, In i (drop n idxs) -> cell i = Raise e -> e = KeyError).
  { intros i e Hi. apply Hu. rewrite <- (take_drop n idxs).
    apply in_or_app. right. exact Hi. }
  destruct (collect cell (take n idxs)) as [e1|a] eqn:Ea;
    destruct (collect cell (drop n idxs)) as [e2|b] eqn:Eb; simpl.
  - rewrite (collect_error _ _ _ _ Hut Ea), (collect_error _ _ _ _ Hud Eb).
    reflexivity.
  - rewrite (collect_error _ _ _ _ Hut Ea). reflexivity.
  - rewrite (collect_error _ _ _ _ Hud Eb). reflexivity.
  - do 2 f_equal.
    apply collect_length in Ea. apply collect_length in Eb.
    unfold rotate. rewrite length_app, Ea, Eb, <- length_app, take_drop.
    fold n.
    assert (Hn : (n <= length idxs)%nat).
    { subst n. destruct idxs; [congruence|].
      apply Nat.lt_le_incl, Nat.mod_upper_bound. discriminate. }
    rewrite length_take in Ea.
    rewrite drop_app_length' by lia.
    rewrite take_app_length' by lia. reflexivity.
Qed.

Lemma cell_at_agree (r1 r2 : list Z) (n : nat) :
  length r1 = length r2 -> r1 !! n = r2 !! n ->
  cell_at r1 (Z.of_nat n) = cell_at r2 (Z.of_nat n).
Proof.
  intros Hlen Hn. destruct (r1 !! n) as [x|] eqn:E1.
  - rewrite (cell_at_lookup r1 n x E1). symmetry.
    apply cell_at_lookup. symmetry. exact Hn.
  - apply lookup_ge_None_1 in E1.
    rewrite !cell_at_outside by lia. reflexivity.
Qed.

Lemma collect_head (cell : nat -> result Z) (W : nat) (vs : list Z) :
  (1 <= W)%nat -> collect cell (seq 0 W) = Ok vs ->
  exists v, cell 0%nat = Ok v /\ vs !! 0%nat = Some v.
Proof.
  intros HW. destruct W as [|W]; [lia|]. simpl.
  destruct (cell 0%nat) as [e|v]; simpl; [discriminate|].
  destruct (collect cell (seq 1 W)) as [e|ws]; simpl; [discriminate|].
  intros [= <-]. exists v. split; reflexivity.
Qed.

(** C8. The toroidal step is translation-equivariant: the step of a row
    rotated by any integer [k] is the rotation by [k] of the step of the row
    (an error of the one is the same error of the other); and cell 0 of the
    next row depends only on cells [W-1], [0] and [1] of the row: two rows
    of one width that agree on these three cells have the same next cell 0. *)
Theorem toroidal_step_equivariant :
  (forall (r : list Z) (k : Z),
     next_rule190_toroidal (rotate_row k r)
     = on_ok (rotate_row k) (next_rule190_toroidal r)) /\
  (forall r1 r2 n1 n2 : list Z,
     length r1 = length r2 -> (1 <= length r1)%nat ->
     r1 !! (length r1 - 1)%nat = r2 !! (length r1 - 1)%nat ->
     r1 !! 0%nat = r2 !! 0%nat ->
     r1 !! 1%nat = r2 !! 1%nat ->
     next_rule190_toroidal r1 = Ok n1 ->
     next_rule190_toroidal r2 = Ok n2 ->
     n1 !! 0%nat = n2 !! 0%nat).
Proof.
  split.
  - intros r k. destruct (decide (length r = 0%nat)) as [H0|H0].
    + apply length_zero_iff_nil in H0. subst r.
      rewrite rotate_row_nil. unfold on_ok. simpl.
      rewrite rotate_row_nil. reflexivity.
    + rewrite !next_toroidal_collect, length_rotate_row.
      rewrite (collect_ext _ (toroidal_cell r)
                 (fun i => rotate_nat_add
                             (Z.to_nat (k mod Z.of_nat (length r))) i (length r))).
      2:{ intros i Hi. apply in_seq in Hi.
          apply toroidal_cell_rotate_row. lia. }
      rewrite <- rotate_seq.
      rewrite collect_rotate.
      2:{ intros i e Hi. apply in_seq in Hi.
          apply toroidal_cell_error. lia. }
      destruct (collect (toroidal_cell r) (seq 0 (length r))) as [e|vs] eqn:E;
        simpl; [reflexivity|].
      apply collect_length in E. rewrite length_seq in E.
      unfold rotate_row. rewrite E. reflexivity.
  - intros r1 r2 n1 n2 Hlen HW Hl Hc Hr H1 H2.
    rewrite next_toroidal_collect in H1, H2.
    destruct (collect_head _ _ _ HW H1) as (v1 & Hv1 & ->).
    rewrite <- Hlen in H2.
    destruct (collect_head _ _ _ HW H2) as (v2 & Hv2 & ->).
    f_equal.
    rewrite toroidal_cell_key in Hv1, Hv2 by lia.
    assert (E : forall d : Z,
               d = -1 \/ d = 1 ->
               neighbor Toroidal r1 0 d = neighbor Toroidal r2 0 d).
    { intros d Hd. unfold neighbor. rewrite <- Hlen.
      assert (Hm : exists n : nat,
                 (n = length r1 - 1 \/ n = 0 \/ n = 1)%nat /\
                 (Z.of_nat 0 + d) mod Z.of_nat (length r1) = Z.of_nat n).
      { destruct Hd as [-> | ->].
        - exists (length r1 - 1)%nat. split; [auto|].
          change (Z.of_nat 0 + -1) with (-1).
          rewrite <- (Z_mod_plus_full (-1) 1 (Z.of_nat (length r1))).
          rewrite Z.mod_small by lia. lia.
        - destruct (decide (length r1 = 1%nat)) as [E1|E1].
          + exists 0%nat. split; [auto|]. rewrite E1. reflexivity.
          + exists 1%nat. split; [auto|].
            rewrite Z.mod_small by lia. reflexivity. }
      destruct Hm as (n & Hn & ->).
      apply cell_at_agree; [exact Hlen|].
      destruct Hn as [-> | [-> | ->]]; assumption. }
    rewrite (E (-1)), (E 1) in Hv1 by auto.
    rewrite (cell_at_agree r1 r2 0 Hlen Hc) in Hv1.
    rewrite Hv1 in Hv2. injection Hv2 as ->. reflexivity.
Qed.

Lemma toroidal_step_equivariant_witness :
  next_rule190_toroidal (rotate_row (-2) [0; 0; 1; 0; 0])
  = on_ok (rotate_row (-2)) (next_rule190_toroidal [0; 0; 1; 0; 0]) /\
  [1; 1; 1; 1; 1] !! 0%nat = [1; 1; 1; 1; 0] !! 0%nat.
Proof.
  split.
  - apply (proj1 toroidal_step_equivariant).
  - apply (proj2 toroidal_step_equivariant [0; 1; 0; 0; 1] [0; 1; 1; 1; 1]);
      reflexivity || (simpl; lia).
Defined.

(** ** Validation math: the closed form *)

Lemma a_closed_0 : a_closed 0 = 1.
Proof. reflexivity. Qed.

Lemma a_closed_1 : a_closed 1 = 7.
Proof. reflexivity. Qed.

Lemma a_closed_2 : a_closed 2 = 29.
Proof. reflexivity. Qed.

Lemma a_window_shift (t : nat) :
  a_window t = (a_closed t, a_closed (S t), a_closed (S (S t))).
Proof.
  unfold a_closed. simpl.
  destruct (a_window t) as [[x y] z]. reflexivity.
Qed.

Lemma a_closed_rec (t : nat) :
  a_closed (S (S (S t)))
  = 4 * a_closed (S (S t)) + a_closed (S t) - 4 * a_closed t.
Proof.
  unfold a_closed. simpl.
  destruct (a_window t) as [[x y] z]. reflexivity.
Qed.

Lemma pat_period (o : Z) : pat (o + 4) = pat o.
Proof.
  unfold pat. replace (o + 4) with (o + 1 * 4) by lia.
  rewrite Z_mod_plus_full. reflexivity.
Qed.

Lemma pat_even (o : Z) : pat (2 * o) = 1.
Proof.
  unfold pat. destruct (Z.eqb_spec ((2 * o) mod 4) 3) as [E|E]; [|reflexivity].
  pose proof (Z.div_mod (2 * o) 4). lia.
Qed.

Lemma pat_value_step (t : nat) :
  pat_value (2 * S t + 1) - 4 * pat_value (2 * t + 1)
  = 2 * pat (2 * Z.of_nat t + 1) + 1.
Proof.
  replace (2 * S t + 1)%nat with (S (S (2 * t + 1))) by lia.
  cbn [pat_value].
  replace (Z.of_nat (S (2 * t + 1))) with (2 * (Z.of_nat t + 1)) by lia.
  rewrite pat_even.
  replace (Z.of_nat (2 * t + 1)) with (2 * Z.of_nat t + 1) by lia.
  lia.
Qed.

Lemma pat_value_rec (t : nat) :
  pat_value (2 * S (S (S t)) + 1)
  = 4 * pat_value (2 * S (S t) + 1) + pat_value (2 * S t + 1)
    - 4 * pat_value (2 * t + 1).
Proof.
  pose proof (pat_value_step (S (S t))) as H2.
  pose proof (pat_value_step t) as H0.
  replace (2 * Z.of_nat (S (S t)) + 1) with (2 * Z.of_nat t + 1 + 4) in H2
    by lia.
  rewrite pat_period in H2. lia.
Qed.

(** The closed form is the value of the first [2 t + 1] pattern cells. *)
Lemma a_window_pat_value (t : nat) :
  a_window t
  = (pat_value (2 * t + 1), pat_value (2 * S t + 1),
     pat_value (2 * S (S t) + 1)).
Proof.
  induction t as [|t IH]; [reflexivity|].
  cbn [a_window]. rewrite IH. rewrite (pat_value_rec t). reflexivity.
Qed.

Lemma a_closed_pat_value (t : nat) : a_closed t = pat_value (2 * t + 1).
Proof. unfold a_closed. rewrite a_window_pat_value. reflexivity. Qed.

(** ** Validation math: the light cone of a single 1 *)

Lemma pat_cases (o : Z) :
  (o mod 4 = 0 /\ pat (o - 1) = 0 /\ pat o = 1 /\ pat (o + 1) = 1) \/
  (o mod 4 = 1 /\ pat (o - 1) = 1 /\ pat o = 1 /\ pat (o + 1) = 1) \/
  (o mod 4 = 2 /\ pat (o - 1) = 1 /\ pat o = 1 /\ pat (o + 1) = 0) \/
  (o mod 4 = 3 /\ pat (o - 1) = 1 /\ pat o = 0 /\ pat (o + 1) = 1).
Proof.
  assert (Hm : forall d r, o mod 4 = r -> (o + d) mod 4 = (r + d) mod 4).
  { intros d r <-. rewrite Zplus_mod_idemp_l. reflexivity. }
  pose proof (Z.mod_pos_bound o 4 ltac:(lia)) as Hb.
  unfold pat. replace (o - 1) with (o + -1) by lia.
  assert (Hc : o mod 4 = 0 \/ o mod 4 = 1 \/ o mod 4 = 2 \/ o mod 4 = 3) by lia.
  destruct Hc as [E | [E | [E | E]]];
    rewrite (Hm (-1) _ E), (Hm 1 _ E), E; cbn; tauto.
Qed.

Lemma cone_step_cell (c t j : Z) :
  0 <= t ->
  rule190_table (cone_cell c t (j - 1)) (cone_cell c t j) (cone_cell c t (j + 1))
  = cone_cell c (t + 1) j.
Proof.
  intros Ht. unfold cone_cell.
  replace (j - 1 - (c - t)) with (j - (c - t) - 1) by lia.
  replace (j + 1 - (c - t)) with (j - (c - t) + 1) by lia.
  replace (j - (c - (t + 1))) with (j - (c - t) + 1) by lia.
  destruct (pat_cases (j - (c - t))) as [H | [H | [H | H]]];
    destruct H as (Hr & -> & -> & ->);
    repeat match goal with
           | |- context [Z.leb ?a ?b] => destruct (Z.leb_spec a b)
           end; cbn [andb rule190_table]; try reflexivity;
    exfalso; Z.div_mod_to_equations; lia.
Qed.

Lemma cone_cell_bit (c t j : Z) : cone_cell c t j = 0 \/ cone_cell c t j = 1.
Proof.
  unfold cone_cell, pat. destruct (_ && _); [|auto].
  destruct (_ =? _); auto.
Qed.

(** The rows of a run seeded at column [c] of a row of width [W]. *)
Section LightCone.

Variables W c : nat.

Lemma length_cone_row (t : nat) : length (cone_row W c t) = W.
Proof. unfold cone_row. rewrite length_map, length_seq. reflexivity. Qed.

Lemma cone_row_lookup (t j : nat) :
  (j < W)%nat ->
  cone_row W c t !! j
  = Some (cone_cell (Z.of_nat c) (Z.of_nat t) (Z.of_nat j)).
Proof.
  intros Hj. unfold cone_row. change (map ?f ?l) with (f <$> l).
  rewrite list_lookup_fmap, lookup_seq_lt by exact Hj. reflexivity.
Qed.

Lemma cone_row_cell_at (t : nat) (j : Z) :
  (t <= c)%nat -> (c + t < W)%nat ->
  cell_at (cone_row W c t) j = cone_cell (Z.of_nat c) (Z.of_nat t) j.
Proof.
  intros Hl Hr.
  destruct (Z_lt_le_dec j 0) as [Hj|Hj];
    [|destruct (Z_lt_le_dec j (Z.of_nat W)) as [Hj'|Hj']].
  - rewrite cell_at_outside by lia. unfold cone_cell.
    destruct (Z.leb_spec (Z.of_nat c - Z.of_nat t) j); [lia|reflexivity].
  - rewrite <- (Z2Nat.id j) by lia.
    apply cell_at_lookup, cone_row_lookup. lia.
  - rewrite cell_at_outside by (rewrite length_cone_row; lia).
    unfold cone_cell.
    destruct (Z.leb_spec j (Z.of_nat c + Z.of_nat t)); [lia|].
    rewrite andb_false_r. reflexivity.
Qed.

Lemma cone_row_binary (t : nat) : is_binary (cone_row W c t) = true.
Proof.
  unfold is_binary, cone_row. apply forallb_forall. intros x Hx.
  apply in_map_iff in Hx as (j & <- & _). unfold is_bit.
  destruct (cone_cell_bit (Z.of_nat c) (Z.of_nat t) (Z.of_nat j)) as [-> | ->];
    reflexivity.
Qed.

Lemma cone_row_step (t : nat) :
  (S t <= c)%nat -> (c + S t < W)%nat ->
  next_rule190_fixed0 (cone_row W c t) = Ok (cone_row W c (S t)).
Proof.
  intros Hl Hr.
  change (next_rule190_fixed0 (cone_row W c t))
    with (step_with FixedZero (cone_row W c t)).
  rewrite step_with_binary by apply cone_row_binary.
  rewrite length_cone_row. f_equal.
  unfold cone_row at 4. apply map_ext. intros j.
  unfold neighbor. rewrite !cone_row_cell_at by lia.
  replace (Z.of_nat j + -1) with (Z.of_nat j - 1) by lia.
  rewrite cone_step_cell by lia. f_equal. lia.
Qed.

Lemma single_one_row_cone :
  (c < W)%nat -> single_one_row W c = cone_row W c 0.
Proof.
  intros Hc. apply list_eq. intros j. unfold single_one_row.
  destruct (decide (j < W)%nat) as [Hj|Hj].
  - rewrite cone_row_lookup by exact Hj. unfold cone_cell.
    destruct (decide (c = j)) as [->|Hne].
    + rewrite list_lookup_insert_eq by (rewrite length_replicate; lia).
      destruct (Z.leb_spec (Z.of_nat j - Z.of_nat 0) (Z.of_nat j)); [|lia].
      destruct (Z.leb_spec (Z.of_nat j) (Z.of_nat j + Z.of_nat 0)); [|lia].
      cbn [andb].
      replace (Z.of_nat j - (Z.of_nat j - Z.of_nat 0)) with 0 by lia.
      reflexivity.
    + rewrite list_lookup_insert_ne by exact Hne.
      rewrite lookup_replicate_2 by exact Hj.
      destruct (Z.leb_spec (Z.of_nat c - Z.of_nat 0) (Z.of_nat j));
        destruct (Z.leb_spec (Z.of_nat j) (Z.of_nat c + Z.of_nat 0));
        simpl; try reflexivity; lia.
  - rewrite !lookup_ge_None_2;
      rewrite ?length_insert, ?length_replicate, ?length_cone_row; try lia.
    reflexivity.
Qed.

Lemma steps_fixed0_cone :
  forall t s : nat,
    (s + t <= c)%nat -> (c + s + t < W)%nat ->
    steps_fixed0 t (cone_row W c s) = Ok (cone_row W c (s + t)).
Proof.
  induction t as [|t IH]; intros s Hl Hr; simpl.
  - rewrite Nat.add_0_r. reflexivity.
  - rewrite cone_row_step by lia. simpl.
    rewrite IH by lia. do 2 f_equal. lia.
Qed.

End LightCone.

(** ** Validation math: the anchored encoding *)

Lemma lor_shiftl_add (x bit : Z) :
  0 <= bit -> 0 <= x < 2 ^ bit -> Z.lor x (Z.shiftl 1 bit) = x + 2 ^ bit.
Proof.
  intros Hb Hx. rewrite Z.shiftl_1_l.
  assert (Hl : Z.land x (2 ^ bit) = 0).
  { apply Z.bits_inj'. intros n Hn.
    rewrite Z.land_spec, Z.bits_0, Z.pow2_bits_eqb by lia.
    destruct (Z.eqb_spec bit n) as [<-|Hne]; [|apply andb_false_r].
    rewrite <- (Z.mod_small x (2 ^ bit)) by lia.
    rewrite Z.mod_pow2_bits_high by lia. reflexivity. }
  rewrite (Z.add_nocarry_lxor _ _ Hl). symmetry. apply Z.lxor_lor, Hl.
Qed.

Lemma getitem_nth (r : list Z) (k : nat) :
  (k < length r)%nat -> getitem r (Z.of_nat k) = Ok (nth k r 0).
Proof.
  intros Hk. destruct (lookup_lt_is_Some_2 r k Hk) as [x Hx].
  rewrite (getitem_lookup r k x Hx).
  rewrite (nth_lookup_Some _ _ 0 _ Hx). reflexivity.
Qed.

Lemma rev_seq_S (n : nat) : rev (seq 0 (S n)) = n :: rev (seq 0 n).
Proof. rewrite seq_S, rev_unit. reflexivity. Qed.

Lemma find_rightmost_spec (r : list Z) (idx : nat) :
  forall n : nat,
    (idx < n <= length r)%nat ->
    truthy (nth idx r 0) = true ->
    (forall k, (idx < k < n)%nat -> nth k r 0 = 0) ->
    find_rightmost r (rev (seq 0 n)) = Ok (Z.of_nat idx).
Proof.
  induction n as [|n IH]; intros Hn Ht Hz; [lia|].
  rewrite rev_seq_S. cbn [find_rightmost].
  rewrite getitem_nth by lia. simpl.
  destruct (decide (idx = n)) as [->|Hne].
  - rewrite Ht. reflexivity.
  - rewrite (Hz n) by lia. simpl. apply IH; [lia|exact Ht|].
    intros k Hk. apply Hz. lia.
Qed.

Lemma find_rightmost_none (r : list Z) :
  forall n : nat,
    (n <= length r)%nat ->
    (forall k, (k < n)%nat -> nth k r 0 = 0) ->
    find_rightmost r (rev (seq 0 n)) = Ok (-1).
Proof.
  induction n as [|n IH]; intros Hn Hz; [reflexivity|].
  rewrite rev_seq_S. cbn [find_rightmost].
  rewrite getitem_nth by lia. simpl.
  rewrite (Hz n) by lia. simpl. apply IH; [lia|].
  intros k Hk. apply Hz. lia.
Qed.

Lemma bit_of_range (c : Z) : 0 <= bit_of c <= 1.
Proof. unfold bit_of. destruct (truthy c); lia. Qed.

Lemma pack_loop (r : list Z) :
  forall (m : nat) (x bit : Z),
    (m <= length r)%nat -> 0 <= bit -> 0 <= x < 2 ^ bit ->
    for_each (pack_bit r) (rev (seq 0 m)) (x, bit)
    = Ok (x + 2 ^ bit * prefix_value r m, bit + Z.of_nat m).
Proof.
  induction m as [|m IH]; intros x bit Hm Hb Hx.
  - simpl. do 2 f_equal; lia.
  - rewrite rev_seq_S. cbn [for_each]. unfold pack_bit at 1.
    rewrite getitem_nth by lia. cbn [bind].
    assert (Hp : 2 ^ (bit + 1) = 2 * 2 ^ bit).
    { rewrite Z.pow_add_r by lia. lia. }
    assert (Hx' : (if truthy (nth m r 0) then Z.lor x (Z.shiftl 1 bit) else x)
                  = x + 2 ^ bit * bit_of (nth m r 0)).
    { unfold bit_of. destruct (truthy (nth m r 0)).
      - rewrite lor_shiftl_add by lia. lia.
      - lia. }
    rewrite Hx'. pose proof (bit_of_range (nth m r 0)) as Hr.
    rewrite IH by nia.
    do 2 f_equal; [|lia].
    cbn [prefix_value]. rewrite Hp. ring.
Qed.

(** The anchored encoding of a row whose rightmost set cell is [idx]. *)
Lemma row_to_int_prefix_value (r : list Z) (idx : nat) :
  (idx < length r)%nat ->
  truthy (nth idx r 0) = true ->
  (forall k, (idx < k < length r)%nat -> nth k r 0 = 0) ->
  row_to_int_anchor_rightmost r = Ok (prefix_value r (S idx)).
Proof.
  intros Hi Ht Hz. unfold row_to_int_anchor_rightmost, range_desc.
  replace (Z.to_nat (Z.of_nat (length r) - 1 + 1)) with (length r) by lia.
  rewrite (find_rightmost_spec r idx) by (lia || assumption). cbn [bind].
  destruct (Z.eqb_spec (Z.of_nat idx) (-1)) as [?|_]; [lia|].
  replace (Z.to_nat (Z.of_nat idx + 1)) with (S idx) by lia.
  rewrite pack_loop by (simpl; lia). cbn [bind fst].
  f_equal. lia.
Qed.

Lemma row_to_int_zero (r : list Z) :
  (forall k, (k < length r)%nat -> nth k r 0 = 0) ->
  row_to_int_anchor_rightmost r = Ok 0.
Proof.
  intros Hz. unfold row_to_int_anchor_rightmost, range_desc.
  replace (Z.to_nat (Z.of_nat (length r) - 1 + 1)) with (length r) by lia.
  rewrite find_rightmost_none by (lia || assumption). reflexivity.
Qed.

Lemma cone_row_nth (W c t j : nat) :
  (j < W)%nat ->
  nth j (cone_row W c t) 0 = cone_cell (Z.of_nat c) (Z.of_nat t) (Z.of_nat j).
Proof.
  intros Hj. apply nth_lookup_Some, cone_row_lookup, Hj.
Qed.

Lemma prefix_value_zeros (r : list Z) (m : nat) :
  (forall k, (k < m)%nat -> nth k r 0 = 0) -> prefix_value r m = 0.
Proof.
  induction m as [|m IH]; intros Hz; [reflexivity|].
  cbn [prefix_value]. rewrite IH by (intros; apply Hz; lia).
  rewrite (Hz m) by lia. reflexivity.
Qed.

Lemma cone_row_prefix_value (W c t : nat) :
  (t <= c)%nat -> (c + t < W)%nat ->
  forall o : nat,
    (o <= 2 * t + 1)%nat ->
    prefix_value (cone_row W c t) (c - t + o) = pat_value o.
Proof.
  intros Hl Hr. induction o as [|o IH]; intros Ho.
  - rewrite Nat.add_0_r. apply prefix_value_zeros.
    intros k Hk. rewrite cone_row_nth by lia. unfold cone_cell.
    destruct (Z.leb_spec (Z.of_nat c - Z.of_nat t) (Z.of_nat k)); [lia|].
    reflexivity.
  - replace (c - t + S o)%nat with (S (c - t + o)) by lia.
    cbn [prefix_value pat_value]. rewrite IH by lia.
    rewrite cone_row_nth by lia. unfold cone_cell.
    destruct (Z.leb_spec (Z.of_nat c - Z.of_nat t) (Z.of_nat (c - t + o)));
      [|lia].
    destruct (Z.leb_spec (Z.of_nat (c - t + o)) (Z.of_nat c + Z.of_nat t));
      [|lia].
    cbn [andb].
    replace (Z.of_nat (c - t + o) - (Z.of_nat c - Z.of_nat t))
      with (Z.of_nat o) by lia.
    unfold bit_of, truthy, pat. destruct (_ =? 3); reflexivity.
Qed.

(** The anchored encoding of the row at time [t] is the closed form. *)
Lemma row_to_int_cone_row (W c t : nat) :
  (t <= c)%nat -> (c + t < W)%nat ->
  row_to_int_anchor_rightmost (cone_row W c t) = Ok (a_closed t).
Proof.
  intros Hl Hr.
  rewrite (row_to_int_prefix_value _ (c + t)).
  - replace (S (c + t)) with (c - t + (2 * t + 1))%nat by lia.
    rewrite cone_row_prefix_value by lia.
    rewrite a_closed_pat_value. reflexivity.
  - rewrite length_cone_row. exact Hr.
  - rewrite cone_row_nth by lia. unfold cone_cell.
    destruct (Z.leb_spec (Z.of_nat c - Z.of_nat t) (Z.of_nat (c + t))); [|lia].
    destruct (Z.leb_spec (Z.of_nat (c + t)) (Z.of_nat c + Z.of_nat t)); [|lia].
    cbn [andb].
    replace (Z.of_nat (c + t) - (Z.of_nat c - Z.of_nat t))
      with (2 * Z.of_nat t) by lia.
    rewrite pat_even. reflexivity.
  - rewrite length_cone_row. intros k Hk.
    rewrite cone_row_nth by lia. unfold cone_cell.
    destruct (Z.leb_spec (Z.of_nat k) (Z.of_nat c + Z.of_nat t)); [lia|].
    rewrite andb_false_r. reflexivity.
Qed.

(** ** Validation math: the sequence function *)

Lemma getitem_from_end {A : Type} (l : list A) (d : nat) (x : A) :
  (1 <= d <= length l)%nat ->
  l !! (length l - d)%nat = Some x ->
  getitem l (- Z.of_nat d) = Ok x.
Proof.
  intros Hd Hx. unfold getitem.
  destruct (Z.ltb_spec (- Z.of_nat d) 0) as [_|?]; [|lia].
  destruct (Z.leb_spec 0 (- Z.of_nat d + Z.of_nat (length l))) as [_|?]; [|lia].
  destruct (Z.ltb_spec (- Z.of_nat d + Z.of_nat (length l))
              (Z.of_nat (length l))) as [_|?]; [|lia].
  cbn [andb].
  replace (Z.to_nat (- Z.of_nat d + Z.of_nat (length l)))
    with (length l - d)%nat by lia.
  rewrite Hx. reflexivity.
Qed.

Lemma a_closed_seq_lookup (m i : nat) :
  (i < m)%nat -> map a_closed (seq 0 m) !! i = Some (a_closed i).
Proof.
  intros Hi. change (map ?f ?l) with (f <$> l).
  rewrite list_lookup_fmap, lookup_seq_lt by exact Hi. reflexivity.
Qed.

Lemma append_term_spec (m x : nat) :
  (3 <= m)%nat ->
  append_term (map a_closed (seq 0 m)) x = Ok (map a_closed (seq 0 (S m))).
Proof.
  intros Hm. unfold append_term.
  assert (Hlen : length (map a_closed (seq 0 m)) = m)
    by (rewrite length_map, length_seq; reflexivity).
  rewrite (getitem_from_end _ 1 (a_closed (m - 1)))
    by (rewrite Hlen; first [lia | apply a_closed_seq_lookup; lia]).
  rewrite (getitem_from_end _ 2 (a_closed (m - 2)))
    by (rewrite Hlen; first [lia | apply a_closed_seq_lookup; lia]).
  rewrite (getitem_from_end _ 3 (a_closed (m - 3)))
    by (rewrite Hlen; first [lia | apply a_closed_seq_lookup; lia]).
  cbn [bind]. f_equal.
  rewrite seq_S, map_app. cbn [map]. do 2 f_equal.
  replace (0 + m)%nat with (S (S (S (m - 3)))) by lia.
  rewrite a_closed_rec.
  replace (m - 1)%nat with (S (S (m - 3))) by lia.
  replace (m - 2)%nat with (S (m - 3)) by lia.
  reflexivity.
Qed.

Lemma append_loop (k : nat) :
  forall m : nat,
    (3 <= m)%nat ->
    for_each append_term (seq m k) (map a_closed (seq 0 m))
    = Ok (map a_closed (seq 0 (m + k))).
Proof.
  induction k as [|k IH]; intros m Hm.
  - rewrite Nat.add_0_r. reflexivity.
  - cbn [seq for_each]. rewrite append_term_spec by exact Hm. cbn [bind].
    rewrite IH by lia. do 3 f_equal. lia.
Qed.

(** The sequence function returns the first [n] terms of the closed form. *)
Lemma rule190_single_one_sequence_spec (n : nat) :
  rule190_single_one_sequence (Z.of_nat n) = Ok (map a_closed (seq 0 n)).
Proof.
  unfold rule190_single_one_sequence.
  destruct (Z.leb_spec (Z.of_nat n) 0).
  { replace n with 0%nat by lia. reflexivity. }
  destruct (Z.eqb_spec (Z.of_nat n) 1).
  { replace n with 1%nat by lia. reflexivity. }
  destruct (Z.eqb_spec (Z.of_nat n) 2).
  { replace n with 2%nat by lia. reflexivity. }
  replace (Z.to_nat (Z.of_nat n - 3)) with (n - 3)%nat by lia.
  change [1; 7; 29] with (map a_closed (seq 0 3)).
  rewrite append_loop by lia. cbn [bind]. f_equal.
  replace (3 + (n - 3))%nat with n by lia.
  rewrite Nat2Z.id. apply firstn_all2.
  rewrite length_map, length_seq. lia.
Qed.

(** C2. For every [n >= 1] and every width [W >= 1 + 2 n], seed a row of
    width [W] with a single 1 at the centre [W / 2] and step it with the
    fixed-zero update: for every [t < n] the [t] steps succeed, and the
    anchored encoding of the row they reach is term [t] of the closed-form
    sequence a(0)=1, a(1)=7, a(2)=29, a(t)=4a(t-1)+a(t-2)-4a(t-3), which is
    also entry [t] of the list [rule190_single_one_sequence n] returns. *)
Theorem single_one_matches_closed_form (n W t : nat) :
  (1 <= n)%nat -> (1 + 2 * n <= W)%nat -> (t < n)%nat ->
  exists (row_t expected : list Z),
    steps_fixed0 t (single_one_row W (W / 2)) = Ok row_t /\
    rule190_single_one_sequence (Z.of_nat n) = Ok expected /\
    length expected = n /\
    expected !! t = Some (a_closed t) /\
    row_to_int_anchor_rightmost row_t = Ok (a_closed t).
Proof.
  intros Hn HW Ht.
  assert (Hc : (n <= W / 2)%nat).
  { apply Nat.div_le_lower_bound; lia. }
  assert (Hc' : (W / 2 + n < W)%nat).
  { pose proof (Nat.div_mod_eq W 2) as E.
    pose proof (Nat.mod_upper_bound W 2 ltac:(lia)). lia. }
  exists (cone_row W (W / 2) t), (map a_closed (seq 0 n)).
  split.
  { rewrite single_one_row_cone by lia.
    rewrite steps_fixed0_cone by lia. reflexivity. }
  split; [apply rule190_single_one_sequence_spec|].
  split; [rewrite length_map, length_seq; reflexivity|].
  split; [apply a_closed_seq_lookup, Ht|].
  apply row_to_int_cone_row; lia.
Qed.

Lemma single_one_matches_closed_form_witness :
  exists (row_t expected : list Z),
    steps_fixed0 3 (single_one_row 21 (21 / 2)) = Ok row_t /\
    rule190_single_one_sequence (Z.of_nat 10) = Ok expected /\
    length expected = 10%nat /\
    expected !! 3%nat = Some (a_closed 3) /\
    row_to_int_anchor_rightmost row_t = Ok (a_closed 3).
Proof.
  apply (single_one_matches_closed_form 10 21 3); simpl; lia.
Defined.

Example closed_form_first_terms :
  map a_closed (seq 0 10)
  = [1; 7; 29; 119; 477; 1911; 7645; 30583; 122333; 489335].
Proof. reflexivity. Qed.

Example validation_run_10 :
  rule190_single_one_sequence 10
  = Ok [1; 7; 29; 119; 477; 1911; 7645; 30583; 122333; 489335] /\
  (do r <- steps_fixed0 9 (single_one_row 21 10);
   row_to_int_anchor_rightmost r) = Ok 489335.
Proof. split; vm_compute; reflexivity. Qed.

(** ** Loops in general *)

Lemma for_each_ext {S A : Type} (f g : S -> A -> result S) (xs : list A) :
  (forall s x, In x xs -> f s x = g s x) ->
  forall s, for_each f xs s = for_each g xs s.
Proof.
  induction xs as [|x xs IH]; intros H s; [reflexivity|].
  cbn [for_each]. rewrite (H s x) by (left; reflexivity).
  destruct (g s x) as [e|s']; [reflexivity|]. cbn [bind].
  apply IH. intros s0 y Hy. apply H. right. exact Hy.
Qed.

(** An invariant indexed by the loop counter holds when the loop ends. *)
Lemma for_each_invariant {S : Type} (body : S -> nat -> result S)
  (P : nat -> S -> Prop) :
  forall (k a : nat) (s s' : S),
    P a s ->
    (forall i s1 s2, (a <= i < a + k)%nat -> P i s1 -> body s1 i = Ok s2 ->
                     P (Datatypes.S i) s2) ->
    for_each body (seq a k) s = Ok s' ->
    P (a + k)%nat s'.
Proof.
  induction k as [|k IH]; intros a s s' H0 Hstep Hrun.
  - cbn in Hrun. injection Hrun as <-. rewrite Nat.add_0_r. exact H0.
  - cbn [seq for_each] in Hrun.
    destruct (body s a) as [e|s1] eqn:E; [discriminate|]. cbn [bind] in Hrun.
    replace (a + Datatypes.S k)%nat with (Datatypes.S a + k)%nat by lia.
    apply (IH (Datatypes.S a) s1 s').
    + apply (Hstep a s s1); [lia | exact H0 | exact E].
    + intros i s2 s3 Hi. apply Hstep. lia.
    + exact Hrun.
Qed.

(** The same for a loop over an arbitrary list, with an invariant that does
    not mention the position. *)
Lemma for_each_preserves {S A : Type} (body : S -> A -> result S)
  (P : S -> Prop) (xs : list A) :
  (forall x s1 s2, In x xs -> P s1 -> body s1 x = Ok s2 -> P s2) ->
  forall s s', P s -> for_each body xs s = Ok s' -> P s'.
Proof.
  induction xs as [|x xs IH]; intros Hstep s s' H0 Hrun.
  - cbn in Hrun. injection Hrun as <-. exact H0.
  - cbn [for_each] in Hrun.
    destruct (body s x) as [e|s1] eqn:E; [discriminate|]. cbn [bind] in Hrun.
    apply (IH (fun y s2 s3 Hy => Hstep y s2 s3 (or_intror Hy)) s1 s');
      [|exact Hrun].
    apply (Hstep x s s1); [left; reflexivity | exact H0 | exact E].
Qed.

Lemma fold_left_preserves {S A : Type} (f : S -> A -> S) (P : S -> Prop)
  (xs : list A) :
  (forall x s, In x xs -> P s -> P (f s x)) ->
  forall s, P s -> P (fold_left f xs s).
Proof.
  induction xs as [|x xs IH]; intros Hstep s H0; [exact H0|].
  cbn [fold_left]. apply IH.
  - intros y s1 Hy. apply Hstep. right. exact Hy.
  - apply Hstep; [left; reflexivity | exact H0].
Qed.

(** ** The gate field *)

Lemma gate_positive_iff (g : Q) : gate_positive g = true <-> (0 < g)%Q.
Proof.
  unfold gate_positive. rewrite negb_true_iff.
  destruct (Qle_bool g 0) eqn:E.
  - apply Qle_bool_iff in E. split; [discriminate|].
    intros H. exfalso. apply (Qlt_not_le _ _ H E).
  - split; [|reflexivity]. intros _. apply Qnot_le_lt.
    intros H. apply Qle_bool_iff in H. congruence.
Qed.

Lemma staccato_of_iff (cfg : RenderConfig) :
  staccato_of cfg = true <-> exists g : Q, gate cfg = Some g /\ (0 < g)%Q.
Proof.
  unfold staccato_of. destruct (gate cfg) as [g|].
  - rewrite gate_positive_iff. split.
    + intros H. exists g. split; [reflexivity | exact H].
    + intros (g' & [= <-] & H). exact H.
  - split; [discriminate|]. intros (g' & [=] & _).
Qed.

Lemma sched_step_sustain (cfg1 cfg2 : RenderConfig) (scale : list Z)
  (st : sched_state) (s : nat) :
  staccato_of cfg1 = false -> staccato_of cfg2 = false -> q cfg1 = q cfg2 ->
  sched_step cfg1 scale st s = sched_step cfg2 scale st s.
Proof.
  intros H1 H2 Hq. unfold sched_step. rewrite H1, H2, Hq. reflexivity.
Qed.

(** C9. A configuration whose gate is present with a value [g <= 0] takes
    the sustain branch and yields the same final event sequence, and the
    same file, as the configuration with the gate absent; staccato mode is
    entered exactly when the gate is present and positive. *)
Theorem nonpositive_gate_is_sustain (row0 scale : list Z) (cfg : RenderConfig)
  (g : Q) :
  (g <= 0)%Q ->
  staccato_of (with_gate cfg (Some g)) = false /\
  final_events row0 scale (with_gate cfg (Some g))
  = final_events row0 scale (with_gate cfg None) /\
  schedule_events row0 scale (with_gate cfg (Some g))
  = schedule_events row0 scale (with_gate cfg None) /\
  (forall cfg' : RenderConfig,
     staccato_of cfg' = true <-> exists g', gate cfg' = Some g' /\ (0 < g')%Q).
Proof.
  intros Hg.
  assert (Hs : staccato_of (with_gate cfg (Some g)) = false).
  { unfold staccato_of, with_gate, gate_positive. cbn.
    apply negb_false_iff, Qle_bool_iff, Hg. }
  assert (Hn : staccato_of (with_gate cfg None) = false) by reflexivity.
  assert (Hf : final_events row0 scale (with_gate cfg (Some g))
               = final_events row0 scale (with_gate cfg None)).
  { unfold final_events, scheduled.
    change (steps_for_8_seconds (with_gate cfg (Some g)))
      with (steps_for_8_seconds (with_gate cfg None)).
    destruct (steps_for_8_seconds (with_gate cfg None)) as [e|steps];
      [reflexivity|]. cbn [bind].
    unfold run_steps.
    rewrite (for_each_ext _ (sched_step (with_gate cfg None) scale))
      by (intros; apply sched_step_sustain; auto).
    change (sched_init row0 (with_gate cfg (Some g)))
      with (sched_init row0 (with_gate cfg None)).
    destruct (for_each _ _ _) as [e|st]; [reflexivity|]. cbn [bind].
    unfold final_flush. rewrite Hs, Hn. reflexivity. }
  split; [exact Hs|]. split; [exact Hf|]. split.
  - unfold schedule_events. rewrite Hf. reflexivity.
  - apply staccato_of_iff.
Qed.

Lemma nonpositive_gate_is_sustain_witness :
  final_events row5 scale5 (with_gate cfg_default (Some 0%Q))
  = final_events row5 scale5 (with_gate cfg_default None).
Proof.
  destruct (nonpositive_gate_is_sustain row5 scale5 cfg_default 0%Q)
    as (_ & H & _); [discriminate | exact H].
Defined.

(** ** The sort *)

(** Goals about the order of two keys, once the events are known. *)
Ltac key_order :=
  unfold event_le, key_le, key_lt, sort_key, stop_at, start_at in *;
  cbn [fst snd priority] in *; lia.

Lemma key_lt_true (a b : Z * Z) : key_lt a b = true -> key_le a b.
Proof. unfold key_lt, key_le. lia. Qed.

Lemma key_lt_false (a b : Z * Z) : key_lt a b = false -> key_le b a.
Proof. unfold key_lt, key_le. lia. Qed.

Lemma key_le_trans (a b c : Z * Z) : key_le a b -> key_le b c -> key_le a c.
Proof. unfold key_le. lia. Qed.

#[local] Instance event_le_trans : Transitive event_le.
Proof. intros x y z. apply key_le_trans. Qed.

Lemma insert_event_perm (x : event) (l : list event) :
  Permutation (insert_event x l) (x :: l).
Proof.
  induction l as [|y l IH]; cbn [insert_event]; [reflexivity|].
  destruct (key_lt (sort_key y) (sort_key x)); [|reflexivity].
  rewrite IH. apply perm_swap.
Qed.

Lemma sort_events_perm (l : list event) : Permutation (sort_events l) l.
Proof.
  induction l as [|x l IH]; cbn [sort_events]; [reflexivity|].
  rewrite insert_event_perm, IH. reflexivity.
Qed.

Lemma sort_events_In (l : list event) (e : event) :
  In e (sort_events l) <-> In e l.
Proof.
  split; apply Permutation_in;
    [apply sort_events_perm | symmetry; apply sort_events_perm].
Qed.

Lemma insert_event_hd (x y : event) (l : list event) :
  event_le y x -> HdRel event_le y l -> HdRel event_le y (insert_event x l).
Proof.
  intros Hyx Hl. destruct l as [|z l]; cbn [insert_event].
  - constructor. exact Hyx.
  - destruct (key_lt (sort_key z) (sort_key x)); constructor;
      [inversion Hl; assumption | exact Hyx].
Qed.

Lemma insert_event_sorted (x : event) (l : list event) :
  Sorted event_le l -> Sorted event_le (insert_event x l).
Proof.
  induction l as [|y l IH]; intros Hs; cbn [insert_event].
  - repeat constructor.
  - inversion Hs as [|? ? Hs' Hhd]; subst.
    destruct (key_lt (sort_key y) (sort_key x)) eqn:E.
    + constructor; [apply IH, Hs'|].
      apply insert_event_hd; [apply key_lt_true, E | exact Hhd].
    + constructor; [exact Hs|]. constructor. apply key_lt_false, E.
Qed.

Lemma sort_events_sorted (l : list event) : Sorted event_le (sort_events l).
Proof.
  induction l as [|x l IH]; cbn [sort_events]; [constructor|].
  apply insert_event_sorted, IH.
Qed.

Lemma sort_events_strongly_sorted (l : list event) :
  StronglySorted event_le (sort_events l).
Proof. apply Sorted_StronglySorted; [exact _ | apply sort_events_sorted]. Qed.

(** A sorted list is left as it is: the sort is stable. *)
Lemma insert_event_head (x : event) (l : list event) :
  Forall (event_le x) l -> insert_event x l = x :: l.
Proof.
  intros H. destruct l as [|y l]; [reflexivity|]. cbn [insert_event].
  inversion H as [|? ? Hxy _]; subst.
  destruct (key_lt (sort_key y) (sort_key x)) eqn:E; [|reflexivity].
  exfalso. unfold event_le, key_le in Hxy. unfold key_lt in E. lia.
Qed.

Lemma sort_events_id (l : list event) :
  StronglySorted event_le l -> sort_events l = l.
Proof.
  induction 1 as [|x l Hs IH Hx]; [reflexivity|].
  cbn [sort_events]. rewrite IH. apply insert_event_head, Hx.
Qed.

Lemma strongly_sorted_lookup {A : Type} (R : A -> A -> Prop) (l : list A) :
  StronglySorted R l ->
  forall (i j : nat) (x y : A),
    (i < j)%nat -> l !! i = Some x -> l !! j = Some y -> R x y.
Proof.
  induction 1 as [|a l Hs IH Ha]; intros i j x y Hij Hi Hj.
  - rewrite lookup_nil in Hi. discriminate.
  - destruct j as [|j]; [lia|]. cbn in Hj.
    destruct i as [|i].
    + cbn in Hi. injection Hi as <-.
      rewrite Forall_forall in Ha. apply Ha.
      apply list_elem_of_lookup. eauto.
    + cbn in Hi. apply (IH i j); [lia | exact Hi | exact Hj].
Qed.

(** C6. In the final event sequence the events are ordered by absolute tick
    ascending and, within one tick, by class: the tempo meta-event before
    every note-stop and every note-stop before every note-start.  For two
    events sharing a tick, a stop never appears after a start, and the tempo
    never after a note event. *)
Theorem final_events_ordered (row0 scale : list Z) (cfg : RenderConfig)
  (evs : list event) :
  final_events row0 scale cfg = Ok evs ->
  StronglySorted event_le evs /\
  (forall (i j : nat) (ei ej : event),
     (i < j)%nat -> evs !! i = Some ei -> evs !! j = Some ej ->
     fst ei <= fst ej /\
     (fst ei = fst ej -> priority (snd ei) <= priority (snd ej)) /\
     (fst ei = fst ej -> is_start (snd ei) = true ->
      is_stop (snd ej) = false /\ is_tempo (snd ej) = false) /\
     (fst ei = fst ej -> is_stop (snd ei) = true -> is_tempo (snd ej) = false)).
Proof.
  unfold final_events. destruct (scheduled row0 scale cfg) as [e|st];
    [discriminate|]. cbn [bind]. intros [= <-].
  pose proof (sort_events_strongly_sorted (events st)) as Hs.
  split; [exact Hs|].
  intros i j [ti mi] [tj mj] Hij Hi Hj.
  pose proof (strongly_sorted_lookup _ _ Hs i j _ _ Hij Hi Hj) as Hle.
  unfold event_le, key_le, sort_key in Hle. cbn [fst snd] in *.
  repeat split; try (destruct mi, mj; cbn in *; intros; try reflexivity; lia).
Qed.

Lemma final_events_ordered_witness :
  exists evs : list event,
    final_events row5 scale5 cfg_default = Ok evs /\
    StronglySorted event_le evs.
Proof.
  destruct (final_events row5 scale5 cfg_default) as [e|evs] eqn:E;
    [vm_compute in E; discriminate|].
  exists evs. split; [reflexivity|].
  apply (final_events_ordered row5 scale5 cfg_default evs E).
Defined.

(** ** The per-column loops of the scheduler *)

Lemma getitem_Ok_nth (l : list Z) (i : nat) (x : Z) :
  getitem l (Z.of_nat i) = Ok x -> (i < length l)%nat /\ nth i l 0 = x.
Proof.
  intros H. apply getitem_Ok_inv in H. split.
  - apply (lookup_lt_Some _ _ _ H).
  - apply nth_lookup_Some, H.
Qed.

Lemma setitem_Ok_inv {A : Type} (l l' : list A) (i : nat) (v : A) :
  setitem l (Z.of_nat i) v = Ok l' -> (i < length l)%nat /\ l' = <[i := v]> l.
Proof.
  unfold setitem.
  destruct (Z.ltb_spec (Z.of_nat i) 0) as [?|_]; [lia|].
  destruct (Z.leb_spec 0 (Z.of_nat i)) as [_|?]; [|lia].
  destruct (Z.ltb_spec (Z.of_nat i) (Z.of_nat (length l))) as [Hlt|?];
    [|discriminate].
  cbn [andb]. rewrite Nat2Z.id. intros [= <-]. split; [lia | reflexivity].
Qed.

Lemma nth_insert_eq (l : list Z) (i : nat) (v : Z) :
  (i < length l)%nat -> nth i (<[i := v]> l) 0 = v.
Proof.
  intros Hi. apply nth_lookup_Some, list_lookup_insert_eq, Hi.
Qed.

Lemma nth_insert_ne (l : list Z) (i j : nat) (v : Z) :
  i <> j -> nth j (<[i := v]> l) 0 = nth j l 0.
Proof.
  intros Hne. rewrite !nth_lookup, list_lookup_insert_ne by exact Hne.
  reflexivity.
Qed.

Lemma births_of_snoc (row nxt scale : list Z) (i : nat) :
  births_of row nxt scale (seq 0 (S i))
  = births_of row nxt scale (seq 0 i)
    ++ (if (nth i nxt 0 =? 1) && negb (nth i row 0 =? 1)
        then [(nth i scale 0, i)] else []).
Proof.
  unfold births_of. rewrite seq_S, flat_map_app. cbn [flat_map].
  rewrite app_nil_r. reflexivity.
Qed.

Lemma deaths_of_snoc (row nxt scale : list Z) (i : nat) :
  deaths_of row nxt scale (seq 0 (S i))
  = deaths_of row nxt scale (seq 0 i)
    ++ (if (nth i row 0 =? 1) && negb (nth i nxt 0 =? 1)
        then [(nth i scale 0, i)] else []).
Proof.
  unfold deaths_of. rewrite seq_S, flat_map_app. cbn [flat_map].
  rewrite app_nil_r. reflexivity.
Qed.

Lemma classify_step (row nxt scale age0 : list Z) (i : nat)
  (s1 s2 : list Z * list (Z * nat) * list (Z * nat)) :
  classified row nxt scale age0 i s1 ->
  classify row nxt scale s1 i = Ok s2 ->
  classified row nxt scale age0 (S i) s2.
Proof.
  destruct s1 as [[age bs] ds]. intros (Hlen & Hb & Hd & Hlo & Hhi & Hsc & Hnx).
  unfold classify.
  destruct (getitem row (Z.of_nat i)) as [e|ri] eqn:Er; [discriminate|].
  destruct (getitem nxt (Z.of_nat i)) as [e|ni] eqn:En; [discriminate|].
  destruct (getitem scale (Z.of_nat i)) as [e|note] eqn:Es; [discriminate|].
  cbn [bind].
  apply getitem_Ok_nth in Er as [Hri Er], En as [Hni En], Es as [Hsi Es].
  assert (Hage : forall v j, (i < length age)%nat -> (j < S i)%nat ->
            sustain_age row nxt age0 i = v ->
            nth j (<[i := v]> age) 0 = sustain_age row nxt age0 j).
  { intros v j Hi Hj Hv. destruct (decide (i = j)) as [<-|Hne].
    - rewrite nth_insert_eq by assumption. congruence.
    - rewrite nth_insert_ne by exact Hne. apply Hlo. lia. }
  assert (Hrest : forall v j, (S i <= j)%nat ->
            nth j (<[i := v]> age) 0 = nth j age0 0).
  { intros v j Hj. rewrite nth_insert_ne by lia. apply Hhi. lia. }
  assert (Hsnoc :
    births_of row nxt scale (seq 0 (S i))
    = births_of row nxt scale (seq 0 i)
      ++ (if (ni =? 1) && negb (ri =? 1) then [(note, i)] else []) /\
    deaths_of row nxt scale (seq 0 (S i))
    = deaths_of row nxt scale (seq 0 i)
      ++ (if (ri =? 1) && negb (ni =? 1) then [(note, i)] else [])).
  { rewrite births_of_snoc, deaths_of_snoc, Er, En, Es. split; reflexivity. }
  destruct Hsnoc as [Hbs Hds].
  assert (Hsa : sustain_age row nxt age0 i
                = if (ni =? 1) && negb (ri =? 1) then 1
                  else if (ni =? 1) && (ri =? 1) then nth i age 0 + 1
                  else if (ri =? 1) && negb (ni =? 1) then 0
                  else nth i age 0).
  { unfold sustain_age. rewrite Er, En, (Hhi i) by lia. reflexivity. }
  destruct (ni =? 1) eqn:Enow; destruct (ri =? 1) eqn:Ewas; cbn [andb negb] in *.
  - destruct (getitem age (Z.of_nat i)) as [e|a] eqn:Ea; [discriminate|].
    cbn [bind]. apply getitem_Ok_nth in Ea as [Hai Ea].
    destruct (setitem age (Z.of_nat i) (a + 1)) as [e|age'] eqn:Eset;
      [discriminate|].
    apply setitem_Ok_inv in Eset as [_ ->]. cbn [bind]. intros [= <-].
    unfold classified. rewrite length_insert, Hbs, Hds, !app_nil_r.
    repeat split; try assumption; try lia.
    + intros j Hj. apply Hage; [exact Hai | exact Hj|]. congruence.
    + intros j Hj. apply Hrest, Hj.
  - destruct (setitem age (Z.of_nat i) 1) as [e|age'] eqn:Eset;
      [discriminate|].
    apply setitem_Ok_inv in Eset as [Hai ->]. cbn [bind]. intros [= <-].
    unfold classified. rewrite length_insert, Hbs, Hds, !app_nil_r.
    repeat split; try assumption; try lia.
    + rewrite Hb. reflexivity.
    + intros j Hj. apply Hage; [exact Hai | exact Hj | exact Hsa].
    + intros j Hj. apply Hrest, Hj.
  - destruct (setitem age (Z.of_nat i) 0) as [e|age'] eqn:Eset;
      [discriminate|].
    apply setitem_Ok_inv in Eset as [Hai ->]. cbn [bind]. intros [= <-].
    unfold classified. rewrite length_insert, Hbs, Hds, !app_nil_r.
    repeat split; try assumption; try lia.
    + rewrite Hd. reflexivity.
    + intros j Hj. apply Hage; [exact Hai | exact Hj | exact Hsa].
    + intros j Hj. apply Hrest, Hj.
  - intros [= <-]. unfold classified. rewrite Hbs, Hds, !app_nil_r.
    repeat split; try assumption; try lia.
    + intros j Hj. destruct (decide (j = i)) as [->|Hne].
      * symmetry. exact Hsa.
      * apply Hlo. lia.
    + intros j Hj. apply Hhi. lia.
Qed.

Lemma classify_loop (row nxt scale age0 : list Z) (W : nat)
  (st : list Z * list (Z * nat) * list (Z * nat)) :
  for_each (classify row nxt scale) (range W) (age0, [], []) = Ok st ->
  classified row nxt scale age0 W st.
Proof.
  intros Hrun.
  apply (for_each_invariant _ (classified row nxt scale age0) W 0 _ _)
    in Hrun.
  - exact Hrun.
  - unfold classified. repeat split; try reflexivity; try lia.
  - intros i s1 s2 _. apply classify_step.
Qed.

Lemma emit_death_loop (base_tick : Z) (deaths : list (Z * nat)) :
  forall (evs : list event) (active : gset Z),
    fold_left (emit_death base_tick) deaths (evs, active)
    = (evs ++ map (stop_at base_tick) (death_stops active deaths),
       active ∖ list_to_set (map fst deaths)).
Proof.
  induction deaths as [|d deaths IH]; intros evs active; cbn.
  - rewrite app_nil_r. f_equal. set_solver.
  - destruct (decide (fst d ∈ active)) as [Hin|Hin].
    + rewrite IH. cbn [map]. rewrite <- app_assoc. f_equal. set_solver.
    + rewrite IH. f_equal. set_solver.
Qed.

Lemma emit_birth_loop (base_tick : Z) (age : list Z) (births : list (Z * nat)) :
  forall (st st' : list event * gset Z),
    for_each (emit_birth base_tick age) births st = Ok st' ->
    st' = (fst st ++ map (start_at base_tick age) births,
           snd st ∪ list_to_set (map fst births)).
Proof.
  induction births as [|[note idx] births IH]; intros [evs active] st'; cbn.
  - intros [= <-]. rewrite app_nil_r. f_equal. set_solver.
  - destruct (getitem age (Z.of_nat idx)) as [e|a] eqn:Ea; [discriminate|].
    cbn [bind]. apply getitem_Ok_nth in Ea as [_ Ea].
    intros Hrun. apply IH in Hrun. rewrite Hrun. cbn [fst snd].
    rewrite <- app_assoc. unfold start_at at 2. cbn [fst snd]. rewrite Ea.
    f_equal. set_solver.
Qed.

Lemma births_of_In (row nxt scale : list Z) (idxs : list nat) (b : Z * nat) :
  In b (births_of row nxt scale idxs) <->
  In (snd b) idxs /\ fst b = nth (snd b) scale 0 /\
  nth (snd b) nxt 0 = 1 /\ nth (snd b) row 0 <> 1.
Proof.
  unfold births_of. rewrite in_flat_map. split.
  - intros (i & Hi & Hb).
    destruct (Z.eqb_spec (nth i nxt 0) 1); destruct (Z.eqb_spec (nth i row 0) 1);
      cbn in Hb; try contradiction.
    destruct Hb as [<-|[]]. cbn. auto.
  - intros (Hi & Hn & Hnow & Hwas). exists (snd b). split; [exact Hi|].
    destruct (Z.eqb_spec (nth (snd b) nxt 0) 1); [|contradiction].
    destruct (Z.eqb_spec (nth (snd b) row 0) 1); [contradiction|].
    cbn. left. destruct b. cbn in *. congruence.
Qed.

Lemma deaths_of_In (row nxt scale : list Z) (idxs : list nat) (d : Z * nat) :
  In d (deaths_of row nxt scale idxs) <->
  In (snd d) idxs /\ fst d = nth (snd d) scale 0 /\
  nth (snd d) row 0 = 1 /\ nth (snd d) nxt 0 <> 1.
Proof.
  unfold deaths_of. rewrite in_flat_map. split.
  - intros (i & Hi & Hb).
    destruct (Z.eqb_spec (nth i nxt 0) 1); destruct (Z.eqb_spec (nth i row 0) 1);
      cbn in Hb; try contradiction.
    destruct Hb as [<-|[]]. cbn. auto.
  - intros (Hi & Hn & Hwas & Hnow). exists (snd d). split; [exact Hi|].
    destruct (Z.eqb_spec (nth (snd d) row 0) 1); [|contradiction].
    destruct (Z.eqb_spec (nth (snd d) nxt 0) 1); [contradiction|].
    cbn. left. destruct d. cbn in *. congruence.
Qed.

(** What one sustain step does, when it succeeds. *)
Lemma sustain_step_inv (base_tick : Z) (scale nxt : list Z)
  (st st' : sched_state) :
  sustain_step base_tick scale nxt st = Ok st' ->
  let W := length (row st) in
  let births := births_of (row st) nxt scale (seq 0 W) in
  let deaths := deaths_of (row st) nxt scale (seq 0 W) in
  row st' = nxt /\
  classified (row st) nxt scale (age st) W (age st', births, deaths) /\
  events st'
  = events st
    ++ map (stop_at base_tick) (death_stops (active_notes st) deaths)
    ++ map (start_at base_tick (age st')) births /\
  active_notes st'
  = (active_notes st ∖ list_to_set (map fst deaths))
    ∪ list_to_set (map fst births).
Proof.
  unfold sustain_step.
  destruct (for_each _ _ _) as [e|[[age' births] deaths]] eqn:Ecl;
    [discriminate|]. cbn [bind].
  apply classify_loop in Ecl.
  pose proof Ecl as (_ & -> & -> & _).
  rewrite emit_death_loop.
  destruct (for_each (emit_birth _ _) _ _) as [e|st2] eqn:Eb; [discriminate|].
  cbn [bind]. apply emit_birth_loop in Eb. subst st2. cbn [fst snd].
  intros [= <-]. cbn [row age events active_notes].
  rewrite <- app_assoc. auto.
Qed.

Lemma staccato_events_snoc (base_tick off_tick : Z) (row nxt scale age : list Z)
  (i : nat) :
  staccato_events base_tick off_tick row nxt scale age (seq 0 (S i))
  = staccato_events base_tick off_tick row nxt scale age (seq 0 i)
    ++ (if nth i nxt 0 =? 1 then
          [(base_tick,
            NoteOn (nth i scale 0)
              (velocity_of_age (staccato_age row nxt age i)));
           (off_tick, NoteOff (nth i scale 0))]
        else []).
Proof.
  unfold staccato_events. rewrite seq_S, flat_map_app. cbn [flat_map].
  rewrite app_nil_r. reflexivity.
Qed.

Lemma retrigger_step (base_tick off_tick : Z) (row nxt scale age0 : list Z)
  (evs0 : list event) (i : nat) (s1 s2 : list Z * list event) :
  retriggered base_tick off_tick row nxt scale age0 evs0 i s1 ->
  retrigger base_tick off_tick row nxt scale s1 i = Ok s2 ->
  retriggered base_tick off_tick row nxt scale age0 evs0 (S i) s2.
Proof.
  destruct s1 as [age evs]. intros (Hlen & Hlo & Hhi & Hev).
  unfold retrigger.
  destruct (getitem nxt (Z.of_nat i)) as [e|ni] eqn:En; [discriminate|].
  cbn [bind]. apply getitem_Ok_nth in En as [Hni En].
  assert (Hage : forall v j, (i < length age)%nat -> (j < S i)%nat ->
            staccato_age row nxt age0 i = v ->
            nth j (<[i := v]> age) 0 = staccato_age row nxt age0 j).
  { intros v j Hi Hj Hv. destruct (decide (i = j)) as [<-|Hne].
    - rewrite nth_insert_eq by assumption. congruence.
    - rewrite nth_insert_ne by exact Hne. apply Hlo. lia. }
  assert (Hrest : forall v j, (S i <= j)%nat ->
            nth j (<[i := v]> age) 0 = nth j age0 0).
  { intros v j Hj. rewrite nth_insert_ne by lia. apply Hhi. lia. }
  pose proof (staccato_events_snoc base_tick off_tick row nxt scale age0 i)
    as Hsn.
  unfold retriggered.
  destruct (ni =? 1) eqn:Enow.
  - destruct (getitem row (Z.of_nat i)) as [e|ri] eqn:Er; [discriminate|].
    cbn [bind]. apply getitem_Ok_nth in Er as [Hri Er].
    set (a' := if ri =? 1 then nth i age0 0 + 1 else 1).
    assert (Ha' : (if ri =? 1
                   then do a <- getitem age (Z.of_nat i); Ok (a + 1)
                   else Ok 1) = Ok a' \/
                  exists e, (if ri =? 1
                   then do a <- getitem age (Z.of_nat i); Ok (a + 1)
                   else Ok 1) = Raise e).
    { subst a'. destruct (ri =? 1); [|left; reflexivity].
      destruct (getitem age (Z.of_nat i)) as [e|a] eqn:Ea.
      - right. exists e. reflexivity.
      - left. apply getitem_Ok_nth in Ea as [_ Ea]. cbn [bind].
        rewrite <- Ea, Hhi by lia. reflexivity. }
    destruct Ha' as [-> | [e ->]]; [|discriminate]. cbn [bind].
    destruct (setitem age (Z.of_nat i) a') as [e|age'] eqn:Eset;
      [discriminate|].
    apply setitem_Ok_inv in Eset as [Hai ->]. cbn [bind].
    destruct (getitem scale (Z.of_nat i)) as [e|note] eqn:Es; [discriminate|].
    cbn [bind]. apply getitem_Ok_nth in Es as [Hsi Es].
    rewrite getitem_nth by (rewrite length_insert; exact Hai). cbn [bind].
    rewrite nth_insert_eq by exact Hai. intros [= <-].
    assert (Hsa : staccato_age row nxt age0 i = a').
    { unfold staccato_age. rewrite En, Enow, Er. reflexivity. }
    rewrite length_insert, Hsn, En, Enow, Es, Hsa, Hev, <- app_assoc.
    repeat split; try assumption; try reflexivity.
    + intros j Hj. apply Hage; assumption.
    + intros j Hj. apply Hrest, Hj.
  - destruct (setitem age (Z.of_nat i) 0) as [e|age'] eqn:Eset;
      [discriminate|].
    apply setitem_Ok_inv in Eset as [Hai ->]. cbn [bind]. intros [= <-].
    assert (Hsa : staccato_age row nxt age0 i = 0).
    { unfold staccato_age. rewrite En, Enow. reflexivity. }
    rewrite length_insert, Hsn, En, Enow, app_nil_r.
    repeat split; try assumption.
    + intros j Hj. apply Hage; assumption.
    + intros j Hj. apply Hrest, Hj.
Qed.

Lemma retrigger_loop (base_tick off_tick : Z) (row nxt scale age0 : list Z)
  (evs0 : list event) (W : nat) (st : list Z * list event) :
  for_each (retrigger base_tick off_tick row nxt scale) (range W) (age0, evs0)
  = Ok st ->
  retriggered base_tick off_tick row nxt scale age0 evs0 W st.
Proof.
  intros Hrun.
  apply (for_each_invariant _
           (retriggered base_tick off_tick row nxt scale age0 evs0) W 0 _ _)
    in Hrun.
  - exact Hrun.
  - unfold retriggered. cbn. rewrite app_nil_r.
    repeat split; try reflexivity; lia.
  - intros i s1 s2 _. apply retrigger_step.
Qed.

(** What one staccato step does, when it succeeds. *)
Lemma staccato_step_inv (qv : Z) (gf : Q) (base_tick : Z) (scale nxt : list Z)
  (st st' : sched_state) :
  staccato_step qv (Some gf) base_tick scale nxt st = Ok st' ->
  let W := length (row st) in
  let off_tick := base_tick + int_of_float (inject_Z qv * gf)%Q in
  row st' = nxt /\
  length (age st') = length (age st) /\
  (forall j, (j < W)%nat ->
     nth j (age st') 0 = staccato_age (row st) nxt (age st) j) /\
  events st'
  = events st
    ++ staccato_events base_tick off_tick (row st) nxt scale (age st)
         (seq 0 W) /\
  active_notes st' = active_notes st.
Proof.
  unfold staccato_step.
  destruct (for_each _ _ _) as [e|[age' evs']] eqn:Er; [discriminate|].
  cbn [bind]. apply retrigger_loop in Er.
  destruct Er as (Hlen & Hlo & _ & Hev).
  intros [= <-]. cbn [row age events active_notes fst snd]. auto.
Qed.

(** ** One step of the scheduler *)

Lemma next_toroidal_length (r nxt : list Z) :
  next_rule190_toroidal r = Ok nxt -> length nxt = length r.
Proof.
  rewrite next_toroidal_collect. intros H.
  apply collect_length in H. rewrite length_seq in H. exact H.
Qed.

Lemma sched_step_inv (cfg : RenderConfig) (scale : list Z)
  (st st' : sched_state) (s : nat) :
  sched_step cfg scale st s = Ok st' ->
  exists nxt : list Z,
    next_rule190_toroidal (row st) = Ok nxt /\
    ((staccato_of cfg = false /\
      sustain_step (Z.of_nat s * q cfg) scale nxt st = Ok st') \/
     (staccato_of cfg = true /\
      exists g : Q,
        gate cfg = Some g /\
        staccato_step (q cfg) (Some (clamp_gate g)) (Z.of_nat s * q cfg)
          scale nxt st = Ok st')).
Proof.
  unfold sched_step.
  destruct (next_rule190_toroidal (row st)) as [e|nxt]; [discriminate|].
  cbn [bind]. intros H. exists nxt. split; [reflexivity|].
  destruct (staccato_of cfg) eqn:Es; cbn [negb] in H.
  - right. split; [reflexivity|].
    unfold gate_frac_of in H. unfold staccato_of in Es.
    destruct (gate cfg) as [g|]; [|discriminate].
    exists g. split; [reflexivity | exact H].
  - left. split; [reflexivity | exact H].
Qed.


Lemma sustain_age_nonneg (row nxt age : list Z) (j : nat) :
  (forall k, 0 <= nth k age 0) -> 0 <= sustain_age row nxt age j.
Proof.
  intros H. unfold sustain_age. pose proof (H j).
  repeat destruct (_ =? _); cbn; lia.
Qed.

Lemma staccato_age_nonneg (row nxt age : list Z) (j : nat) :
  (forall k, 0 <= nth k age 0) -> 0 <= staccato_age row nxt age j.
Proof.
  intros H. unfold staccato_age. pose proof (H j).
  repeat destruct (_ =? _); cbn; lia.
Qed.






Lemma final_flush_starts (cfg : RenderConfig) (steps : Z) (st : sched_state)
  (t n v : Z) :
  In (t, NoteOn n v) (events (final_flush cfg steps st)) ->
  In (t, NoteOn n v) (events st).
Proof.
  unfold final_flush. destruct (negb (staccato_of cfg)); [|auto].
  cbn [events]. intros Hin. apply in_app_or in Hin as [Hin|Hin]; [exact Hin|].
  apply in_map_iff in Hin as (x & Hx & _). discriminate.
Qed.



(** ** Staccato mode *)

Lemma steps_toroidal_succ (k : nat) :
  forall r0 : list Z,
    steps_toroidal (S k) r0
    = do r <- steps_toroidal k r0; next_rule190_toroidal r.
Proof.
  induction k as [|k IH]; intros r0.
  - cbn. destruct (next_rule190_toroidal r0); reflexivity.
  - change (steps_toroidal (S (S k)) r0)
      with (do r' <- next_rule190_toroidal r0; steps_toroidal (S k) r').
    cbn [steps_toroidal].
    destruct (next_rule190_toroidal r0) as [e|r']; [reflexivity|].
    cbn [bind]. apply IH.
Qed.

Lemma staccato_events_In (base_tick off_tick : Z) (row nxt scale age : list Z)
  (W : nat) (e : event) :
  In e (staccato_events base_tick off_tick row nxt scale age (seq 0 W)) <->
  exists i : nat,
    (i < W)%nat /\ nth i nxt 0 = 1 /\
    (e = (base_tick,
          NoteOn (nth i scale 0) (velocity_of_age (staccato_age row nxt age i)))
     \/ e = (off_tick, NoteOff (nth i scale 0))).
Proof.
  unfold staccato_events. rewrite in_flat_map. split.
  - intros (i & Hi & Hin). apply in_seq in Hi. exists i.
    destruct (Z.eqb_spec (nth i nxt 0) 1); [|contradiction].
    split; [lia|]. split; [assumption|].
    destruct Hin as [<- | [<- | []]]; auto.
  - intros (i & Hi & Hnow & He). exists i. split; [apply in_seq; lia|].
    destruct (Z.eqb_spec (nth i nxt 0) 1); [|contradiction].
    destruct He as [-> | ->]; cbn; auto.
Qed.


Lemma int_of_float_floor (x : Q) : (0 <= x)%Q -> int_of_float x = Qfloor x.
Proof.
  destruct x as [n d]. unfold Qle, int_of_float, Qfloor. cbn. intros H.
  apply Z.quot_div_nonneg; lia.
Qed.


Lemma clamp_gate_nonneg (g : Q) : (0 <= clamp_gate g)%Q.
Proof. unfold clamp_gate. apply Q.le_max_l. Qed.





(** ** Configuration errors *)





(** ** Serialization *)

Lemma pack_fold (evs : list event) :
  forall (track : list (Z * message)) (last : Z),
    fst (fold_left pack_event evs (track, last))
    = track ++ map clamp_delta (deltas last evs).
Proof.
  induction evs as [|[t m] evs IH]; intros track last; cbn.
  - rewrite app_nil_r. reflexivity.
  - rewrite IH, <- app_assoc. reflexivity.
Qed.

Lemma pack_track_clamps (evs : list event) :
  pack_track evs = map clamp_delta (deltas 0 evs).
Proof. unfold pack_track. rewrite pack_fold. reflexivity. Qed.

Lemma deltas_nonneg (evs : list event) :
  StronglySorted event_le evs ->
  forall last : Z,
    (forall e, In e evs -> last <= fst e) ->
    Forall (fun d => 0 <= fst d) (deltas last evs).
Proof.
  induction 1 as [|[t m] evs Hs IH Hhd]; intros last Hlast; cbn.
  - constructor.
  - constructor.
    + cbn. specialize (Hlast (t, m) (or_introl eq_refl)). cbn in Hlast. lia.
    + apply IH. intros e He. rewrite Forall_forall in Hhd.
      specialize (Hhd e (proj2 (list_elem_of_In _ _) He)).
      unfold event_le, key_le, sort_key in Hhd. cbn in Hhd. lia.
Qed.

Lemma clamp_delta_id (ds : list (Z * message)) :
  Forall (fun d => 0 <= fst d) ds -> map clamp_delta ds = ds.
Proof.
  induction 1 as [|[d m] ds Hd _ IH]; [reflexivity|].
  cbn [map]. rewrite IH. unfold clamp_delta. cbn in *.
  rewrite Z.max_r by exact Hd. reflexivity.
Qed.

Lemma int_of_float_nonneg (x : Q) : (0 <= x)%Q -> 0 <= int_of_float x.
Proof.
  intros H. rewrite int_of_float_floor by exact H.
  change 0 with (Qfloor 0). apply Qfloor_resp_le, H.
Qed.

Lemma sched_step_ticks_nonneg (cfg : RenderConfig) (scale : list Z)
  (st st' : sched_state) (s : nat) :
  0 <= q cfg -> ticks_nonneg (events st) ->
  sched_step cfg scale st s = Ok st' -> ticks_nonneg (events st').
Proof.
  intros Hq Hnn Hstep.
  apply sched_step_inv in Hstep as (nxt & _ & Hmode).
  assert (Hbase : 0 <= Z.of_nat s * q cfg) by nia.
  destruct Hmode as [[_ Hs] | [_ (g & _ & Hs)]].
  - apply sustain_step_inv in Hs as (_ & _ & Hev & _).
    intros e Hin. rewrite Hev in Hin.
    apply in_app_or in Hin as [Hin|Hin]; [apply Hnn, Hin|].
    apply in_app_or in Hin as [Hin|Hin];
      apply in_map_iff in Hin as (x & <- & _); exact Hbase.
  - apply staccato_step_inv in Hs as (_ & _ & _ & Hev & _).
    intros e Hin. rewrite Hev in Hin.
    apply in_app_or in Hin as [Hin|Hin]; [apply Hnn, Hin|].
    apply staccato_events_In in Hin as (i & _ & _ & [-> | ->]); cbn [fst].
    + exact Hbase.
    + assert (0 <= int_of_float (inject_Z (q cfg) * clamp_gate g)%Q); [|lia].
      apply int_of_float_nonneg, Qmult_le_0_compat;
        [unfold Qle; cbn; lia | apply clamp_gate_nonneg].
Qed.

Lemma run_steps_ticks_nonneg (row0 scale : list Z) (cfg : RenderConfig)
  (steps : Z) (st : sched_state) :
  0 <= q cfg -> run_steps row0 scale cfg steps = Ok st ->
  ticks_nonneg (events st).
Proof.
  intros Hq Hrun. unfold run_steps in Hrun.
  apply (for_each_preserves _ (fun st => ticks_nonneg (events st))) in Hrun;
    [exact Hrun | |].
  - intros s s1 s2 _. apply sched_step_ticks_nonneg, Hq.
  - intros e [<-|[]]. cbn. lia.
Qed.

Lemma run_steps_none (row0 scale : list Z) (cfg : RenderConfig) (steps : Z) :
  steps <= 0 -> run_steps row0 scale cfg steps = Ok (sched_init row0 cfg).
Proof.
  intros H. unfold run_steps, range.
  replace (Z.to_nat steps) with 0%nat by lia. reflexivity.
Qed.

Lemma sorted_notes_empty : sorted_notes ∅ = [].
Proof. unfold sorted_notes. rewrite elements_empty. reflexivity. Qed.

Lemma sorted_notes_In (active : gset Z) (n : Z) :
  In n (sorted_notes active) <-> n ∈ active.
Proof.
  unfold sorted_notes. rewrite <- elem_of_elements, <- !list_elem_of_In.
  rewrite merge_sort_Permutation. reflexivity.
Qed.

Lemma sorted_notes_NoDup (active : gset Z) : NoDup (sorted_notes active).
Proof.
  unfold sorted_notes. rewrite merge_sort_Permutation. apply NoDup_elements.
Qed.

Lemma final_flush_ticks_nonneg (row0 scale : list Z) (cfg : RenderConfig)
  (steps : Z) (st : sched_state) :
  0 <= q cfg -> run_steps row0 scale cfg steps = Ok st ->
  ticks_nonneg (events (final_flush cfg steps st)).
Proof.
  intros Hq Hrun.
  pose proof (run_steps_ticks_nonneg _ _ _ _ _ Hq Hrun) as Hnn.
  unfold final_flush. destruct (negb (staccato_of cfg)); [|exact Hnn].
  cbn [events]. intros e Hin.
  apply in_app_or in Hin as [Hin|Hin]; [apply Hnn, Hin|].
  apply in_map_iff in Hin as (n & <- & Hn). cbn [fst].
  destruct (Z_lt_le_dec steps 0) as [Hneg|Hpos]; [|nia].
  rewrite run_steps_none in Hrun by lia. injection Hrun as <-.
  cbn [sched_init active_notes] in Hn. rewrite sorted_notes_empty in Hn.
  destruct Hn.
Qed.

(** C3 (as the code has it). The packing loop gives every message the time
    [max(0, delta)]: a negative delta-tick is replaced by zero and no error
    is raised.  Whenever the step length is not negative, every event lies
    at a tick >= 0 and the sort leaves no negative delta, so the written
    times are the exact delta-ticks. *)
Theorem track_times_are_clamped_deltas (row0 scale : list Z)
  (cfg : RenderConfig) :
  (forall evs : list event, pack_track evs = map clamp_delta (deltas 0 evs)) /\
  (forall (evs : list event) (out : MidiFile * string),
     0 <= q cfg ->
     final_events row0 scale cfg = Ok evs ->
     schedule_events row0 scale cfg = Ok out ->
     track (fst out) = deltas 0 evs /\
     Forall (fun d => 0 <= fst d) (track (fst out))).
Proof.
  split; [apply pack_track_clamps|].
  intros evs out Hq Hev Hout.
  unfold schedule_events in Hout. rewrite Hev in Hout. cbn [bind] in Hout.
  injection Hout as <-. cbn [fst track].
  assert (Hd : Forall (fun d => 0 <= fst d) (deltas 0 evs)).
  { unfold final_events, scheduled in Hev.
    destruct (steps_for_8_seconds cfg) as [e|steps]; [discriminate|].
    cbn [bind] in Hev.
    destruct (run_steps row0 scale cfg steps) as [e|st] eqn:Erun;
      [discriminate|]. cbn [bind] in Hev. injection Hev as <-.
    apply deltas_nonneg; [apply sort_events_strongly_sorted|].
    intros e He. apply (proj1 (sort_events_In _ _)) in He.
    apply (final_flush_ticks_nonneg _ _ _ _ _ Hq Erun e He). }
  rewrite pack_track_clamps, clamp_delta_id by exact Hd.
  split; [reflexivity | exact Hd].
Qed.

Lemma track_times_are_clamped_deltas_witness :
  exists (evs : list event) (out : MidiFile * string),
    final_events row5 scale5 cfg_default = Ok evs /\
    schedule_events row5 scale5 cfg_default = Ok out /\
    track (fst out) = deltas 0 evs /\
    Forall (fun d => 0 <= fst d) (track (fst out)).
Proof.
  destruct (final_events row5 scale5 cfg_default) as [e|evs] eqn:Ev;
    [vm_compute in Ev; discriminate|].
  destruct (schedule_events row5 scale5 cfg_default) as [e|out] eqn:Eo;
    [vm_compute in Eo; discriminate|].
  exists evs, out. split; [reflexivity|]. split; [reflexivity|].
  apply (proj2 (track_times_are_clamped_deltas row5 scale5 cfg_default)
           evs out); [cbn; lia | exact Ev | exact Eo].
Defined.

(** C3 as stated fails: with step length -240 the first event of the final
    sequence lies at tick -7680, its delta-tick is negative, and the file is
    written with time 0 for it, as for an event at tick 0; no error. *)
Lemma negative_delta_counterexample :
  exists (evs : list event) (out : MidiFile * string),
    final_events row5 scale5 cfg_negative = Ok evs /\
    schedule_events row5 scale5 cfg_negative = Ok out /\
    hd_error evs = Some (-7680, NoteOff 60) /\
    -7680 - 0 < 0 /\
    hd_error (track (fst out)) = Some (0, NoteOff 60) /\
    hd_error (pack_track [(0, NoteOff 60)]) = Some (0, NoteOff 60).
Proof.
  destruct (final_events row5 scale5 cfg_negative) as [e|evs] eqn:Ev;
    [vm_compute in Ev; discriminate|].
  destruct (schedule_events row5 scale5 cfg_negative) as [e|out] eqn:Eo;
    [vm_compute in Eo; discriminate|].
  exists evs, out. split; [reflexivity|]. split; [reflexivity|].
  vm_compute in Ev. injection Ev as <-.
  vm_compute in Eo. injection Eo as <-.
  repeat split; reflexivity || lia.
Qed.

(** ** Sustain mode: starts and stops *)

Lemma sounding_app (p : Z) (l1 l2 : list event) :
  sounding p (l1 ++ l2) = sounding p l1 + sounding p l2.
Proof.
  unfold sounding, count_starts, count_stops.
  rewrite !List.filter_app, !length_app. lia.
Qed.

Lemma sounding_nil (p : Z) : sounding p [] = 0.
Proof. reflexivity. Qed.

Lemma sounding_stop (p t n : Z) :
  sounding p [(t, NoteOff n)] = if decide (n = p) then -1 else 0.
Proof.
  unfold sounding, count_starts, count_stops, starts_of, stops_of. cbn.
  destruct (Z.eqb_spec n p); destruct (decide (n = p)); try contradiction;
    reflexivity.
Qed.

Lemma sounding_start (p t n v : Z) :
  sounding p [(t, NoteOn n v)] = if decide (n = p) then 1 else 0.
Proof.
  unfold sounding, count_starts, count_stops, starts_of, stops_of. cbn.
  destruct (Z.eqb_spec n p); destruct (decide (n = p)); try contradiction;
    reflexivity.
Qed.

Lemma tracked_snoc (evs : list event) (active active' : gset Z) (e : event) :
  tracked evs active ->
  (forall p, sounding p (evs ++ [e]) = if decide (p ∈ active') then 1 else 0) ->
  tracked (evs ++ [e]) active'.
Proof.
  intros Ht Hnew p. destruct (Ht p) as [Hpre _]. split; [|apply Hnew].
  intros k. destruct (decide (k <= length evs)%nat) as [Hk|Hk].
  - rewrite take_app_le by exact Hk. apply Hpre.
  - rewrite take_ge by (rewrite length_app; cbn; lia).
    rewrite Hnew. destruct (decide (p ∈ active')); lia.
Qed.

Lemma tracked_stop (evs : list event) (active : gset Z) (t n : Z) :
  tracked evs active -> n ∈ active ->
  tracked (evs ++ [(t, NoteOff n)]) (active ∖ {[n]}).
Proof.
  intros Ht Hn. apply (tracked_snoc _ active); [exact Ht|].
  intros p. rewrite sounding_app, sounding_stop.
  destruct (Ht p) as [_ ->].
  destruct (decide (n = p)) as [->|Hne].
  - destruct (decide (p ∈ active)); [|contradiction].
    destruct (decide (p ∈ active ∖ {[p]})); [set_solver | reflexivity].
  - destruct (decide (p ∈ active)); destruct (decide (p ∈ active ∖ {[n]}));
      try reflexivity; set_solver.
Qed.

Lemma tracked_start (evs : list event) (active : gset Z) (t n v : Z) :
  tracked evs active -> n ∉ active ->
  tracked (evs ++ [(t, NoteOn n v)]) (active ∪ {[n]}).
Proof.
  intros Ht Hn. apply (tracked_snoc _ active); [exact Ht|].
  intros p. rewrite sounding_app, sounding_start.
  destruct (Ht p) as [_ ->].
  destruct (decide (n = p)) as [->|Hne].
  - destruct (decide (p ∈ active)); [contradiction|].
    destruct (decide (p ∈ active ∪ {[p]})); [reflexivity | set_solver].
  - destruct (decide (p ∈ active)); destruct (decide (p ∈ active ∪ {[n]}));
      try reflexivity; set_solver.
Qed.

Lemma tracked_set_eq (evs : list event) (a1 a2 : gset Z) :
  a1 = a2 -> tracked evs a1 -> tracked evs a2.
Proof. intros ->. auto. Qed.

Lemma tracked_death_stops (t : Z) (deaths : list (Z * nat)) :
  forall (evs : list event) (active : gset Z),
    tracked evs active ->
    tracked (evs ++ map (stop_at t) (death_stops active deaths))
      (active ∖ list_to_set (map fst deaths)).
Proof.
  induction deaths as [|d deaths IH]; intros evs active Ht; cbn.
  - rewrite app_nil_r. eapply tracked_set_eq; [|exact Ht]. set_solver.
  - destruct (decide (fst d ∈ active)) as [Hin|Hin]; cbn [map].
    + change (evs ++ stop_at t (fst d) :: ?l)
        with (evs ++ [stop_at t (fst d)] ++ l).
      rewrite app_assoc.
      eapply tracked_set_eq; [|apply IH, tracked_stop; eassumption].
      set_solver.
    + eapply tracked_set_eq; [|apply IH; exact Ht]. set_solver.
Qed.

Lemma tracked_births (t : Z) (age : list Z) (births : list (Z * nat)) :
  forall (evs : list event) (active : gset Z),
    tracked evs active ->
    NoDup (map fst births) ->
    (forall b, In b births -> fst b ∉ active) ->
    tracked (evs ++ map (start_at t age) births)
      (active ∪ list_to_set (map fst births)).
Proof.
  induction births as [|b births IH]; intros evs active Ht Hnd Hfresh; cbn.
  - rewrite app_nil_r. eapply tracked_set_eq; [|exact Ht]. set_solver.
  - cbn in Hnd. apply NoDup_cons in Hnd as [Hb Hnd].
    change (evs ++ start_at t age b :: ?l)
      with (evs ++ [start_at t age b] ++ l).
    rewrite app_assoc.
    eapply tracked_set_eq;
      [|apply IH; [apply tracked_start; [exact Ht|] | exact Hnd |]].
    + set_solver.
    + apply Hfresh. left. reflexivity.
    + intros b' Hb' Hin. apply elem_of_union in Hin as [Hin|Hin].
      * apply (Hfresh b'); [right; exact Hb' | exact Hin].
      * apply elem_of_singleton in Hin. apply Hb.
        rewrite <- Hin. apply list_elem_of_In, in_map, Hb'.
Qed.

Lemma tracked_flush (t : Z) (notes : list Z) :
  forall (evs : list event) (active : gset Z),
    tracked evs active ->
    NoDup notes ->
    (forall n, In n notes <-> n ∈ active) ->
    tracked (evs ++ map (stop_at t) notes) ∅.
Proof.
  induction notes as [|n notes IH]; intros evs active Ht Hnd Hiff; cbn.
  - rewrite app_nil_r. eapply tracked_set_eq; [|exact Ht].
    apply set_eq. intros x. rewrite <- Hiff. cbn. set_solver.
  - apply NoDup_cons in Hnd as [Hn Hnd].
    change (evs ++ stop_at t n :: ?l) with (evs ++ [stop_at t n] ++ l).
    rewrite app_assoc.
    apply (IH _ (active ∖ {[n]})).
    + apply tracked_stop; [exact Ht|]. apply Hiff. left. reflexivity.
    + exact Hnd.
    + intros m. rewrite elem_of_difference, elem_of_singleton, <- Hiff. cbn.
      split.
      * intros Hm. split; [right; exact Hm|].
        intros ->. apply Hn, list_elem_of_In, Hm.
      * intros [[->|Hm] Hne]; [contradiction | exact Hm].
Qed.

Lemma tracked_each_start_has_one_stop (evs : list event) :
  tracked evs ∅ -> each_start_has_one_stop evs.
Proof.
  intros Ht p. destruct (Ht p) as [Hpre Hend].
  unfold sounding in *. split.
  - destruct (decide (p ∈ (∅ : gset Z))); [set_solver|]. lia.
  - intros k. specialize (Hpre k). lia.
Qed.

Lemma strongly_sorted_all {A : Type} (R : A -> A -> Prop) (l : list A) :
  (forall x y, In x l -> In y l -> R x y) -> StronglySorted R l.
Proof.
  induction l as [|a l IH]; intros H; constructor.
  - apply IH. intros x y Hx Hy. apply H; right; assumption.
  - apply Forall_forall. intros y Hy. apply list_elem_of_In in Hy.
    apply H; [left; reflexivity | right; exact Hy].
Qed.

Lemma births_of_NoDup (row nxt scale : list Z) (W : nat) (idxs : list nat) :
  distinct_pitches W scale ->
  NoDup idxs -> (forall i, In i idxs -> (i < W)%nat) ->
  NoDup (map fst (births_of row nxt scale idxs)).
Proof.
  intros Hd. induction idxs as [|i idxs IH]; intros Hnd Hlt; [constructor|].
  apply NoDup_cons in Hnd as [Hi Hnd].
  assert (IH' : NoDup (map fst (births_of row nxt scale idxs))).
  { apply IH; [exact Hnd|]. intros j Hj. apply Hlt. right. exact Hj. }
  unfold births_of in *. cbn [flat_map].
  destruct ((nth i nxt 0 =? 1) && negb (nth i row 0 =? 1)); [|exact IH'].
  cbn. apply NoDup_cons. split; [|exact IH'].
  intros Hin. apply list_elem_of_In, in_map_iff in Hin as (b & Hb & Hin).
  apply (births_of_In row nxt scale idxs b) in Hin as (Hbi & Hbn & _).
  apply Hi, list_elem_of_In.
  replace i with (snd b); [exact Hbi|].
  apply Hd; [apply Hlt; right; exact Hbi | apply Hlt; left; reflexivity|].
  congruence.
Qed.

Section SustainRun.

Variables (row0 scale : list Z) (cfg : RenderConfig).
Hypothesis Hmode : staccato_of cfg = false.
Hypothesis Hq : 0 < q cfg.
Hypothesis Hdist : distinct_pitches (length row0) scale.

Lemma sustain_inv_init :
  sustain_inv row0 scale (q cfg) 0 (sched_init row0 cfg).
Proof.
  unfold sustain_inv, sched_init. cbn [row events active_notes].
  split; [reflexivity|]. split; [set_solver|]. split; [|split].
  - intros p. split.
    + intros [|k]; cbn [take]; rewrite ?take_nil; unfold sounding; cbn; lia.
    + destruct (decide (p ∈ (∅ : gset Z))); [set_solver | reflexivity].
  - repeat constructor.
  - intros e [<-|[]]. reflexivity.
Qed.

Lemma sustain_inv_step (k : nat) (st st' : sched_state) :
  sustain_inv row0 scale (q cfg) k st ->
  sched_step cfg scale st k = Ok st' ->
  sustain_inv row0 scale (q cfg) (S k) st'.
Proof.
  intros (Hlen & Hact & Htr & Hss & Hkey) Hstep.
  apply sched_step_inv in Hstep as (nxt & Hnxt & Hcase).
  destruct Hcase as [[_ Hs] | [Hst _]]; [|congruence].
  apply sustain_step_inv in Hs as (Hrow & Hcl & Hev & Hact').
  rewrite Hlen in *.
  set (base := Z.of_nat k * q cfg) in *.
  set (births := births_of (row st) nxt scale (seq 0 (length row0))) in *.
  set (deaths := deaths_of (row st) nxt scale (seq 0 (length row0))) in *.
  set (stops := map (stop_at base) (death_stops (active_notes st) deaths)) in *.
  set (starts := map (start_at base (age st')) births) in *.
  assert (Hfresh : forall b, In b births ->
            fst b ∉ active_notes st ∖ list_to_set (map fst deaths)).
  { intros b Hb Hin. apply elem_of_difference in Hin as [Hin _].
    apply births_of_In in Hb as (Hbi & Hbn & _ & Hwas).
    apply in_seq in Hbi.
    destruct (Hact _ Hin) as (j & Hj & Hpj & Hrj).
    assert (snd b = j) by (apply Hdist; [lia | exact Hj | congruence]).
    subst j. contradiction. }
  split; [|split; [|split; [|split]]].
  - rewrite Hrow, (next_toroidal_length _ _ Hnxt). exact Hlen.
  - intros p Hp. rewrite Hact' in Hp. rewrite Hrow.
    apply elem_of_union in Hp as [Hp|Hp].
    + apply elem_of_difference in Hp as [Hp Hnd].
      destruct (Hact _ Hp) as (j & Hj & Hpj & Hrj).
      exists j. split; [exact Hj|]. split; [exact Hpj|].
      destruct (Z.eq_dec (nth j nxt 0) 1) as [E|E]; [exact E|].
      exfalso. apply Hnd. apply elem_of_list_to_set, list_elem_of_In.
      apply in_map_iff. exists (p, j). split; [reflexivity|].
      apply deaths_of_In. cbn [fst snd].
      split; [apply in_seq; lia|]. auto.
    + apply elem_of_list_to_set, list_elem_of_In, in_map_iff in Hp
        as (b & <- & Hb).
      apply births_of_In in Hb as (Hbi & Hbn & Hnow & _).
      apply in_seq in Hbi. exists (snd b). split; [lia|]. auto.
  - rewrite Hev, Hact', app_assoc.
    apply tracked_births; [apply tracked_death_stops, Htr | | exact Hfresh].
    apply (births_of_NoDup _ _ _ (length row0)); [exact Hdist | apply NoDup_seq|].
    intros i Hi. apply in_seq in Hi. lia.
  - rewrite Hev. apply StronglySorted_app_2; [|exact Hss|].
    + intros x y Hx Hy. apply list_elem_of_In in Hx, Hy.
      specialize (Hkey x Hx). fold base in Hkey.
      assert (Hy' : fst y = base /\ 0 <= priority (snd y)).
      { apply in_app_or in Hy as [Hy|Hy];
          apply in_map_iff in Hy as (z & <- & _); cbn; split; lia. }
      unfold event_le, key_le, sort_key, key_lt in *. cbn [fst snd] in *. lia.
    + apply StronglySorted_app_2.
      * intros x y Hx Hy. apply list_elem_of_In in Hx, Hy.
        apply in_map_iff in Hx as (x' & <- & _).
        apply in_map_iff in Hy as (y' & <- & _).
        key_order.
      * apply strongly_sorted_all. intros x y Hx Hy.
        apply in_map_iff in Hx as (x' & <- & _).
        apply in_map_iff in Hy as (y' & <- & _).
        key_order.
      * apply strongly_sorted_all. intros x y Hx Hy.
        apply in_map_iff in Hx as (x' & <- & _).
        apply in_map_iff in Hy as (y' & <- & _).
        key_order.
  - assert (Hnext : Z.of_nat (S k) * q cfg = base + q cfg)
      by (subst base; lia).
    rewrite Hnext.
    intros e He. rewrite Hev in He.
    apply in_app_or in He as [He|He].
    + specialize (Hkey e He).
      unfold key_lt, sort_key in *. cbn [fst snd] in *. lia.
    + assert (Hy' : fst e = base).
      { apply in_app_or in He as [He|He];
          apply in_map_iff in He as (z & <- & _); reflexivity. }
      unfold key_lt, sort_key. cbn [fst snd]. lia.
Qed.

Lemma sustain_run_invariant (k : nat) (st : sched_state) :
  for_each (sched_step cfg scale) (seq 0 k) (sched_init row0 cfg) = Ok st ->
  sustain_inv row0 scale (q cfg) k st.
Proof.
  intros Hrun.
  apply (for_each_invariant _ (sustain_inv row0 scale (q cfg)) k 0 _ _)
    in Hrun; [exact Hrun | apply sustain_inv_init |].
  intros i s1 s2 _. apply sustain_inv_step.
Qed.

End SustainRun.

Lemma final_flush_sustain (cfg : RenderConfig) (steps : Z) (st : sched_state) :
  staccato_of cfg = false ->
  events (final_flush cfg steps st)
  = events st
    ++ map (stop_at (steps * q cfg)) (sorted_notes (active_notes st)) /\
  active_notes (final_flush cfg steps st) = ∅.
Proof.
  intros Hmode. unfold final_flush. rewrite Hmode. cbn. auto.
Qed.

(** C5 (as the code has it). In sustain mode, once the steps are scheduled,
    every pitch still in the active set gets a note-stop at exactly tick
    [steps * q], and the active set is empty when scheduling completes.
    When the step length is positive and the scale gives different columns
    different pitches, every note-start of the final sequence has exactly one
    matching note-stop, and no note-stop lies after the final tick. *)
Theorem sustain_flush (row0 scale : list Z) (cfg : RenderConfig) (steps : Z)
  (st_loop : sched_state) :
  staccato_of cfg = false ->
  steps_for_8_seconds cfg = Ok steps ->
  run_steps row0 scale cfg steps = Ok st_loop ->
  scheduled row0 scale cfg = Ok (final_flush cfg steps st_loop) /\
  final_events row0 scale cfg
  = Ok (sort_events (events (final_flush cfg steps st_loop))) /\
  (forall n : Z,
     n ∈ active_notes st_loop ->
     In (steps * q cfg, NoteOff n)
       (sort_events (events (final_flush cfg steps st_loop)))) /\
  active_notes (final_flush cfg steps st_loop) = ∅ /\
  (0 < q cfg -> distinct_pitches (length row0) scale ->
   each_start_has_one_stop
     (sort_events (events (final_flush cfg steps st_loop))) /\
   forall t n : Z,
     In (t, NoteOff n) (sort_events (events (final_flush cfg steps st_loop))) ->
     t <= steps * q cfg).
Proof.
  intros Hmode Hsteps Hrun.
  destruct (final_flush_sustain cfg steps st_loop Hmode) as [Hev Hact].
  assert (Hsch : scheduled row0 scale cfg = Ok (final_flush cfg steps st_loop)).
  { unfold scheduled. rewrite Hsteps. cbn [bind]. rewrite Hrun. reflexivity. }
  split; [exact Hsch|]. split.
  { unfold final_events. rewrite Hsch. reflexivity. }
  split.
  { intros n Hn. apply (proj2 (sort_events_In _ _)). rewrite Hev.
    apply in_or_app. right.
    change (steps * q cfg, NoteOff n) with (stop_at (steps * q cfg) n).
    apply in_map, sorted_notes_In, Hn. }
  split; [exact Hact|].
  intros Hq Hdist.
  pose proof Hrun as Hinv. unfold run_steps, range in Hinv.
  apply (sustain_run_invariant _ _ _ Hmode Hq Hdist) in Hinv
    as (_ & _ & Htr & Hss & Hkey).
  assert (Hcase : Z.of_nat (Z.to_nat steps) = steps \/
                  sorted_notes (active_notes st_loop) = []).
  { destruct (Z_lt_le_dec steps 0) as [Hneg|Hpos]; [right | left; lia].
    rewrite run_steps_none in Hrun by lia. injection Hrun as <-.
    apply sorted_notes_empty. }
  assert (Hsorted : StronglySorted event_le
                      (events (final_flush cfg steps st_loop))).
  { rewrite Hev. destruct Hcase as [Hk|Hnil].
    - rewrite Hk in Hkey. apply StronglySorted_app_2; [|exact Hss|].
      + intros x y Hx Hy. apply list_elem_of_In in Hx, Hy.
        specialize (Hkey x Hx).
        apply in_map_iff in Hy as (n & <- & _).
        key_order.
      + apply strongly_sorted_all. intros x y Hx Hy.
        apply in_map_iff in Hx as (x' & <- & _).
        apply in_map_iff in Hy as (y' & <- & _).
        key_order.
    - rewrite Hnil. cbn. rewrite app_nil_r. exact Hss. }
  rewrite (sort_events_id _ Hsorted). split.
  - apply tracked_each_start_has_one_stop. rewrite Hev.
    apply (tracked_flush _ _ _ (active_notes st_loop));
      [exact Htr | apply sorted_notes_NoDup | apply sorted_notes_In].
  - intros t n Hin. rewrite Hev in Hin.
    apply in_app_or in Hin as [Hin|Hin].
    + specialize (Hkey _ Hin). destruct Hcase as [Hk|Hnil].
      * rewrite Hk in Hkey. unfold key_lt, sort_key in Hkey.
        cbn [fst snd priority] in Hkey. lia.
      * destruct (Z_lt_le_dec steps 0) as [Hneg|Hpos].
        -- rewrite run_steps_none in Hrun by lia. injection Hrun as <-.
           destruct Hin as [Hin|[]]. discriminate.
        -- replace (Z.of_nat (Z.to_nat steps)) with steps in Hkey by lia.
           unfold key_lt, sort_key in Hkey.
           cbn [fst snd priority] in Hkey. lia.
    + apply in_map_iff in Hin as (m & Hm & _). injection Hm as <- _. lia.
Qed.

Lemma scale5_distinct : distinct_pitches (length row5) scale5.
Proof.
  intros i j Hi Hj. cbn in Hi, Hj.
  do 5 (destruct i as [|i];
        [do 5 (destruct j as [|j];
               [cbn; first [reflexivity | discriminate]|]); lia|]).
  lia.
Qed.

Lemma sustain_flush_witness :
  exists st_loop : sched_state,
    run_steps row5 scale5 cfg_default 32 = Ok st_loop /\
    active_notes (final_flush cfg_default 32 st_loop) = ∅ /\
    each_start_has_one_stop
      (sort_events (events (final_flush cfg_default 32 st_loop))).
Proof.
  destruct (run_steps row5 scale5 cfg_default 32) as [e|st_loop] eqn:E;
    [vm_compute in E; discriminate|].
  exists st_loop. split; [reflexivity|].
  destruct (sustain_flush row5 scale5 cfg_default 32 st_loop)
    as (_ & _ & _ & Hact & Hrest); [reflexivity | reflexivity | exact E |].
  split; [exact Hact|].
  apply Hrest; [cbn; lia | apply scale5_distinct].
Defined.

(** C5 as stated fails when two columns share a pitch: with the scale
    [60; 72; 72; 84] and the row [0; 0; 1; 0], pitch 72 is started 16 times
    and stopped 9 times (it is started at ticks 720 and 960 with no stop in
    between). *)
Lemma sustain_flush_counterexample :
  exists evs : list event,
    gate cfg_default = None /\
    final_events row4 scale_octaves cfg_default = Ok evs /\
    take 10 evs
    = [(0, MetaSetTempo 120); (0, NoteOn 72 40); (0, NoteOn 84 40);
       (240, NoteOff 84); (240, NoteOn 60 40); (480, NoteOff 72);
       (480, NoteOn 84 40); (720, NoteOn 72 40); (960, NoteOff 60);
       (960, NoteOn 72 40)] /\
    count_starts 72 evs = 16%nat /\
    count_stops 72 evs = 9%nat /\
    ~ each_start_has_one_stop evs.
Proof.
  destruct (final_events row4 scale_octaves cfg_default) as [e|evs] eqn:E;
    [vm_compute in E; discriminate|].
  exists evs. split; [reflexivity|]. split; [reflexivity|].
  vm_compute in E. injection E as <-.
  split; [reflexivity|]. split; [reflexivity|]. split; [reflexivity|].
  intros H. destruct (H 72) as [Heq _]. vm_compute in Heq. discriminate.
Qed.

(** * Further properties of the rule engine *)

Lemma collect_Ok_lookup (cell : nat -> result Z) (idxs : list nat)
  (vs : list Z) :
  collect cell idxs = Ok vs ->
  forall (k : nat) (v : Z), vs !! k = Some v ->
    exists i : nat, idxs !! k = Some i /\ cell i = Ok v.
Proof.
  revert vs. induction idxs as [|i idxs IH]; cbn; intros vs.
  - intros [= <-] k v Hk. rewrite lookup_nil in Hk. discriminate.
  - destruct (cell i) as [e|w] eqn:Ei; cbn; [discriminate|].
    destruct (collect cell idxs) as [e|ws]; cbn; [discriminate|].
    intros [= <-] k v Hk. destruct k as [|k]; cbn in Hk.
    + injection Hk as <-. exists i. auto.
    + apply (IH ws eq_refl k v Hk).
Qed.

Lemma collect_Raise_iff (cell : nat -> result Z) (idxs : list nat) :
  (exists e, collect cell idxs = Raise e) <->
  (exists i e, In i idxs /\ cell i = Raise e).
Proof.
  induction idxs as [|i idxs IH]; cbn.
  - split; [intros [e [=]] | intros (i & e & [] & _)].
  - destruct (cell i) as [e|w] eqn:Ei; cbn.
    + split; [|eauto]. intros _. exists i, e. auto.
    + destruct (collect cell idxs) as [e|ws]; cbn.
      * split; [|eauto]. intros _.
        destruct (proj1 IH (ex_intro _ e eq_refl)) as (j & e' & Hj & He).
        exists j, e'. auto.
      * split; [intros [e [=]]|].
        intros (j & e & [<-|Hj] & He); [congruence|].
        destruct (proj2 IH (ex_intro _ j (ex_intro _ e (conj Hj He))))
          as [e' [=]].
Qed.

Lemma step_cell_key (p : boundary) (r : list Z) (i : nat) :
  (i < length r)%nat ->
  (match p with
   | Toroidal => toroidal_cell r
   | FixedZero => fixed0_cell r
   end) i
  = rule190_lookup (neighborhood_key (neighbor p r i (-1))
                      (cell_at r (Z.of_nat i)) (neighbor p r i 1)).
Proof.
  destruct p; [apply toroidal_cell_key | apply fixed0_cell_key].
Qed.

Lemma step_with_collect (p : boundary) (r : list Z) :
  step_with p r
  = collect (match p with
             | Toroidal => toroidal_cell r
             | FixedZero => fixed0_cell r
             end) (seq 0 (length r)).
Proof.
  destruct p; [apply next_toroidal_collect | apply next_fixed0_collect].
Qed.

Lemma step_with_Ok_binary (p : boundary) (r nxt : list Z) :
  step_with p r = Ok nxt -> is_binary nxt = true.
Proof.
  intros H. rewrite step_with_collect in H.
  unfold is_binary. apply forallb_forall. intros v Hv.
  apply list_elem_of_In, list_elem_of_lookup in Hv as [k Hk].
  destruct (collect_Ok_lookup _ _ _ H k v Hk) as (i & Hi & Hc).
  apply lookup_seq in Hi as [-> Hi]. cbn in Hc.
  rewrite step_cell_key in Hc by exact Hi.
  apply rule190_lookup_value in Hc. unfold is_bit. lia.
Qed.

(** X1. Whatever the cells of the row are, a step that returns gives a row
    of the same length whose cells are all 0 or 1, under either boundary
    policy: the result of a step can always be stepped again. *)
Theorem step_output_is_binary (p : boundary) (r nxt : list Z) :
  step_with p r = Ok nxt ->
  length nxt = length r /\ is_binary nxt = true /\
  exists nxt2 : list Z, step_with p nxt = Ok nxt2.
Proof.
  intros H. pose proof (step_with_Ok_binary p r nxt H) as Hbin.
  rewrite step_with_collect in H.
  assert (Hlen : length nxt = length r).
  { apply collect_length in H. rewrite length_seq in H. exact H. }
  split; [exact Hlen|]. split; [exact Hbin|].
  eexists. apply step_with_binary, Hbin.
Qed.

Lemma step_output_is_binary_witness :
  length [1; 1] = length [0; 2] /\ is_binary [1; 1] = true /\
  exists nxt2 : list Z, step_with FixedZero [1; 1] = Ok nxt2.
Proof.
  apply (step_output_is_binary FixedZero [0; 2] [1; 1]).
  vm_compute. reflexivity.
Defined.

(** X2. The only exception a step can raise is [KeyError], and it raises it
    exactly when the neighbourhood key of some cell is not a key of
    [RULE190]; it never raises [IndexError]. *)
Theorem step_raises_only_KeyError (p : boundary) (r : list Z) :
  (forall e : exn, step_with p r = Raise e -> e = KeyError) /\
  ((exists e : exn, step_with p r = Raise e) <->
   (exists i : nat,
      (i < length r)%nat /\
      RULE190 !! neighborhood_key (neighbor p r i (-1))
                   (cell_at r (Z.of_nat i)) (neighbor p r i 1) = None)).
Proof.
  rewrite step_with_collect. split.
  - intros e He. apply (collect_error _ _ KeyError) in He; [exact He|].
    intros i e' Hi. apply in_seq in Hi.
    rewrite step_cell_key by lia. apply rule190_lookup_error.
  - rewrite collect_Raise_iff. split.
    + intros (i & e & Hi & He). apply in_seq in Hi. exists i.
      split; [lia|]. rewrite step_cell_key in He by lia.
      unfold rule190_lookup in He. destruct (RULE190 !! _); [discriminate|].
      reflexivity.
    + intros (i & Hi & Hk). exists i, KeyError.
      split; [apply in_seq; lia|]. rewrite step_cell_key by exact Hi.
      unfold rule190_lookup. rewrite Hk. reflexivity.
Qed.

Lemma step_raises_only_KeyError_witness :
  exists e : exn, step_with Toroidal [0; 3; 0] = Raise e.
Proof.
  apply (proj2 (proj2 (step_raises_only_KeyError Toroidal [0; 3; 0]))).
  exists 2%nat. split; [cbn; lia | vm_compute; reflexivity].
Defined.

Example step_key_error : next_rule190_toroidal [0; 3; 0] = Raise KeyError.
Proof. vm_compute. reflexivity. Qed.

Lemma neighbor_closed_ends (r : list Z) (i : nat) (d : Z) :
  (i < length r)%nat -> d = -1 \/ d = 1 ->
  cell_at r 0 = 0 -> cell_at r (Z.of_nat (length r) - 1) = 0 ->
  neighbor Toroidal r i d = neighbor FixedZero r i d.
Proof.
  intros Hi Hd H0 HW. unfold neighbor.
  set (W := Z.of_nat (length r)) in *.
  destruct (Z_lt_le_dec (Z.of_nat i + d) 0) as [Hlo|Hlo].
  - assert (E : Z.of_nat i + d = -1) by lia. rewrite E.
    rewrite <- (Z_mod_plus_full (-1) 1 W).
    rewrite Z.mod_small by lia.
    replace (-1 + 1 * W) with (W - 1) by lia.
    rewrite HW. symmetry. apply cell_at_outside. lia.
  - destruct (Z_lt_le_dec (Z.of_nat i + d) W) as [Hhi|Hhi].
    + rewrite Z.mod_small by lia. reflexivity.
    + assert (E : Z.of_nat i + d = W) by lia. rewrite E.
      rewrite Z_mod_same_full, H0. symmetry. apply cell_at_outside.
      fold W. lia.
Qed.

(** X3. On a row whose first and last cells are 0 the two boundary policies
    give the same result: wrapping around reads the same zeros the
    fixed-zero policy assumes. *)
Theorem closed_ends_policies_agree (r : list Z) :
  cell_at r 0 = 0 -> cell_at r (Z.of_nat (length r) - 1) = 0 ->
  next_rule190_toroidal r = next_rule190_fixed0 r.
Proof.
  intros H0 HW. rewrite next_toroidal_collect, next_fixed0_collect.
  rewrite (collect_ext _ (fixed0_cell r) (fun i => i)).
  - rewrite map_id. reflexivity.
  - intros i Hi. apply in_seq in Hi.
    rewrite toroidal_cell_key, fixed0_cell_key by lia.
    rewrite !neighbor_closed_ends by (lia || auto). reflexivity.
Qed.

Lemma closed_ends_policies_agree_witness :
  next_rule190_toroidal [0; 1; 1; 0; 1; 0] = next_rule190_fixed0 [0; 1; 1; 0; 1; 0].
Proof. apply closed_ends_policies_agree; reflexivity. Defined.

Lemma cell_at_replicate (W : nat) (x : Z) (j : Z) :
  cell_at (replicate W x) j
  = if (0 <=? j) && (j <? Z.of_nat W) then x else 0.
Proof.
  unfold cell_at. rewrite length_replicate.
  destruct ((0 <=? j) && (j <? Z.of_nat W)) eqn:E; [|reflexivity].
  apply andb_true_iff in E as [E1 E2].
  apply Z.leb_le in E1. apply Z.ltb_lt in E2.
  apply nth_lookup_Some, lookup_replicate_2. lia.
Qed.

Lemma is_binary_replicate (W : nat) (x : Z) :
  x = 0 \/ x = 1 -> is_binary (replicate W x) = true.
Proof.
  intros Hx. unfold is_binary. apply forallb_forall. intros y Hy.
  apply list_elem_of_In, elem_of_replicate in Hy as [-> _].
  unfold is_bit. lia.
Qed.

(** X4. The all-zero row of any width is a fixed point of the step under
    both boundary policies, and the all-one row of any width is a fixed
    point of the toroidal step. *)
Theorem uniform_rows_are_fixed_points (W : nat) :
  next_rule190_toroidal (replicate W 0) = Ok (replicate W 0) /\
  next_rule190_fixed0 (replicate W 0) = Ok (replicate W 0) /\
  next_rule190_toroidal (replicate W 1) = Ok (replicate W 1).
Proof.
  assert (Hall : forall (p : boundary) (x : Z),
            (x = 0 \/ (x = 1 /\ p = Toroidal)) ->
            step_with p (replicate W x) = Ok (replicate W x)).
  { intros p x Hx. rewrite step_with_binary
      by (apply is_binary_replicate; tauto).
    rewrite length_replicate. f_equal.
    apply list_eq. intros i. change (map ?f ?l) with (f <$> l).
    rewrite list_lookup_fmap.
    destruct (decide (i < W)%nat) as [Hi|Hi].
    - rewrite lookup_seq_lt, lookup_replicate_2 by exact Hi. cbn. f_equal.
      destruct Hx as [-> | [-> ->]].
      + assert (Hz : forall j, cell_at (replicate W 0) j = 0).
        { intros j. rewrite cell_at_replicate. destruct (_ && _); reflexivity. }
        unfold neighbor. destruct p; rewrite !Hz; reflexivity.
      + assert (HW : 0 < Z.of_nat W) by lia.
        unfold neighbor. rewrite length_replicate.
        pose proof (Z.mod_pos_bound (Z.of_nat i + -1) _ HW).
        pose proof (Z.mod_pos_bound (Z.of_nat i + 1) _ HW).
        rewrite !cell_at_replicate.
        repeat match goal with
               | |- context [Z.leb ?a ?b] => destruct (Z.leb_spec a b); [|lia]
               | |- context [Z.ltb ?a ?b] => destruct (Z.ltb_spec a b); [|lia]
               end. reflexivity.
    - rewrite !lookup_ge_None_2;
        rewrite ?length_seq, ?length_replicate; try lia. reflexivity. }
  split; [apply (Hall Toroidal 0); auto|].
  split; [apply (Hall FixedZero 0); auto | apply (Hall Toroidal 1); auto].
Qed.

(** X5. Rule 190 read as births and deaths: in a step of a binary row, a
    cell that is 0 becomes 1 exactly when one of its two neighbours is 1,
    and a cell that is 1 becomes 0 exactly when its left neighbour is 1 and
    its right neighbour is 0. *)
Theorem step_births_and_deaths (p : boundary) (r nxt : list Z) (i : nat) :
  is_binary r = true -> step_with p r = Ok nxt -> (i < length r)%nat ->
  (cell_at r (Z.of_nat i) = 0 ->
   (cell_at nxt (Z.of_nat i) = 1 <->
    neighbor p r i (-1) = 1 \/ neighbor p r i 1 = 1)) /\
  (cell_at r (Z.of_nat i) = 1 ->
   (cell_at nxt (Z.of_nat i) = 0 <->
    neighbor p r i (-1) = 1 /\ neighbor p r i 1 = 0)).
Proof.
  intros Hb Hstep Hi. rewrite step_with_binary in Hstep by exact Hb.
  injection Hstep as <-.
  assert (Hc : cell_at
                 (map (fun j => rule190_table (neighbor p r j (-1))
                                  (cell_at r (Z.of_nat j)) (neighbor p r j 1))
                    (seq 0 (length r))) (Z.of_nat i)
               = rule190_table (neighbor p r i (-1)) (cell_at r (Z.of_nat i))
                   (neighbor p r i 1)).
  { apply cell_at_lookup. change (map ?f ?l) with (f <$> l).
    rewrite list_lookup_fmap, lookup_seq_lt by exact Hi. reflexivity. }
  rewrite Hc.
  destruct (neighbor_bit p r i (-1) Hb) as [-> | ->];
    destruct (neighbor_bit p r i 1 Hb) as [-> | ->];
    destruct (is_binary_cell_at r (Z.of_nat i) Hb) as [-> | ->];
    cbn; split; intros; try discriminate; split; intros; try lia;
    try tauto.
Qed.

Lemma step_births_and_deaths_witness :
  (cell_at [0; 0; 1; 0; 0] (Z.of_nat 1) = 0 ->
   (cell_at [0; 1; 1; 1; 0] (Z.of_nat 1) = 1 <->
    neighbor Toroidal [0; 0; 1; 0; 0] 1 (-1) = 1 \/
    neighbor Toroidal [0; 0; 1; 0; 0] 1 1 = 1)) /\
  (cell_at [0; 0; 1; 0; 0] (Z.of_nat 1) = 1 ->
   (cell_at [0; 1; 1; 1; 0] (Z.of_nat 1) = 0 <->
    neighbor Toroidal [0; 0; 1; 0; 0] 1 (-1) = 1 /\
    neighbor Toroidal [0; 0; 1; 0; 0] 1 1 = 0)).
Proof.
  apply (step_births_and_deaths Toroidal [0; 0; 1; 0; 0] [0; 1; 1; 1; 0] 1);
    [reflexivity | vm_compute; reflexivity | cbn; lia].
Defined.

(** * Further properties of the validation math *)

Lemma prefix_value_nonneg (r : list Z) (m : nat) : 0 <= prefix_value r m.
Proof.
  induction m as [|m IH]; cbn [prefix_value]; [lia|].
  pose proof (bit_of_range (nth m r 0)). lia.
Qed.

Lemma bit_of_zero_iff (c : Z) : bit_of c = 0 <-> c = 0.
Proof.
  unfold bit_of, truthy. destruct (Z.eqb_spec c 0); cbn; split; lia.
Qed.

Lemma truthy_bit_of (c : Z) : truthy c = true -> bit_of c = 1.
Proof. unfold bit_of. intros ->. reflexivity. Qed.

Lemma rightmost_set_cell (r : list Z) :
  forall n : nat,
    (n <= length r)%nat ->
    (forall k, (k < n)%nat -> nth k r 0 = 0) \/
    (exists idx : nat,
       (idx < n)%nat /\ truthy (nth idx r 0) = true /\
       forall k, (idx < k < n)%nat -> nth k r 0 = 0).
Proof.
  induction n as [|n IH]; intros Hn; [left; lia|].
  destruct (Z.eq_dec (nth n r 0) 0) as [E|E].
  - destruct (IH ltac:(lia)) as [Hz | (idx & Hi & Ht & Hz)].
    + left. intros k Hk. destruct (decide (k = n)) as [->|]; [exact E|].
      apply Hz. lia.
    + right. exists idx. split; [lia|]. split; [exact Ht|].
      intros k Hk. destruct (decide (k = n)) as [->|]; [exact E|].
      apply Hz. lia.
  - right. exists n. split; [lia|]. split; [|lia].
    unfold truthy. destruct (Z.eqb_spec (nth n r 0) 0); [contradiction|].
    reflexivity.
Qed.

(** X6. The anchored encoding never raises; its value is never negative,
    is 0 exactly when no cell of the row is set (the empty row included),
    and is odd otherwise, the rightmost set cell being bit 0. *)
Theorem row_to_int_total (r : list Z) :
  exists x : Z,
    row_to_int_anchor_rightmost r = Ok x /\
    0 <= x /\
    (x = 0 <-> forall k, (k < length r)%nat -> nth k r 0 = 0) /\
    (x <> 0 -> Z.odd x = true).
Proof.
  destruct (rightmost_set_cell r (length r) (le_n _))
    as [Hz | (idx & Hi & Ht & Hz)].
  - exists 0. split; [apply row_to_int_zero, Hz|].
    split; [lia|]. split; [tauto | congruence].
  - exists (prefix_value r (S idx)).
    split; [apply row_to_int_prefix_value; assumption|].
    split; [apply prefix_value_nonneg|].
    cbn [prefix_value]. rewrite (truthy_bit_of _ Ht).
    pose proof (prefix_value_nonneg r idx). split; [split|].
    + lia.
    + intros Hall. specialize (Hall idx Hi).
      rewrite Hall in Ht. discriminate.
    + intros _. rewrite Z.add_comm, Z.odd_add_mul_2. reflexivity.
Qed.

Lemma row_to_int_total_witness :
  exists x : Z,
    row_to_int_anchor_rightmost [0; 5; 0; -1; 0] = Ok x /\
    0 <= x /\
    (x = 0 <->
     forall k : nat, (k < 5)%nat ->
                     nth k [0; 5; 0; -1; 0] 0 = 0) /\
    (x <> 0 -> Z.odd x = true).
Proof. apply (row_to_int_total [0; 5; 0; -1; 0]). Defined.

Lemma prefix_value_ext (r1 r2 : list Z) (m : nat) :
  (forall k, (k < m)%nat -> nth k r1 0 = nth k r2 0) ->
  prefix_value r1 m = prefix_value r2 m.
Proof.
  induction m as [|m IH]; intros H; [reflexivity|].
  cbn [prefix_value]. rewrite IH by (intros; apply H; lia).
  rewrite (H m) by lia. reflexivity.
Qed.

Lemma prefix_value_shift (a : nat) (r tail : list Z) (m : nat) :
  (m <= length r)%nat ->
  prefix_value (replicate a 0 ++ r ++ tail) (a + m) = prefix_value r m.
Proof.
  intros Hm. induction m as [|m IH].
  - rewrite Nat.add_0_r. apply prefix_value_zeros. intros k Hk.
    rewrite app_nth1 by (rewrite length_replicate; lia).
    apply nth_lookup_Some, lookup_replicate_2, Hk.
  - replace (a + S m)%nat with (S (a + m)) by lia. cbn [prefix_value].
    rewrite IH by lia. f_equal. f_equal.
    rewrite app_nth2 by (rewrite length_replicate; lia).
    rewrite length_replicate.
    replace (a + m - a)%nat with m by lia.
    apply app_nth1. lia.
Qed.

Lemma nth_padded (a b : nat) (r : list Z) (k : nat) :
  nth k (replicate a 0 ++ r ++ replicate b 0) 0
  = if decide (a <= k)%nat then nth (k - a) r 0 else 0.
Proof.
  destruct (decide (a <= k)%nat) as [Hk|Hk].
  - rewrite app_nth2 by (rewrite length_replicate; lia).
    rewrite length_replicate.
    destruct (decide (k - a < length r)%nat) as [Hr|Hr].
    + apply app_nth1, Hr.
    + rewrite app_nth2 by lia. rewrite (nth_overflow r) by lia.
      rewrite nth_lookup.
      destruct (replicate b 0 !! (k - a - length r)%nat) as [x|] eqn:E;
        [|reflexivity].
      apply lookup_replicate in E as [-> _]. reflexivity.
  - rewrite app_nth1 by (rewrite length_replicate; lia).
    apply nth_lookup_Some, lookup_replicate_2. lia.
Qed.

(** X7. The anchored encoding does not depend on where the pattern sits in
    the row: zeros added in front of a row and behind it leave the encoded
    value unchanged. *)
Theorem row_to_int_padding (a b : nat) (r : list Z) :
  row_to_int_anchor_rightmost (replicate a 0 ++ r ++ replicate b 0)
  = row_to_int_anchor_rightmost r.
Proof.
  destruct (rightmost_set_cell r (length r) (le_n _))
    as [Hz | (idx & Hi & Ht & Hz)].
  - rewrite (row_to_int_zero r Hz). apply row_to_int_zero.
    intros k _. rewrite nth_padded. destruct (decide (a <= k)%nat); [|reflexivity].
    destruct (decide (k - a < length r)%nat); [apply Hz; assumption|].
    apply nth_overflow. lia.
  - rewrite (row_to_int_prefix_value r idx Hi Ht Hz).
    rewrite (row_to_int_prefix_value _ (a + idx)).
    + f_equal. replace (S (a + idx)) with (a + S idx)%nat by lia.
      apply prefix_value_shift. lia.
    + rewrite !length_app, !length_replicate. lia.
    + rewrite nth_padded. destruct (decide (a <= a + idx)%nat); [|lia].
      replace (a + idx - a)%nat with idx by lia. exact Ht.
    + intros k Hk. rewrite nth_padded.
      destruct (decide (a <= k)%nat); [|reflexivity].
      destruct (decide (k - a < length r)%nat); [apply Hz; lia|].
      apply nth_overflow. lia.
Qed.

Lemma prefix_value_fold (r : list Z) (m : nat) :
  (m <= length r)%nat ->
  prefix_value r m
  = fold_left (fun acc c => 2 * acc + bit_of c) (take m r) 0.
Proof.
  induction m as [|m IH]; intros Hm; [reflexivity|].
  destruct (lookup_lt_is_Some_2 r m ltac:(lia)) as [x Hx].
  rewrite (take_S_r _ _ _ Hx), fold_left_app. cbn [fold_left prefix_value].
  rewrite <- IH by lia. rewrite (nth_lookup_Some _ _ 0 _ Hx). reflexivity.
Qed.

(** X8. A row that ends in a set cell, followed by any number of zeros, is
    encoded as the binary numeral its cells spell from left to right (a
    cell counts as 1 when it is not 0), the last set cell being the least
    significant bit. *)
Theorem row_to_int_is_binary_numeral (r : list Z) (c : Z) (b : nat) :
  c <> 0 ->
  row_to_int_anchor_rightmost (r ++ c :: replicate b 0)
  = Ok (fold_left (fun acc x => 2 * acc + bit_of x) (r ++ [c]) 0).
Proof.
  intros Hc.
  assert (Ht : truthy c = true).
  { unfold truthy. destruct (Z.eqb_spec c 0); [contradiction | reflexivity]. }
  rewrite (row_to_int_prefix_value _ (length r)).
  - f_equal. rewrite prefix_value_fold by (rewrite length_app; cbn; lia).
    f_equal. change (c :: replicate b 0) with ([c] ++ replicate b 0).
    rewrite app_assoc.
    apply take_app_length'. rewrite length_app. cbn. lia.
  - rewrite length_app. cbn. lia.
  - rewrite app_nth2 by lia. rewrite Nat.sub_diag. exact Ht.
  - intros k Hk. rewrite length_app in Hk. cbn in Hk.
    rewrite app_nth2 by lia.
    destruct (k - length r)%nat as [|j] eqn:E; [lia|]. cbn.
    rewrite nth_lookup.
    destruct (replicate b 0 !! j) as [x|] eqn:Ex; [|reflexivity].
    apply lookup_replicate in Ex as [-> _]. reflexivity.
Qed.

Lemma row_to_int_is_binary_numeral_witness :
  row_to_int_anchor_rightmost ([0; 1; 1; 0] ++ 1 :: replicate 2 0)
  = Ok (fold_left (fun acc x => 2 * acc + bit_of x) ([0; 1; 1; 0] ++ [1]) 0).
Proof. apply row_to_int_is_binary_numeral. discriminate. Defined.

Example row_to_int_13 :
  row_to_int_anchor_rightmost [0; 1; 1; 0; 1; 0; 0] = Ok 13.
Proof. vm_compute. reflexivity. Qed.

(** X9. For every integer [n] the sequence function returns without error:
    the empty list when [n <= 0], otherwise [n] terms; term [t] is the
    closed-form value a(t) whatever [n] is, so the list for [n] is the
    beginning of the list for any larger [m]. *)
Theorem sequence_is_prefix_closed (n : Z) :
  exists a : list Z,
    rule190_single_one_sequence n = Ok a /\
    length a = Z.to_nat n /\
    (forall t : nat, (t < Z.to_nat n)%nat -> a !! t = Some (a_closed t)) /\
    (forall (m : Z) (a' : list Z),
       n <= m -> rule190_single_one_sequence m = Ok a' ->
       a = take (Z.to_nat n) a').
Proof.
  assert (H : forall k : Z,
            rule190_single_one_sequence k
            = Ok (map a_closed (seq 0 (Z.to_nat k)))).
  { intros k. destruct (Z_le_gt_dec k 0) as [Hk|Hk].
    - unfold rule190_single_one_sequence.
      destruct (Z.leb_spec k 0); [|lia].
      replace (Z.to_nat k) with 0%nat by lia. reflexivity.
    - rewrite <- (Z2Nat.id k) at 1 by lia.
      apply rule190_single_one_sequence_spec. }
  exists (map a_closed (seq 0 (Z.to_nat n))).
  split; [apply H|]. split; [rewrite length_map, length_seq; reflexivity|].
  split; [intros t Ht; apply a_closed_seq_lookup, Ht|].
  intros m a' Hnm Hm. rewrite H in Hm. injection Hm as <-.
  change (map ?f ?l) with (f <$> l). rewrite <- fmap_take.
  f_equal. rewrite take_seq. f_equal. lia.
Qed.

Lemma sequence_is_prefix_closed_witness :
  exists a : list Z,
    rule190_single_one_sequence 4 = Ok a /\
    a = take (Z.to_nat 4) [1; 7; 29; 119; 477; 1911].
Proof.
  destruct (sequence_is_prefix_closed 4) as (a & Ha & _ & _ & Hpre).
  exists a. split; [exact Ha|].
  apply (Hpre 6); [lia | vm_compute; reflexivity].
Defined.

Lemma a_closed_succ (t : nat) :
  a_closed (S t) = 4 * a_closed t + 2 * pat (2 * Z.of_nat t + 1) + 1.
Proof.
  rewrite !a_closed_pat_value. pose proof (pat_value_step t). lia.
Qed.

Lemma pat_1_mod_4 (k : Z) : pat (4 * k + 1) = 1.
Proof.
  unfold pat. replace (4 * k + 1) with (1 + k * 4) by lia.
  rewrite Z_mod_plus_full. reflexivity.
Qed.

Lemma pat_3_mod_4 (k : Z) : pat (4 * k + 3) = 0.
Proof.
  unfold pat. replace (4 * k + 3) with (3 + k * 4) by lia.
  rewrite Z_mod_plus_full. reflexivity.
Qed.

Lemma a_closed_explicit (k : nat) :
  15 * a_closed (2 * k) = 28 * 16 ^ Z.of_nat k - 13 /\
  15 * a_closed (2 * k + 1) = 112 * 16 ^ Z.of_nat k - 7.
Proof.
  induction k as [|k [IH0 IH1]].
  - split; reflexivity.
  - assert (Hp : 16 ^ Z.of_nat (S k) = 16 * 16 ^ Z.of_nat k).
    { rewrite Nat2Z.inj_succ, Z.pow_succ_r by lia. reflexivity. }
    assert (E0 : a_closed (2 * S k) = 4 * a_closed (2 * k + 1) + 1).
    { replace (2 * S k)%nat with (S (2 * k + 1)) by lia.
      rewrite a_closed_succ.
      replace (2 * Z.of_nat (2 * k + 1) + 1) with (4 * Z.of_nat k + 3) by lia.
      rewrite pat_3_mod_4. lia. }
    assert (E1 : a_closed (2 * S k + 1) = 4 * a_closed (2 * S k) + 3).
    { replace (2 * S k + 1)%nat with (S (2 * S k)) by lia.
      rewrite a_closed_succ.
      replace (2 * Z.of_nat (2 * S k) + 1) with (4 * (Z.of_nat k + 1) + 1)
        by lia.
      rewrite pat_1_mod_4. lia. }
    rewrite E1, E0, Hp. lia.
Qed.

(** X10. The terms the sequence function returns have an explicit form:
    term [2k] is (28 * 16^k - 13) / 15 and term [2k+1] is
    (112 * 16^k - 7) / 15; term [t] is a number of exactly [2t + 1] bits. *)
Theorem sequence_explicit_form (n : Z) (a : list Z) (k : nat) (x : Z) :
  rule190_single_one_sequence n = Ok a ->
  (a !! (2 * k)%nat = Some x -> 15 * x = 28 * 16 ^ Z.of_nat k - 13) /\
  (a !! (2 * k + 1)%nat = Some x -> 15 * x = 112 * 16 ^ Z.of_nat k - 7) /\
  (forall t : nat, a !! t = Some x ->
     4 ^ Z.of_nat t <= x < 2 * 4 ^ Z.of_nat t).
Proof.
  intros Ha.
  assert (Hterm : forall t y, a !! t = Some y -> y = a_closed t).
  { destruct (Z_le_gt_dec n 0) as [Hn|Hn].
    - unfold rule190_single_one_sequence in Ha.
      destruct (Z.leb_spec n 0); [|lia]. injection Ha as <-.
      intros t y Ht. rewrite lookup_nil in Ht. discriminate.
    - rewrite <- (Z2Nat.id n) in Ha by lia.
      rewrite rule190_single_one_sequence_spec in Ha. injection Ha as <-.
      intros t y Ht. pose proof (lookup_lt_Some _ _ _ Ht) as Hlt.
      rewrite length_map, length_seq in Hlt.
      rewrite a_closed_seq_lookup in Ht by exact Hlt. congruence. }
  split; [|split].
  - intros Hx. rewrite (Hterm _ _ Hx). apply a_closed_explicit.
  - intros Hx. rewrite (Hterm _ _ Hx). apply a_closed_explicit.
  - intros t Hx. rewrite (Hterm _ _ Hx).
    destruct (Nat.Even_or_Odd t) as [[j ->] | [j ->]].
    + destruct (a_closed_explicit j) as [E _].
      replace (4 ^ Z.of_nat (2 * j)) with (16 ^ Z.of_nat j).
      * pose proof (Z.pow_pos_nonneg 16 (Z.of_nat j)). lia.
      * rewrite Nat2Z.inj_mul, Z.pow_mul_r by lia. reflexivity.
    + destruct (a_closed_explicit j) as [_ E].
      replace (4 ^ Z.of_nat (2 * j + 1)) with (4 * 16 ^ Z.of_nat j).
      * pose proof (Z.pow_pos_nonneg 16 (Z.of_nat j)). lia.
      * rewrite Nat2Z.inj_add, Z.pow_add_r, Nat2Z.inj_mul, Z.pow_mul_r by lia.
        change (4 ^ Z.of_nat 2) with 16. change (4 ^ Z.of_nat 1) with 4. lia.
Qed.

Lemma sequence_explicit_form_witness :
  ([1; 7; 29; 119; 477] !! (2 * 2)%nat = Some 477 ->
   15 * 477 = 28 * 16 ^ Z.of_nat 2 - 13) /\
  ([1; 7; 29; 119; 477] !! (2 * 2 + 1)%nat = Some 477 ->
   15 * 477 = 112 * 16 ^ Z.of_nat 2 - 7) /\
  (forall t : nat, [1; 7; 29; 119; 477] !! t = Some 477 ->
     4 ^ Z.of_nat t <= 477 < 2 * 4 ^ Z.of_nat t).
Proof.
  apply (sequence_explicit_form 5 [1; 7; 29; 119; 477] 2 477).
  vm_compute. reflexivity.
Defined.

(** ** The validation of the driver *)

Lemma check_row_cone (n t : nat) (seq_expected : list Z) :
  (t < n)%nat -> seq_expected !! t = Some (a_closed t) ->
  check_row seq_expected (cone_row (2 * n + 1) n t, []) t
  = Ok (cone_row (2 * n + 1) n (S t), []).
Proof.
  intros Ht Hs. unfold check_row.
  rewrite row_to_int_cone_row by lia. cbn [bind].
  rewrite (getitem_lookup _ _ _ Hs). cbn [bind].
  rewrite Z.eqb_refl. cbn [negb].
  rewrite cone_row_step by lia. reflexivity.
Qed.

Lemma check_loop_cone (n : nat) (seq_expected : list Z) :
  (forall t, (t < n)%nat -> seq_expected !! t = Some (a_closed t)) ->
  forall k a : nat,
    (a + k <= n)%nat ->
    for_each (check_row seq_expected) (seq a k) (cone_row (2 * n + 1) n a, [])
    = Ok (cone_row (2 * n + 1) n (a + k), []).
Proof.
  intros Hs. induction k as [|k IH]; intros a Hak.
  - rewrite Nat.add_0_r. reflexivity.
  - cbn [seq for_each]. rewrite check_row_cone by (lia || (apply Hs; lia)).
    cbn [bind]. rewrite IH by lia. do 3 f_equal. lia.
Qed.

Lemma validate_first_rows_nat (n : nat) :
  validate_first_rows (Z.of_nat n) = Ok [].
Proof.
  unfold validate_first_rows.
  replace (Z.to_nat (1 + 2 * Z.of_nat n)) with (2 * n + 1)%nat by lia.
  rewrite setitem_insert by (rewrite length_replicate; lia). cbn [bind].
  change (<[n := 1]> (replicate (2 * n + 1) 0))
    with (single_one_row (2 * n + 1) n).
  rewrite single_one_row_cone by lia.
  rewrite rule190_single_one_sequence_spec. cbn [bind].
  unfold range. rewrite Nat2Z.id.
  rewrite (check_loop_cone n)
    by (lia || (intros; apply a_closed_seq_lookup; lia)).
  reflexivity.
Qed.

(** X11. The validation of the driver reports no mismatch, for every number
    [max_check >= 0] of checked rows: the seeded fixed-zero row, stepped in
    place, is encoded as the closed-form value at each step, and no step
    raises.  With a negative [max_check] the row is empty and seeding it
    raises [IndexError]. *)
Theorem validation_never_warns (max_check : Z) :
  (0 <= max_check -> validate_first_rows max_check = Ok []) /\
  (max_check < 0 -> validate_first_rows max_check = Raise IndexError).
Proof.
  split; intros Hm.
  - rewrite <- (Z2Nat.id max_check) by exact Hm.
    apply validate_first_rows_nat.
  - unfold validate_first_rows.
    replace (Z.to_nat (1 + 2 * max_check)) with 0%nat by lia.
    unfold setitem. cbn [replicate length].
    destruct (Z.ltb_spec max_check 0); [|lia].
    destruct (Z.leb_spec 0 (max_check + Z.of_nat 0)); [lia|]. reflexivity.
Qed.

Lemma validation_never_warns_witness :
  validate_first_rows 20 = Ok [] /\
  validate_first_rows (-1) = Raise IndexError.
Proof.
  split.
  - apply (proj1 (validation_never_warns 20)). lia.
  - apply (proj2 (validation_never_warns (-1))). lia.
Defined.

(** * The scale *)

Section Scale.

Variables (width root : Z) (steps : list Z).

Local Abbreviation K := (length steps).
Local Abbreviation n := (Z.to_nat width).

Lemma scale_upto_snoc (m : nat) :
  scale_upto root steps (S m) = scale_upto root steps m ++ [pitch_at root steps m].
Proof. unfold scale_upto. rewrite seq_S, map_app. reflexivity. Qed.

Lemma length_scale_upto (m : nat) : length (scale_upto root steps m) = m.
Proof. unfold scale_upto. rewrite length_map, length_seq. reflexivity. Qed.

Lemma pitch_at_cycle (o j : nat) :
  (j < K)%nat ->
  pitch_at root steps (o * K + j) = root + 12 * Z.of_nat o + nth j steps 0.
Proof.
  intros Hj. unfold pitch_at.
  rewrite Nat.div_add_l, Nat.div_small, Nat.add_0_r by lia.
  rewrite Nat.add_comm, Nat.Div0.mod_add, Nat.mod_small by lia.
  reflexivity.
Qed.

Lemma stack_steps_spec (o : nat) :
  forall (rest done : list Z),
    steps = done ++ rest ->
    (o * K + length done < n)%nat ->
    stack_steps width root (Z.of_nat o) rest
      (scale_upto root steps (o * K + length done))
    = scale_upto root steps (Nat.min n (S o * K)).
Proof.
  induction rest as [|d rest IH]; intros done Hsplit Hlt.
  - cbn. f_equal. rewrite app_nil_r in Hsplit. subst done. lia.
  - cbn [stack_steps].
    assert (HK : K = (length done + S (length rest))%nat).
    { rewrite Hsplit at 1. rewrite length_app. reflexivity. }
    assert (Hd : root + 12 * Z.of_nat o + d
                 = pitch_at root steps (o * K + length done)).
    { rewrite pitch_at_cycle by lia. rewrite Hsplit.
      rewrite app_nth2 by lia. rewrite Nat.sub_diag. reflexivity. }
    rewrite Hd, <- scale_upto_snoc, length_scale_upto.
    destruct (Z.eqb_spec (Z.of_nat (S (o * K + length done))) width) as [E|E].
    + f_equal. lia.
    + replace (S (o * K + length done))
        with (o * K + length (done ++ [d]))%nat
        by (rewrite length_app; cbn; lia).
      apply IH.
      * rewrite <- app_assoc. exact Hsplit.
      * rewrite length_app. cbn. lia.
Qed.

Lemma stack_octaves_spec :
  (0 < K)%nat ->
  forall (fuel o : nat),
    (n <= o * K + fuel)%nat ->
    stack_octaves fuel width root steps (Z.of_nat o)
      (scale_upto root steps (Nat.min n (o * K)))
    = Some (scale_upto root steps n).
Proof.
  intros HK. induction fuel as [|fuel IH]; intros o Hfuel.
  - cbn. rewrite length_scale_upto.
    destruct (Z.ltb_spec (Z.of_nat (Nat.min n (o * K))) width); [lia|].
    do 2 f_equal. lia.
  - cbn [stack_octaves]. rewrite length_scale_upto.
    destruct (Z.ltb_spec (Z.of_nat (Nat.min n (o * K))) width) as [Hlt|Hge].
    + replace (Nat.min n (o * K)) with (o * K + length (@nil Z))%nat
        by (cbn; lia).
      rewrite (stack_steps_spec o steps []) by (cbn; (reflexivity || lia)).
      replace (Z.of_nat o + 1) with (Z.of_nat (S o)) by lia.
      apply IH. nia.
    + do 2 f_equal. lia.
Qed.

Lemma stack_octaves_empty_steps :
  steps = [] -> 0 < width ->
  forall (fuel : nat) (octv : Z),
    stack_octaves fuel width root steps octv [] = None.
Proof.
  intros -> Hw.
  assert (E : (Z.of_nat (length (@nil Z)) <? width) = true)
    by (apply Z.ltb_lt; cbn; lia).
  induction fuel as [|fuel IH]; intros octv; cbn [stack_octaves stack_steps];
    rewrite E; [reflexivity | apply IH].
Qed.

End Scale.

(** X12. With a non-empty list of steps the scale builder returns, as soon
    as the fuel covers the width: the pool has exactly [width] pitches (none
    for [width <= 0]) and column [i] gets the root, plus 12 for every full
    cycle through the steps before [i], plus the step of [i] in its cycle.
    The argument [span_octaves] has no effect. *)
Theorem build_scale_closed_form (fuel : nat) (width root : Z) (steps : list Z)
  (span_octaves : Z) :
  steps <> [] -> (Z.to_nat width <= fuel)%nat ->
  exists pool : list Z,
    build_scale_across_width fuel width root steps span_octaves = Some pool /\
    length pool = Z.to_nat width /\
    forall i : nat, (i < Z.to_nat width)%nat ->
      pool !! i
      = Some (root + 12 * Z.of_nat (i / length steps)
              + nth (i mod length steps) steps 0).
Proof.
  intros Hne Hfuel. exists (scale_upto root steps (Z.to_nat width)).
  split; [|split].
  - unfold build_scale_across_width.
    assert (Hk : (0 < length steps)%nat)
      by (destruct steps; [contradiction | cbn; lia]).
    pose proof (stack_octaves_spec width root steps Hk fuel 0 ltac:(lia)) as H.
    rewrite Nat.mul_0_l, Nat.min_0_r in H. exact H.
  - apply length_scale_upto.
  - intros i Hi. unfold scale_upto. change (map ?f ?l) with (f <$> l).
    rewrite list_lookup_fmap, lookup_seq_lt by exact Hi. reflexivity.
Qed.

Lemma build_scale_closed_form_witness :
  exists pool : list Z,
    build_scale_across_width 32 32 60 NAT_MINOR_STEPS 3 = Some pool /\
    length pool = Z.to_nat 32 /\
    forall i : nat, (i < Z.to_nat 32)%nat ->
      pool !! i
      = Some (60 + 12 * Z.of_nat (i / length NAT_MINOR_STEPS)
              + nth (i mod length NAT_MINOR_STEPS) NAT_MINOR_STEPS 0).
Proof.
  apply (build_scale_closed_form 32 32 60 NAT_MINOR_STEPS 3);
    [discriminate | cbn; lia].
Defined.

(** X13. With an empty list of steps and a positive width the scale builder
    never returns: the pool stays empty and the loop goes on, whatever the
    fuel.  With a width that is not positive it returns the empty pool at
    once, whatever the steps. *)
Theorem build_scale_degenerate (fuel : nat) (width root : Z) (steps : list Z)
  (span_octaves : Z) :
  (steps = [] -> 0 < width ->
   build_scale_across_width fuel width root steps span_octaves = None) /\
  (width <= 0 ->
   build_scale_across_width fuel width root steps span_octaves = Some []).
Proof.
  split.
  - intros Hs Hw. apply stack_octaves_empty_steps; assumption.
  - intros Hw. unfold build_scale_across_width.
    assert (E : (Z.of_nat (length (@nil Z)) <? width) = false)
      by (apply Z.ltb_ge; cbn; lia).
    destruct fuel; cbn [stack_octaves]; rewrite E; reflexivity.
Qed.

Lemma build_scale_degenerate_witness :
  build_scale_across_width 1000 4 60 [] 3 = None /\
  build_scale_across_width 0 (-2) 60 NAT_MINOR_STEPS 3 = Some [].
Proof.
  split.
  - apply (proj1 (build_scale_degenerate 1000 4 60 [] 3)); [reflexivity | lia].
  - apply (proj2 (build_scale_degenerate 0 (-2) 60 NAT_MINOR_STEPS 3)). lia.
Defined.

Lemma stack_octaves_Some (width root : Z) (steps : list Z) :
  (0 < length steps)%nat ->
  forall (fuel o : nat) (pool : list Z),
    stack_octaves fuel width root steps (Z.of_nat o)
      (scale_upto root steps (Nat.min (Z.to_nat width) (o * length steps)))
    = Some pool ->
    pool = scale_upto root steps (Z.to_nat width).
Proof.
  intros HK. induction fuel as [|fuel IH]; intros o pool;
    cbn [stack_octaves]; rewrite length_scale_upto;
    destruct (Z.ltb_spec
                (Z.of_nat (Nat.min (Z.to_nat width) (o * length steps))) width)
      as [Hlt|Hge]; try discriminate;
    try (intros [= <-]; f_equal; lia).
  replace (Nat.min (Z.to_nat width) (o * length steps))
    with (o * length steps + length (@nil Z))%nat by (cbn; lia).
  rewrite (stack_steps_spec width root steps o steps [])
    by (cbn; (reflexivity || lia)).
  replace (Z.of_nat o + 1) with (Z.of_nat (S o)) by lia.
  apply IH.
Qed.

Lemma pitch_at_increasing (root : Z) (steps : list Z) (i j : nat) :
  StronglySorted Z.lt steps ->
  (forall x y, In x steps -> In y steps -> x - y < 12) ->
  (0 < length steps)%nat -> (i < j)%nat ->
  pitch_at root steps i < pitch_at root steps j.
Proof.
  intros Hs Hspan HK Hij. unfold pitch_at.
  pose proof (Nat.div_mod_eq i (length steps)) as Ei.
  pose proof (Nat.div_mod_eq j (length steps)) as Ej.
  pose proof (Nat.mod_upper_bound i (length steps) ltac:(lia)) as Hi.
  pose proof (Nat.mod_upper_bound j (length steps) ltac:(lia)) as Hj.
  pose proof (Nat.Div0.div_le_mono i j (length steps) ltac:(lia)) as Hle.
  destruct (lookup_lt_is_Some_2 steps _ Hi) as [x Hx].
  destruct (lookup_lt_is_Some_2 steps _ Hj) as [y Hy].
  rewrite (nth_lookup_Some _ _ 0 _ Hx), (nth_lookup_Some _ _ 0 _ Hy).
  destruct (decide (i / length steps = j / length steps)%nat) as [E|E].
  - rewrite E.
    assert (Hm : (i mod length steps < j mod length steps)%nat).
    { rewrite E in Ei. set (c := (length steps * (j / length steps))%nat) in *.
      lia. }
    pose proof (strongly_sorted_lookup _ _ Hs _ _ _ _ Hm Hx Hy). lia.
  - assert (Hxy : x - y < 12).
    { apply Hspan; apply list_elem_of_In, list_elem_of_lookup; eauto. }
    lia.
Qed.

(** X14. When the steps are strictly increasing and span less than an
    octave (as the natural-minor steps do), the scale the builder returns is
    strictly increasing: different columns get different pitches. *)
Theorem build_scale_increasing (fuel : nat) (width root : Z) (steps : list Z)
  (span_octaves : Z) (pool : list Z) :
  steps <> [] ->
  StronglySorted Z.lt steps ->
  (forall x y, In x steps -> In y steps -> x - y < 12) ->
  build_scale_across_width fuel width root steps span_octaves = Some pool ->
  (forall i j : nat,
     (i < j)%nat -> (j < length pool)%nat -> nth i pool 0 < nth j pool 0) /\
  distinct_pitches (length pool) pool.
Proof.
  intros Hne Hs Hspan Hb.
  assert (HK : (0 < length steps)%nat)
    by (destruct steps; [contradiction | cbn; lia]).
  unfold build_scale_across_width in Hb.
  pose proof (stack_octaves_Some width root steps HK fuel 0 pool) as H.
  rewrite Nat.mul_0_l, Nat.min_0_r in H. specialize (H Hb). subst pool.
  rewrite length_scale_upto.
  assert (Hnth : forall i, (i < Z.to_nat width)%nat ->
            nth i (scale_upto root steps (Z.to_nat width)) 0
            = pitch_at root steps i).
  { intros i Hi. apply nth_lookup_Some. unfold scale_upto.
    change (map ?f ?l) with (f <$> l).
    rewrite list_lookup_fmap, lookup_seq_lt by exact Hi. reflexivity. }
  assert (Hinc : forall i j : nat,
            (i < j)%nat -> (j < Z.to_nat width)%nat ->
            nth i (scale_upto root steps (Z.to_nat width)) 0
            < nth j (scale_upto root steps (Z.to_nat width)) 0).
  { intros i j Hij Hj. rewrite !Hnth by lia.
    apply pitch_at_increasing; assumption. }
  split; [exact Hinc|].
  intros i j Hi Hj Heq.
  destruct (Nat.lt_trichotomy i j) as [Hlt | [-> | Hgt]]; [|reflexivity|].
  - pose proof (Hinc i j Hlt Hj). lia.
  - pose proof (Hinc j i Hgt Hi). lia.
Qed.

Lemma nat_minor_steps_sorted : StronglySorted Z.lt NAT_MINOR_STEPS.
Proof. repeat (constructor; [|repeat constructor; lia]). constructor. Qed.

Lemma nat_minor_steps_span (x y : Z) :
  In x NAT_MINOR_STEPS -> In y NAT_MINOR_STEPS -> x - y < 12.
Proof.
  intros Hx Hy.
  assert (B : forall z, In z NAT_MINOR_STEPS -> 0 <= z <= 10).
  { intros z Hz. cbn in Hz. intuition lia. }
  pose proof (B x Hx). pose proof (B y Hy). lia.
Qed.

Lemma build_scale_increasing_witness :
  exists pool : list Z,
    build_scale_across_width 32 32 60 NAT_MINOR_STEPS 3 = Some pool /\
    distinct_pitches (length pool) pool.
Proof.
  destruct (build_scale_across_width 32 32 60 NAT_MINOR_STEPS 3)
    as [pool|] eqn:E; [|vm_compute in E; discriminate].
  exists pool. split; [reflexivity|].
  apply (build_scale_increasing 32 32 60 NAT_MINOR_STEPS 3 pool);
    [discriminate | apply nat_minor_steps_sorted
     | apply nat_minor_steps_span | exact E].
Defined.

Example scale_with_octave_steps_repeats :
  build_scale_across_width 4 4 60 [0; 12] 3 = Some scale_octaves.
Proof. vm_compute. reflexivity. Qed.

(** * The number of steps *)


Lemma inject_Z_pos (z : Z) : 0 < z -> (0 < inject_Z z)%Q.
Proof. intros H. unfold Qlt. cbn. lia. Qed.




Example default_config_32_steps : steps_for_8_seconds cfg_default = Ok 32.
Proof. reflexivity. Qed.

(** * Further properties of the scheduler *)

Lemma final_events_inv (row0 scale : list Z) (cfg : RenderConfig)
  (evs : list event) :
  final_events row0 scale cfg = Ok evs ->
  exists (steps : Z) (st : sched_state),
    steps_for_8_seconds cfg = Ok steps /\
    run_steps row0 scale cfg steps = Ok st /\
    evs = sort_events (events (final_flush cfg steps st)).
Proof.
  unfold final_events, scheduled.
  destruct (steps_for_8_seconds cfg) as [e|steps]; [discriminate|].
  cbn [bind].
  destruct (run_steps row0 scale cfg steps) as [e|st] eqn:Erun;
    [discriminate|].
  cbn [bind]. intros [= <-]. exists steps, st.
  split; [reflexivity|]. split; [exact Erun | reflexivity].
Qed.

Lemma sustain_step_velocity (cfg : RenderConfig) (scale : list Z)
  (st st' : sched_state) (s : nat) :
  staccato_of cfg = false ->
  (forall t n v, In (t, NoteOn n v) (events st) -> v = 40) ->
  sched_step cfg scale st s = Ok st' ->
  forall t n v, In (t, NoteOn n v) (events st') -> v = 40.
Proof.
  intros Hmode H40 Hstep.
  apply sched_step_inv in Hstep as (nxt & Hnxt & Hcase).
  destruct Hcase as [[_ Hs] | [Hst _]]; [|congruence].
  apply sustain_step_inv in Hs as (_ & Hcl & Hev & _).
  destruct Hcl as (_ & _ & _ & Hlo & _).
  intros t n v Hin. rewrite Hev in Hin.
  apply in_app_or in Hin as [Hin|Hin]; [apply (H40 t n v Hin)|].
  apply in_app_or in Hin as [Hin|Hin].
  - apply in_map_iff in Hin as (x & Hx & _). discriminate.
  - apply in_map_iff in Hin as (b & Hb & Hin).
    injection Hb as _ _ <-.
    apply births_of_In in Hin as (Hi & _ & Hnow & Hwas).
    apply in_seq in Hi. rewrite Hlo by lia. unfold sustain_age.
    destruct (Z.eqb_spec (nth (snd b) nxt 0) 1); [|contradiction].
    destruct (Z.eqb_spec (nth (snd b) (row st) 0) 1); [contradiction|].
    reflexivity.
Qed.

(** X16. In sustain mode every note-start has velocity exactly 40: a note
    starts only at a birth, where the age has just been set to 1, so the
    louder velocities of longer-lived cells are never used. *)
Theorem sustain_velocity_is_40 (row0 scale : list Z) (cfg : RenderConfig)
  (evs : list event) :
  staccato_of cfg = false ->
  final_events row0 scale cfg = Ok evs ->
  forall t n v : Z, In (t, NoteOn n v) evs -> v = 40.
Proof.
  intros Hmode Hev t n v Hin.
  apply final_events_inv in Hev as (steps & st & _ & Hrun & ->).
  apply (proj1 (sort_events_In _ _)), final_flush_starts in Hin.
  unfold run_steps in Hrun.
  refine (for_each_preserves _
            (fun st => forall t n v, In (t, NoteOn n v) (events st) -> v = 40)
            _ _ _ _ _ Hrun t n v Hin).
  - intros s s1 s2 _. apply sustain_step_velocity, Hmode.
  - intros t' n' v' [H|[]]. discriminate.
Qed.

Lemma sustain_velocity_is_40_witness :
  exists evs : list event,
    final_events row4 scale_octaves cfg_default = Ok evs /\
    Forall (fun e : event => forall n v : Z, snd e = NoteOn n v -> v = 40)
           evs.
Proof.
  eexists. split; [vm_compute; reflexivity|].
  apply Forall_forall. intros [t m] Hin n v Hm.
  apply list_elem_of_In in Hin. cbn [snd] in Hm. subst m.
  refine (sustain_velocity_is_40 row4 scale_octaves cfg_default _ _ _
            t n v Hin); [reflexivity | vm_compute; reflexivity].
Defined.

Example staccato_velocity_grows :
  exists evs : list event,
    final_events row5 scale5 cfg_staccato = Ok evs /\
    In (240, NoteOn 63 50) evs /\ In (480, NoteOn 62 60) evs.
Proof.
  destruct (final_events row5 scale5 cfg_staccato) as [e|evs] eqn:E;
    [vm_compute in E; discriminate|].
  exists evs. split; [reflexivity|].
  vm_compute in E. injection E as <-. split; cbn; tauto.
Qed.

Lemma clamp_gate_below_one (g : Q) : (clamp_gate g < 1)%Q.
Proof.
  unfold clamp_gate. apply Q.max_lub_lt; [reflexivity|].
  eapply Qle_lt_trans; [apply Q.le_min_l | reflexivity].
Qed.

(** X17. In staccato mode with a positive step length the distance from a
    note-start to its note-stop is at least 0 and less than one step, so
    every note-stop lies inside the step of its note-start; this holds for
    every gate value, the clamp keeping large gates inside the step. *)
Theorem staccato_stop_inside_step (cfg : RenderConfig) (g : Q) (s : nat) :
  0 < q cfg ->
  0 <= stop_offset cfg g < q cfg /\
  Z.of_nat s * q cfg <= Z.of_nat s * q cfg + stop_offset cfg g
  < Z.of_nat (S s) * q cfg.
Proof.
  intros Hq.
  assert (Hnn : (0 <= inject_Z (q cfg) * clamp_gate g)%Q).
  { apply Qmult_le_0_compat; [unfold Qle; cbn; lia | apply clamp_gate_nonneg]. }
  assert (H : 0 <= stop_offset cfg g < q cfg).
  { unfold stop_offset. split; [apply int_of_float_nonneg, Hnn|].
    rewrite int_of_float_floor by exact Hnn.
    rewrite Zlt_Qlt. eapply Qle_lt_trans; [apply Qfloor_le|].
    rewrite <- (Qmult_1_r (inject_Z (q cfg))) at 2.
    apply Qmult_lt_l; [apply inject_Z_pos, Hq | apply clamp_gate_below_one]. }
  split; [exact H|]. lia.
Qed.

Lemma staccato_stop_inside_step_witness :
  0 <= stop_offset cfg_wide_gate (99999 # 100000) < q cfg_wide_gate /\
  Z.of_nat 1 * q cfg_wide_gate
  <= Z.of_nat 1 * q cfg_wide_gate + stop_offset cfg_wide_gate (99999 # 100000)
  < Z.of_nat 2 * q cfg_wide_gate.
Proof.
  apply (staccato_stop_inside_step cfg_wide_gate (99999 # 100000) 1).
  cbn. lia.
Defined.




Lemma sched_step_appends (cfg : RenderConfig) (scale : list Z)
  (st st' : sched_state) (s : nat) :
  sched_step cfg scale st s = Ok st' ->
  exists new : list event,
    events st' = events st ++ new /\
    forall e, In e new -> is_tempo (snd e) = false.
Proof.
  intros Hstep. apply sched_step_inv in Hstep as (nxt & _ & Hcase).
  destruct Hcase as [[_ Hs] | [_ (g & _ & Hs)]].
  - apply sustain_step_inv in Hs as (_ & _ & Hev & _).
    eexists. split; [exact Hev|]. intros e He.
    apply in_app_or in He as [He|He];
      apply in_map_iff in He as (x & <- & _); reflexivity.
  - apply staccato_step_inv in Hs as (_ & _ & _ & Hev & _).
    eexists. split; [exact Hev|]. intros e He.
    apply staccato_events_In in He as (i & _ & _ & [-> | ->]); reflexivity.
Qed.

Lemma run_steps_tempo_first (row0 scale : list Z) (cfg : RenderConfig)
  (steps : Z) (st : sched_state) :
  run_steps row0 scale cfg steps = Ok st ->
  tempo_first (bpm cfg) (events (final_flush cfg steps st)).
Proof.
  intros Hrun. unfold run_steps in Hrun.
  assert (H : tempo_first (bpm cfg) (events st)).
  { refine (for_each_preserves _ (fun st => tempo_first (bpm cfg) (events st))
              _ _ _ _ _ Hrun).
    - intros s s1 s2 _ (rest & Hev & Hrest) Hstep.
      apply sched_step_appends in Hstep as (new & Hnew & Hnt).
      exists (rest ++ new). split; [rewrite Hnew, Hev; reflexivity|].
      intros e He. apply in_app_or in He as [He|He]; auto.
    - exists []. split; [reflexivity|]. intros e []. }
  unfold final_flush. destruct (negb (staccato_of cfg)); [|exact H].
  cbn [events]. destruct H as (rest & Hev & Hrest).
  eexists. split; [rewrite Hev; reflexivity|].
  intros e He. apply in_app_or in He as [He|He]; [auto|].
  apply in_map_iff in He as (x & <- & _). reflexivity.
Qed.

(** X19. The final sequence holds exactly one tempo message, the one put at
    tick 0, whatever the mode.  When the step length is not negative it is
    the first event of the sequence and of the written track, with time 0. *)
Theorem tempo_is_unique_and_first (row0 scale : list Z) (cfg : RenderConfig)
  (evs : list event) (out : MidiFile * string) :
  final_events row0 scale cfg = Ok evs ->
  schedule_events row0 scale cfg = Ok out ->
  (exists rest : list event,
     Permutation evs ((0, MetaSetTempo (bpm cfg)) :: rest) /\
     forall e, In e rest -> is_tempo (snd e) = false) /\
  (0 <= q cfg ->
   hd_error evs = Some (0, MetaSetTempo (bpm cfg)) /\
   hd_error (track (fst out)) = Some (0, MetaSetTempo (bpm cfg))).
Proof.
  intros Hev Hout.
  unfold schedule_events in Hout. rewrite Hev in Hout. cbn [bind] in Hout.
  injection Hout as <-. cbn [fst track].
  apply final_events_inv in Hev as (steps & st & _ & Hrun & ->).
  destruct (run_steps_tempo_first _ _ _ _ _ Hrun) as (rest & Hfl & Hrest).
  split.
  - exists rest. split; [|exact Hrest]. rewrite Hfl. apply sort_events_perm.
  - intros Hq.
    pose proof (final_flush_ticks_nonneg _ _ _ _ _ Hq Hrun) as Hnn.
    rewrite Hfl in *. cbn [sort_events].
    rewrite insert_event_head.
    + split; [reflexivity|]. unfold pack_track. cbn. rewrite pack_fold.
      reflexivity.
    + apply Forall_forall. intros e He.
      apply list_elem_of_In, (proj1 (sort_events_In _ _)) in He.
      specialize (Hrest e He). specialize (Hnn e (or_intror He)).
      unfold event_le, key_le, sort_key. cbn [fst snd].
      destruct e as [t [b|n|n v]]; cbn in *; try discriminate; lia.
Qed.

Lemma tempo_is_unique_and_first_witness :
  exists (evs : list event) (out : MidiFile * string),
    final_events row5 scale5 cfg_staccato = Ok evs /\
    schedule_events row5 scale5 cfg_staccato = Ok out /\
    hd_error evs = Some (0, MetaSetTempo 120) /\
    hd_error (track (fst out)) = Some (0, MetaSetTempo 120).
Proof.
  destruct (final_events row5 scale5 cfg_staccato) as [e|evs] eqn:Ev;
    [vm_compute in Ev; discriminate|].
  destruct (schedule_events row5 scale5 cfg_staccato) as [e|out] eqn:Eo;
    [vm_compute in Eo; discriminate|].
  exists evs, out. split; [reflexivity|]. split; [reflexivity|].
  apply (proj2 (tempo_is_unique_and_first row5 scale5 cfg_staccato evs out
                  Ev Eo)).
  cbn. lia.
Defined.



Lemma absolute_ticks_deltas (evs : list event) :
  forall last : Z, absolute_ticks last (deltas last evs) = evs.
Proof.
  induction evs as [|[t m] evs IH]; intros last; cbn; [reflexivity|].
  replace (last + (t - last)) with t by lia. rewrite IH. reflexivity.
Qed.

Lemma clamped_deltas_messages (evs : list event) :
  forall last : Z, map snd (map clamp_delta (deltas last evs)) = map snd evs.
Proof.
  induction evs as [|[t m] evs IH]; intros last; cbn; [reflexivity|].
  rewrite IH. reflexivity.
Qed.

(** X21. Round trip of the delta encoding.  The track has one entry per
    event of the final sequence, with the messages in the same order; and
    when the step length is not negative, summing the written times from
    the start of the track gives back the absolute tick of every event. *)
Theorem track_round_trip (row0 scale : list Z) (cfg : RenderConfig)
  (evs : list event) (out : MidiFile * string) :
  final_events row0 scale cfg = Ok evs ->
  schedule_events row0 scale cfg = Ok out ->
  map snd (track (fst out)) = map snd evs /\
  ticks_per_beat (fst out) = ppq cfg /\
  snd out = filename cfg /\
  (0 <= q cfg -> absolute_ticks 0 (track (fst out)) = evs).
Proof.
  intros Hev Hout.
  unfold schedule_events in Hout. rewrite Hev in Hout. cbn [bind] in Hout.
  injection Hout as <-. cbn [fst snd track ticks_per_beat].
  split; [|split; [reflexivity | split; [reflexivity|]]].
  - rewrite pack_track_clamps. apply clamped_deltas_messages.
  - intros Hq.
    apply final_events_inv in Hev as (steps & st & _ & Hrun & ->).
    rewrite pack_track_clamps, clamp_delta_id.
    + apply absolute_ticks_deltas.
    + apply deltas_nonneg; [apply sort_events_strongly_sorted|].
      intros e He. apply (proj1 (sort_events_In _ _)) in He.
      apply (final_flush_ticks_nonneg _ _ _ _ _ Hq Hrun e He).
Qed.

Lemma track_round_trip_witness :
  exists (evs : list event) (out : MidiFile * string),
    final_events row5 scale5 cfg_staccato = Ok evs /\
    schedule_events row5 scale5 cfg_staccato = Ok out /\
    absolute_ticks 0 (track (fst out)) = evs.
Proof.
  destruct (final_events row5 scale5 cfg_staccato) as [e|evs] eqn:Ev;
    [vm_compute in Ev; discriminate|].
  destruct (schedule_events row5 scale5 cfg_staccato) as [e|out] eqn:Eo;
    [vm_compute in Eo; discriminate|].
  exists evs, out. split; [reflexivity|]. split; [reflexivity|].
  apply (track_round_trip row5 scale5 cfg_staccato evs out Ev Eo).
  cbn. lia.
Defined.

Example negative_step_breaks_round_trip :
  exists (evs : list event) (out : MidiFile * string),
    final_events row5 scale5 cfg_negative = Ok evs /\
    schedule_events row5 scale5 cfg_negative = Ok out /\
    absolute_ticks 0 (track (fst out)) <> evs.
Proof.
  destruct (final_events row5 scale5 cfg_negative) as [e|evs] eqn:Ev;
    [vm_compute in Ev; discriminate|].
  destruct (schedule_events row5 scale5 cfg_negative) as [e|out] eqn:Eo;
    [vm_compute in Eo; discriminate|].
  exists evs, out. split; [reflexivity|]. split; [reflexivity|].
  vm_compute in Ev. injection Ev as <-.
  vm_compute in Eo. injection Eo as <-. discriminate.
Qed.

Lemma sched_step_ages_follow (cfg : RenderConfig) (scale : list Z)
  (st st' : sched_state) (s : nat) :
  ages_follow st -> sched_step cfg scale st s = Ok st' -> ages_follow st'.
Proof.
  intros [Hlen Hage] Hstep.
  apply sched_step_inv in Hstep as (nxt & Hnxt & Hcase).
  apply next_toroidal_length in Hnxt.
  assert (Hnn : forall k, 0 <= nth k (age st) 0) by (intros k; apply Hage).
  destruct Hcase as [[_ Hs] | [_ (g & _ & Hs)]].
  - apply sustain_step_inv in Hs as (Hrow & Hcl & _).
    destruct Hcl as (Hlen' & _ & _ & Hlo & _).
    split; [congruence|]. intros j. rewrite Hrow.
    destruct (decide (j < length (row st))%nat) as [Hj|Hj].
    + rewrite Hlo by exact Hj. split; [apply sustain_age_nonneg, Hnn|].
      intros Hdead. unfold sustain_age.
      destruct (Z.eqb_spec (nth j nxt 0) 1); [contradiction|]. cbn.
      destruct (Z.eqb_spec (nth j (row st) 0) 1); [reflexivity|].
      apply Hage. assumption.
    + rewrite nth_overflow by lia. split; [lia | reflexivity].
  - apply staccato_step_inv in Hs as (Hrow & Hlen' & Hlo & _).
    split; [congruence|]. intros j. rewrite Hrow.
    destruct (decide (j < length (row st))%nat) as [Hj|Hj].
    + rewrite Hlo by exact Hj. split; [apply staccato_age_nonneg, Hnn|].
      intros Hdead. unfold staccato_age.
      destruct (Z.eqb_spec (nth j nxt 0) 1); [contradiction | reflexivity].
    + rewrite nth_overflow by lia. split; [lia | reflexivity].
Qed.

(** X22. The scheduler runs the toroidal automaton itself: after the step
    loop its row is the row reached from the initial row by as many
    toroidal steps as the step count, in both modes; it keeps one age per
    column, no age is negative, and the age of a cell that is 0 is 0. *)
Theorem scheduler_row_is_iterate (row0 scale : list Z) (cfg : RenderConfig)
  (steps : Z) (st : sched_state) :
  run_steps row0 scale cfg steps = Ok st ->
  steps_toroidal (Z.to_nat steps) row0 = Ok (row st) /\
  length (row st) = length row0 /\
  ages_follow st.
Proof.
  unfold run_steps, range. intros Hrun.
  refine (for_each_invariant _
            (fun k st => steps_toroidal k row0 = Ok (row st) /\
                         length (row st) = length row0 /\ ages_follow st)
            (Z.to_nat steps) 0 _ _ _ _ Hrun).
  - split; [reflexivity|]. split; [reflexivity|].
    split; [apply length_replicate|]. intros j. cbn [sched_init age row].
    assert (E : nth j (replicate (length row0) 0) 0 = 0).
    { rewrite nth_lookup.
      destruct (replicate (length row0) 0 !! j) as [x|] eqn:Ex; [|reflexivity].
      apply lookup_replicate in Ex as [-> _]. reflexivity. }
    rewrite E. split; [lia | reflexivity].
  - intros k s1 s2 _ (Hrow & Hlen & Hage) Hstep.
    split; [|split].
    + rewrite steps_toroidal_succ, Hrow. cbn [bind].
      apply sched_step_inv in Hstep as (nxt & Hnxt & Hcase).
      rewrite Hnxt. f_equal.
      destruct Hcase as [[_ Hs] | [_ (g & _ & Hs)]].
      * apply sustain_step_inv in Hs as (-> & _). reflexivity.
      * apply staccato_step_inv in Hs as (-> & _). reflexivity.
    + pose proof Hstep as Hstep'.
      apply sched_step_inv in Hstep' as (nxt & Hnxt & Hcase).
      rewrite <- Hlen, <- (next_toroidal_length _ _ Hnxt).
      destruct Hcase as [[_ Hs] | [_ (g & _ & Hs)]].
      * apply sustain_step_inv in Hs as (-> & _). reflexivity.
      * apply staccato_step_inv in Hs as (-> & _). reflexivity.
    + apply (sched_step_ages_follow _ _ _ _ _ Hage Hstep).
Qed.

Lemma scheduler_row_is_iterate_witness :
  exists st : sched_state,
    run_steps row5 scale5 cfg_default 32 = Ok st /\
    steps_toroidal (Z.to_nat 32) row5 = Ok (row st) /\
    ages_follow st.
Proof.
  destruct (run_steps row5 scale5 cfg_default 32) as [e|st] eqn:E;
    [vm_compute in E; discriminate|].
  exists st. split; [reflexivity|].
  destruct (scheduler_row_is_iterate row5 scale5 cfg_default 32 st E)
    as (H1 & _ & H3).
  split; assumption.
Defined.

Lemma count_insert_event (f : event -> bool) (x : event) (l : list event) :
  length (List.filter f (insert_event x l)) = length (List.filter f (x :: l)).
Proof.
  induction l as [|y l IH]; cbn [insert_event]; [reflexivity|].
  destruct (key_lt (sort_key y) (sort_key x)); [|reflexivity].
  cbn [List.filter] in *. destruct (f y), (f x); cbn [length] in *; lia.
Qed.

Lemma count_sort_events (f : event -> bool) (l : list event) :
  length (List.filter f (sort_events l)) = length (List.filter f l).
Proof.
  induction l as [|x l IH]; cbn [sort_events]; [reflexivity|].
  rewrite count_insert_event. cbn [List.filter].
  destruct (f x); cbn [length]; lia.
Qed.

Lemma sounding_staccato_events (p base_tick off_tick : Z)
  (row nxt scale age : list Z) (idxs : list nat) :
  sounding p (staccato_events base_tick off_tick row nxt scale age idxs) = 0.
Proof.
  unfold staccato_events. induction idxs as [|i idxs IH]; [reflexivity|].
  cbn [flat_map]. rewrite sounding_app, IH.
  destruct (nth i nxt 0 =? 1); [|reflexivity].
  change [?a; ?b] with ([a] ++ [b]).
  rewrite sounding_app, sounding_start, sounding_stop.
  destruct (decide (nth i scale 0 = p)); reflexivity.
Qed.

(** X23. In staccato mode, for every pitch, the final sequence holds as many
    note-stops as note-starts, whatever the scale (repeated pitches
    included), and the set of active notes is never used: it is empty when
    the step loop ends. *)
Theorem staccato_starts_equal_stops (row0 scale : list Z) (cfg : RenderConfig)
  (steps : Z) (st : sched_state) (evs : list event) :
  staccato_of cfg = true ->
  run_steps row0 scale cfg steps = Ok st ->
  final_events row0 scale cfg = Ok evs ->
  active_notes st = ∅ /\
  forall p : Z, count_stops p evs = count_starts p evs.
Proof.
  intros Hst Hrun Hev.
  apply final_events_inv in Hev as (steps' & st' & _ & Hrun' & ->).
  replace (final_flush cfg steps' st') with st'
    by (unfold final_flush; rewrite Hst; reflexivity).
  split.
  - unfold run_steps in Hrun.
    refine (for_each_preserves _ (fun st => active_notes st = ∅)
              _ _ _ _ _ Hrun); [|reflexivity].
    intros s s1 s2 _ Hact Hstep.
    apply sched_step_inv in Hstep as (nxt & _ & Hcase).
    destruct Hcase as [[Hs _] | [_ (g & _ & Hs)]]; [congruence|].
    apply staccato_step_inv in Hs as (_ & _ & _ & _ & Ha). congruence.
  - intros p. unfold count_stops, count_starts.
    rewrite !count_sort_events.
    assert (H : sounding p (events st') = 0); [|unfold sounding,
      count_starts, count_stops in H; lia].
    unfold run_steps in Hrun'.
    refine (for_each_preserves _ (fun st => sounding p (events st) = 0)
              _ _ _ _ _ Hrun'); [|reflexivity].
    intros s s1 s2 _ Hz Hstep.
    apply sched_step_inv in Hstep as (nxt & _ & Hcase).
    destruct Hcase as [[Hs _] | [_ (g & _ & Hs)]]; [congruence|].
    apply staccato_step_inv in Hs as (_ & _ & _ & Hnew & _).
    rewrite Hnew, sounding_app, Hz, sounding_staccato_events. reflexivity.
Qed.

Lemma staccato_starts_equal_stops_witness :
  exists (st : sched_state) (evs : list event),
    run_steps row4 scale_octaves cfg_staccato 32 = Ok st /\
    final_events row4 scale_octaves cfg_staccato = Ok evs /\
    active_notes st = ∅ /\
    count_stops 72 evs = count_starts 72 evs.
Proof.
  destruct (run_steps row4 scale_octaves cfg_staccato 32) as [e|st] eqn:Er;
    [vm_compute in Er; discriminate|].
  destruct (final_events row4 scale_octaves cfg_staccato) as [e|evs] eqn:Ev;
    [vm_compute in Ev; discriminate|].
  exists st, evs. split; [reflexivity|]. split; [reflexivity|].
  destruct (staccato_starts_equal_stops row4 scale_octaves cfg_staccato 32
              st evs) as [H1 H2]; [reflexivity | exact Er | exact Ev |].
  split; [exact H1 | apply H2].
Defined.

(** ** When the scheduler raises *)










